(** * prioqueue: a generic binary-heap priority queue with tracked handles

    Shallow embedding of [priority_queue.go].  The queue keeps a slice of
    pointers to [Item] records; callers hold the same pointers as handles.
    The Go heap is therefore modelled as an explicit store of [Item]s, and
    the queue's slice as a list of addresses into that store, so that the
    aliasing between the queue and the handles is visible.

    Every exported method that touches the slice takes the queue's mutex
    for its whole duration ([Size] reads the length without it); the model
    treats each method as one atomic state transformer.

    Go's [int] is modelled as [Z].  The code only compares priorities and
    comparator results, and indices stay below the slice length, so no
    arithmetic of the model leaves the 64-bit range for a slice that fits
    in memory; the overflow guard of [heap.down] is kept as written. *)

From Stdlib Require Import ZArith Lia List Permutation Sorted.
From stdpp Require Import base tactics option list numbers strings pretty.

Open Scope Z_scope.

Section PrioQueue.

(** The element type [T] of the generic queue and its zero value
    ([var zero T]). *)
Context {T : Type}.
Variable zero : T.

(** [type Comparator[T any] func(a, b T) int] *)
Definition Comparator : Type := T -> T -> Z.

(** [type Item[T any] struct { Value T; Priority int; Index int }] *)
Record Item : Type := mkItem {
  Value : T;
  Priority : Z;
  Index : Z
}.

(** A [*Item[T]] is an address of the store. *)
Abbreviation ptr := nat (only parsing).

(** [type PriorityQueue[T any] struct { items; comparator; isMaxHeap; mutex }]:
    a [nil] comparator is [None]. *)
Record PriorityQueue : Type := mkPQ {
  items : list ptr;
  comparator : option Comparator;
  isMaxHeap : bool
}.

(** The state a method runs in: the allocated [Item]s and the queue. *)
Record State : Type := mkState {
  store : list Item;
  queue : PriorityQueue
}.

(** ** A state-and-failure monad

    [None] stands for a run-time panic (index out of range, nil
    dereference) or, in the two loops, for exhausted fuel. *)
Definition M (A : Type) : Type := State -> option (A * State).

Definition ret {A} (a : A) : M A := fun s => Some (a, s).

Definition bind {A B} (m : M A) (k : A -> M B) : M B :=
  fun s => match m s with
           | Some (a, s') => k a s'
           | None => None
           end.

Definition panic {A} : M A := fun _ => None.

Notation "'let*' x ':=' m 'in' k" := (bind m (fun x => k))
  (at level 10, x name, m at level 200, k at level 200).
Notation "m '>>' k" := (bind m (fun _ => k))
  (at level 100, k at level 200, right associativity).

(** *** Primitive accesses *)

(** [len(pq.items)] *)
Definition len : M Z :=
  fun s => Some (Z.of_nat (length (items (queue s))), s).

(** [pq.items[i]], with Go's bounds check *)
Definition item_at (i : Z) : M ptr :=
  fun s => if i <? 0 then None
           else match items (queue s) !! Z.to_nat i with
                | Some p => Some (p, s)
                | None => None
                end.

(** [pq.items[i] = p], with Go's bounds check *)
Definition set_item_at (i : Z) (p : ptr) : M unit :=
  fun s => if (i <? 0) || (Z.of_nat (length (items (queue s))) <=? i) then None
           else Some (tt, mkState (store s)
                            (mkPQ (<[Z.to_nat i := p]> (items (queue s)))
                                  (comparator (queue s)) (isMaxHeap (queue s)))).

(** [pq.items = l] *)
Definition set_items (l : list ptr) : M unit :=
  fun s => Some (tt, mkState (store s)
                       (mkPQ l (comparator (queue s)) (isMaxHeap (queue s)))).

(** [*p] *)
Definition load (p : ptr) : M Item :=
  fun s => match store s !! p with
           | Some it => Some (it, s)
           | None => None
           end.

(** [*p = it] *)
Definition save (p : ptr) (it : Item) : M unit :=
  fun s => match store s !! p with
           | Some _ => Some (tt, mkState (<[p := it]> (store s)) (queue s))
           | None => None
           end.

(** [p.Index = v] *)
Definition set_Index (p : ptr) (v : Z) : M unit :=
  let* it := load p in save p (mkItem (Value it) (Priority it) v).

(** [p.Priority = v] *)
Definition set_Priority (p : ptr) (v : Z) : M unit :=
  let* it := load p in save p (mkItem (Value it) v (Index it)).

(** [&Item[T]{Value: value, Priority: priority}]: a fresh address; the
    [Index] field starts at Go's zero value. *)
Definition alloc (value : T) (priority : Z) : M ptr :=
  fun s => Some (length (store s),
                 mkState (store s ++ [mkItem value priority 0]) (queue s)).

(** ** The [heap.Interface] methods of the queue *)

(** [Len] *)
Definition Len : M Z := len.

(** The comparison [Less] makes once both items are loaded. *)
Definition outranks (c : option Comparator) (mx : bool) (x y : Item) : bool :=
  match c with
  | Some cmp =>
      let result := cmp (Value x) (Value y) in
      if mx then result >? 0 else result <? 0
  | None =>
      if mx then Priority x >? Priority y else Priority x <? Priority y
  end.

(** [Less(i, j)] *)
Definition Less (i j : Z) : M bool :=
  let* a := item_at i in
  let* x := load a in
  let* b := item_at j in
  let* y := load b in
  fun s => Some (outranks (comparator (queue s)) (isMaxHeap (queue s)) x y, s).

(** [Swap(i, j)]: both right-hand sides are read before the two slots are
    written; then the [Index] fields are refreshed, slot [i] first. *)
Definition Swap (i j : Z) : M unit :=
  let* b := item_at j in
  let* a := item_at i in
  set_item_at i b >>
  set_item_at j a >>
  (let* p := item_at i in set_Index p i) >>
  (let* q := item_at j in set_Index q j).

(** [Push(x)] *)
Definition Push (x : ptr) : M unit :=
  let* n := len in
  set_Index x n >>
  fun s => set_items (items (queue s) ++ [x]) s.

(** [Pop()]: [old[n-1] = nil] writes a slot that the re-slicing hides. *)
Definition Pop : M ptr :=
  let* n := len in
  let* it := item_at (n - 1) in
  set_Index it (-1) >>
  (fun s => set_items (take (Z.to_nat (n - 1)) (items (queue s))) s) >>
  ret it.

(** ** [container/heap] of the Go standard library

    The queue delegates to [heap.Init], [heap.Push], [heap.Pop],
    [heap.Remove] and [heap.Fix]; they are transcribed from the standard
    library's [heap.go].  The two loops carry a fuel argument that the
    callers set from the index range. *)

(** [up(h, j)]: Go's [/] truncates toward zero, so the parent of [0] is
    [0] and the loop stops at the root. *)
Fixpoint up_loop (fuel : nat) (j : Z) : M unit :=
  match fuel with
  | O => panic
  | S fuel' =>
      let i := (j - 1) ÷ 2 in
      if i =? j then ret tt
      else
        let* lt := Less j i in
        if negb lt then ret tt
        else Swap i j >> up_loop fuel' i
  end.

Definition up (j : Z) : M unit := up_loop (S (Z.to_nat j)) j.

(** [down(h, i0, n)]: the loop returns the final [i]; [down] reports
    [i > i0]. *)
Fixpoint down_loop (fuel : nat) (i n : Z) : M Z :=
  match fuel with
  | O => panic
  | S fuel' =>
      let j1 := 2 * i + 1 in
      if (j1 >=? n) || (j1 <? 0) then ret i
      else
        let j2 := j1 + 1 in
        let* j := (if j2 <? n
                   then let* b := Less j2 j1 in ret (if b then j2 else j1)
                   else ret j1) in
        let* lt := Less j i in
        if negb lt then ret i
        else Swap i j >> down_loop fuel' j n
  end.

Definition down (i0 n : Z) : M bool :=
  let* i := down_loop (S (Z.to_nat n)) i0 n in
  ret (i >? i0).

(** [heap.Init(h)]: [for i := n/2 - 1; i >= 0; i-- { down(h, i, n) }] *)
Fixpoint init_loop (fuel : nat) (i n : Z) : M unit :=
  match fuel with
  | O => panic
  | S fuel' =>
      if i >=? 0 then down i n >> init_loop fuel' (i - 1) n
      else ret tt
  end.

Definition heap_Init : M unit :=
  let* n := Len in
  init_loop (S (Z.to_nat (n ÷ 2))) (n ÷ 2 - 1) n.

(** [heap.Push(h, x)] *)
Definition heap_Push (x : ptr) : M unit :=
  Push x >>
  let* n := Len in
  up (n - 1).

(** [heap.Pop(h)] *)
Definition heap_Pop : M ptr :=
  let* l := Len in
  let n := l - 1 in
  Swap 0 n >>
  down 0 n >>
  Pop.

(** [heap.Remove(h, i)] *)
Definition heap_Remove (i : Z) : M ptr :=
  let* l := Len in
  let n := l - 1 in
  (if n =? i then ret tt
   else Swap i n >>
        let* moved := down i n in
        if negb moved then up i else ret tt) >>
  Pop.

(** [heap.Fix(h, i)] *)
Definition heap_Fix (i : Z) : M unit :=
  let* n := Len in
  let* moved := down i n in
  if negb moved then up i else ret tt.

(** ** The exported operations *)

(** A queue that has just been built around a store: [items] is
    [make([]*Item[T], 0)]. *)
Definition fresh (st : list Item) (c : option Comparator) (mx : bool) : State :=
  mkState st (mkPQ [] c mx).

(** [New], [NewMax], [NewWithComparator]: build the struct, then
    [heap.Init].  The constructors run in a program whose store is [st]. *)
Definition New (st : list Item) : option (unit * State) :=
  heap_Init (fresh st None false).

Definition NewMax (st : list Item) : option (unit * State) :=
  heap_Init (fresh st None true).

Definition NewWithComparator (st : list Item) (cmp : Comparator) (mx : bool)
  : option (unit * State) :=
  heap_Init (fresh st (Some cmp) mx).

(** [Enqueue(value, priority)] *)
Definition Enqueue (value : T) (priority : Z) : M ptr :=
  let* item := alloc value priority in
  heap_Push item >>
  ret item.

(** [Dequeue()] *)
Definition Dequeue : M (T * bool) :=
  let* n := len in
  if n =? 0 then ret (zero, false)
  else
    let* item := heap_Pop in
    let* it := load item in
    ret (Value it, true).

(** [Peek()] *)
Definition Peek : M (T * bool) :=
  let* n := len in
  if n =? 0 then ret (zero, false)
  else
    let* p := item_at 0 in
    let* it := load p in
    ret (Value it, true).

(** [IsEmpty()] *)
Definition IsEmpty : M bool :=
  let* n := len in ret (n =? 0).

(** [Size()] *)
Definition Size : M Z := Len.

(** [Clear()]: [pq.items = pq.items[:0]], then [heap.Init]. *)
Definition Clear : M unit :=
  (fun s => set_items (take 0 (items (queue s))) s) >>
  heap_Init.

(** [UpdatePriority(item, newPriority)] *)
Definition UpdatePriority (item : ptr) (newPriority : Z) : M unit :=
  let* it := load item in
  let* n := len in
  if (Index it <? 0) || (Index it >=? n) then ret tt
  else
    set_Priority item newPriority >>
    let* it' := load item in
    heap_Fix (Index it').

(** [Remove(item)] *)
Definition Remove (item : ptr) : M (T * bool) :=
  let* it := load item in
  let* n := len in
  if (Index it <? 0) || (Index it >=? n) then ret (zero, false)
  else
    let* removed := heap_Remove (Index it) in
    let* r := load removed in
    ret (Value r, true).

(** [ToSlice()]: a copy of every item, in slice order. *)
Definition ToSlice : M (list Item) :=
  fun s => match mapM (fun p => store s !! p) (items (queue s)) with
           | Some l => Some (l, s)
           | None => None
           end.

(** * Specification vocabulary *)

(** The ordering policy of a queue, as a relation on items: [ord s x y]
    says that [x] outranks [y]. *)
Definition ord (s : State) : Item -> Item -> bool :=
  outranks (comparator (queue s)) (isMaxHeap (queue s)).

(** The item stored at slot [k] of the slice, through its pointer. *)
Definition elem (s : State) (k : nat) : option Item :=
  match items (queue s) !! k with
  | Some p => store s !! p
  | None => None
  end.

(** Position tracking: the item at slot [i] exists and records [i]. *)
Definition positions_ok (s : State) : Prop :=
  forall (i : nat) (p : ptr), items (queue s) !! i = Some p ->
    exists it, store s !! p = Some it /\ Index it = Z.of_nat i.

(** The heap invariant: no child outranks its parent. *)
Definition heap_invariant (s : State) : Prop :=
  forall (i c : nat) (x y : Item),
    (c = 2 * i + 1 \/ c = 2 * i + 2)%nat ->
    elem s i = Some x -> elem s c = Some y -> ord s y x = false.

(** A handle is a pointer the program holds: an allocated [Item]. *)
Definition valid_handle (s : State) (h : ptr) : Prop :=
  (h < length (store s))%nat.

(** What the ordering looks at: value and priority, not the index. *)
Definition key_of (it : Item) : T * Z := (Value it, Priority it).

Definition klt (c : option Comparator) (mx : bool) (a b : T * Z) : bool :=
  outranks c mx (mkItem (fst a) (snd a) 0) (mkItem (fst b) (snd b) 0).

Definition lt_of (s : State) : T * Z -> T * Z -> bool :=
  klt (comparator (queue s)) (isMaxHeap (queue s)).

Definition dummy : Item := mkItem zero 0 0.

(** The key at slot [k]. *)
Definition kat (s : State) (k : nat) : T * Z :=
  key_of (default dummy (elem s k)).

(** The keys of the queue in slice order. *)
Definition keys (s : State) : list (T * Z) :=
  map (fun p => key_of (default dummy (store s !! p))) (items (queue s)).

(** A comparator is consistent when the relation it induces is a strict
    weak order: asymmetric, with a transitive complement. *)
Definition strict_weak {K} (lt : K -> K -> bool) : Prop :=
  (forall a b, lt a b = true -> lt b a = false) /\
  (forall a b c, lt a b = false -> lt b c = false -> lt a c = false).

(** *** Heaps with a hole, over a function from slots to keys *)

Definition child (p c : nat) : Prop := (c = 2 * p + 1 \/ c = 2 * p + 2)%nat.

Definition parent (j : nat) : nat := ((j - 1) / 2)%nat.

Definition good {K} (lt : K -> K -> bool) (g : nat -> K) (p c : nat) : Prop :=
  lt (g c) (g p) = false.

Definition heap_ok {K} (lt : K -> K -> bool) (n : nat) (g : nat -> K) : Prop :=
  forall p c, child p c -> (c < n)%nat -> good lt g p c.

Definition grand_ok {K} (lt : K -> K -> bool) (n : nat) (g : nat -> K) (k : nat) : Prop :=
  forall p c, child p k -> child k c -> (c < n)%nat -> good lt g p c.

(** Only the pair above [k] may be out of order. *)
Definition up_hole {K} (lt : K -> K -> bool) (n : nat) (g : nat -> K) (k : nat) : Prop :=
  (forall p c, child p c -> (c < n)%nat -> c <> k -> good lt g p c) /\
  grand_ok lt n g k.

(** Only the pairs below [k] may be out of order. *)
Definition down_hole {K} (lt : K -> K -> bool) (n : nat) (g : nat -> K) (k : nat) : Prop :=
  (forall p c, child p c -> (c < n)%nat -> p <> k -> good lt g p c) /\
  grand_ok lt n g k.

(** Only pairs that involve [k] may be out of order. *)
Definition hole {K} (lt : K -> K -> bool) (n : nat) (g : nat -> K) (k : nat) : Prop :=
  (forall p c, child p c -> (c < n)%nat -> p <> k -> c <> k -> good lt g p c) /\
  grand_ok lt n g k.

Definition transp (i j k : nat) : nat :=
  if decide (k = i) then j else if decide (k = j) then i else k.

(** [rearr n s s']: [s'] is [s] with the first [n] slots permuted and the
    [Index] fields of their items refreshed; nothing else has changed. *)
Record rearr (n : nat) (s s' : State) : Prop := mkRearr {
  rearr_pos : positions_ok s';
  rearr_cmp : comparator (queue s') = comparator (queue s);
  rearr_max : isMaxHeap (queue s') = isMaxHeap (queue s);
  rearr_store_len : length (store s') = length (store s);
  rearr_perm : Permutation (items (queue s')) (items (queue s));
  rearr_tail : forall k : nat, (n <= k)%nat ->
      items (queue s') !! k = items (queue s) !! k;
  rearr_key : forall (p : ptr) it, store s !! p = Some it ->
      exists it', store s' !! p = Some it' /\
                  Value it' = Value it /\ Priority it' = Priority it;
  rearr_frame : forall p : ptr, p ∉ items (queue s) ->
      store s' !! p = store s !! p
}.

(** The state [Swap i j] leaves behind, given the two pointers and the
    items they point to. *)
Definition swapped_state (s : State) (i j : nat) (p q : ptr) (a b : Item) : State :=
  mkState
    (<[p := mkItem (Value a) (Priority a) (Z.of_nat j)]>
       (<[q := mkItem (Value b) (Priority b) (Z.of_nat i)]> (store s)))
    (mkPQ (<[j := p]> (<[i := q]> (items (queue s))))
          (comparator (queue s)) (isMaxHeap (queue s))).

(** The state [Push x] leaves behind, [it] being what [x] points to. *)
Definition pushed_state (s : State) (x : ptr) (it : Item) : State :=
  mkState
    (<[x := mkItem (Value it) (Priority it)
                   (Z.of_nat (length (items (queue s))))]> (store s))
    (mkPQ (items (queue s) ++ [x]) (comparator (queue s)) (isMaxHeap (queue s))).

(** The state [Pop] leaves behind, [x] being the last pointer of the
    slice and [it] what it points to. *)
Definition popped_state (s : State) (x : ptr) (it : Item) : State :=
  mkState
    (<[x := mkItem (Value it) (Priority it) (-1)]> (store s))
    (mkPQ (take (length (items (queue s)) - 1)%nat (items (queue s)))
          (comparator (queue s)) (isMaxHeap (queue s))).

(** [inserted s x s']: [s'] is [s] with the pointer [x] added to the
    slice and the slots rearranged. *)
Record inserted (s : State) (x : ptr) (s' : State) : Prop := mkInserted {
  ins_pos : positions_ok s';
  ins_cmp : comparator (queue s') = comparator (queue s);
  ins_max : isMaxHeap (queue s') = isMaxHeap (queue s);
  ins_store_len : length (store s') = length (store s);
  ins_perm : Permutation (items (queue s')) (x :: items (queue s));
  ins_key : forall (p : ptr) it, store s !! p = Some it ->
      exists it', store s' !! p = Some it' /\
                  Value it' = Value it /\ Priority it' = Priority it;
  ins_frame : forall p : ptr, p ∉ items (queue s) -> p <> x ->
      store s' !! p = store s !! p
}.

(** [removed s x s']: [s'] is [s] with the pointer [x] taken out of the
    slice, its item marked [-1], and the other slots rearranged. *)
Record removed (s : State) (x : ptr) (s' : State) : Prop := mkRemoved {
  rem_pos : positions_ok s';
  rem_cmp : comparator (queue s') = comparator (queue s);
  rem_max : isMaxHeap (queue s') = isMaxHeap (queue s);
  rem_store_len : length (store s') = length (store s);
  rem_perm : Permutation (items (queue s)) (x :: items (queue s'));
  rem_index : exists it, store s' !! x = Some it /\ Index it = -1;
  rem_key : forall (p : ptr) it, store s !! p = Some it ->
      exists it', store s' !! p = Some it' /\
                  Value it' = Value it /\ Priority it' = Priority it;
  rem_frame : forall p : ptr, p ∉ items (queue s) ->
      store s' !! p = store s !! p
}.

(** The state [alloc value priority] leaves behind. *)
Definition alloc_state (s : State) (value : T) (priority : Z) : State :=
  mkState (store s ++ [mkItem value priority 0]) (queue s).

(** The state [h.Priority = p] leaves behind, [it] being what [h] points to. *)
Definition prio_state (s : State) (h : ptr) (it : Item) (p : Z) : State :=
  mkState (<[h := mkItem (Value it) p (Index it)]> (store s)) (queue s).

(** The state [Clear] leaves behind. *)
Definition cleared_state (s : State) : State :=
  mkState (store s) (mkPQ [] (comparator (queue s)) (isMaxHeap (queue s))).

(** ** Sequences of operations *)

(** The mutating operations of the exported interface. *)
Inductive op : Type :=
| OpEnqueue (value : T) (priority : Z)
| OpDequeue
| OpUpdatePriority (h : ptr) (newPriority : Z)
| OpRemove (h : ptr)
| OpClear.

(** What an operation hands back. *)
Inductive result : Type :=
| RHandle (h : ptr)
| RValue (v : T) (ok : bool)
| RNothing.

Definition run_op (o : op) : M result :=
  match o with
  | OpEnqueue v p => let* h := Enqueue v p in ret (RHandle h)
  | OpDequeue => let* r := Dequeue in ret (RValue (fst r) (snd r))
  | OpUpdatePriority h p => UpdatePriority h p >> ret RNothing
  | OpRemove h => let* r := Remove h in ret (RValue (fst r) (snd r))
  | OpClear => Clear >> ret RNothing
  end.

(** The handles an operation is called with point to allocated items. *)
Definition handles_ok (s : State) (o : op) : Prop :=
  match o with
  | OpUpdatePriority h _ | OpRemove h => valid_handle s h
  | _ => True
  end.

(** The queues a program can build: one of the three constructors run in
    some store, followed by operations. *)
Inductive built : State -> Prop :=
| built_New st s :
    New st = Some (tt, s) -> built s
| built_NewMax st s :
    NewMax st = Some (tt, s) -> built s
| built_NewWithComparator st cmp mx s :
    NewWithComparator st cmp mx = Some (tt, s) -> built s
| built_step s o r s' :
    built s -> handles_ok s o -> run_op o s = Some (r, s') -> built s'.

(** [reach s s']: operations lead from [s] to [s']. *)
Inductive reach : State -> State -> Prop :=
| reach_refl s : reach s s
| reach_step s o r s1 s2 :
    handles_ok s o -> run_op o s = Some (r, s1) -> reach s1 s2 -> reach s s2.

(** The ordering policy of the queue is consistent. *)
Definition consistent (s : State) : Prop := strict_weak (ord s).

(** The usual contract of a three-way comparator: the sign flips when
    the arguments are exchanged, and "not after" is transitive. *)
Definition three_way (cmp : Comparator) : Prop :=
  (forall a b, cmp a b < 0 <-> cmp b a > 0) /\
  (forall a b c, cmp a b <= 0 -> cmp b c <= 0 -> cmp a c <= 0).

(** [Enqueue] for each pair of a list, in order. *)
Fixpoint enqueue_all (l : list (T * Z)) : M unit :=
  match l with
  | [] => ret tt
  | (v, p) :: l' => Enqueue v p >> enqueue_all l'
  end.

(** [n] calls of [Dequeue], with their results in order. *)
Fixpoint dequeue_n (n : nat) : M (list (T * bool)) :=
  match n with
  | O => ret []
  | S n' => let* r := Dequeue in
            let* rs := dequeue_n n' in
            ret (r :: rs)
  end.

(** [n] calls of [Peek], with their results in order. *)
Fixpoint peek_n (n : nat) : M (list (T * bool)) :=
  match n with
  | O => ret []
  | S n' => let* r := Peek in
            let* rs := peek_n n' in
            ret (r :: rs)
  end.

(** The values of the queue in slice order. *)
Definition values (s : State) : list T := map fst (keys s).

(** ** Vocabulary for the properties of single operations *)

(** The size an operation leaves behind, from the size before it and
    what it returned. *)
Definition size_after (o : op) (r : result) (n : Z) : Z :=
  match o, r with
  | OpEnqueue _ _, _ => n + 1
  | OpDequeue, RValue _ true => n - 1
  | OpRemove _, RValue _ true => n - 1
  | OpClear, _ => 0
  | _, _ => n
  end.

(** ** The drain loop of the example program

    [for !pq.IsEmpty() { v, ok := pq.Dequeue(); if ok { ... v ... } }],
    as [basicExample] of [examples/main.go] writes it; the model collects
    the values the body gets to see, in order.  The loop has no bound of
    its own, so it carries fuel. *)
Fixpoint drain_loop (fuel : nat) : M (list T) :=
  match fuel with
  | O => panic
  | S fuel' =>
      let* e := IsEmpty in
      if e then ret []
      else
        let* r := Dequeue in
        let* rest := drain_loop fuel' in
        ret (if snd r then fst r :: rest else rest)
  end.

(** ** Queues on which [Clear] is never called *)

(** [alloc] appends to the store, so the items allocated since the store
    had [n0] items are those at the addresses from [n0] on.  Each of them
    sits in the slice or is marked [-1]. *)
Definition handles_tracked (n0 : nat) (s : State) : Prop :=
  (n0 <= length (store s))%nat /\
  forall (h : ptr) it, (n0 <= h)%nat -> store s !! h = Some it ->
    Index it = -1 \/ h ∈ items (queue s).

Definition is_Clear (o : op) : bool :=
  match o with OpClear => true | _ => false end.

(** A constructor run in any store, of [n0] items, followed by
    operations other than [Clear].  The only allocation after the
    constructor is the one in [Enqueue], so the handles that [Enqueue] has
    returned are the addresses from [n0] on; the addresses below [n0] are
    items the program made by other means, with whatever [Index]. *)
Inductive built_without_Clear (n0 : nat) : State -> Prop :=
| bwc_New st s :
    length st = n0 -> New st = Some (tt, s) -> built_without_Clear n0 s
| bwc_NewMax st s :
    length st = n0 -> NewMax st = Some (tt, s) -> built_without_Clear n0 s
| bwc_NewWithComparator st cmp mx s :
    length st = n0 -> NewWithComparator st cmp mx = Some (tt, s) ->
    built_without_Clear n0 s
| bwc_step s o r s' :
    built_without_Clear n0 s -> handles_ok s o -> is_Clear o = false ->
    run_op o s = Some (r, s') -> built_without_Clear n0 s'.

(** ** [String]

    [fmt.Sprintf] prints [%d] in decimal and [%s] as the string itself;
    what [%v] prints for a value of the element type is the parameter
    [show]. *)
Definition newline : string := String (Ascii.ascii_of_nat 10) EmptyString.

(** [fmt.Sprintf("\n  [%d] Value: %v, Priority: %d", i, item.Value, item.Priority)] *)
Definition render_line (show : T -> string) (i : nat) (it : Item) : string :=
  (newline +:+ "  [" +:+ pretty (Z.of_nat i) +:+ "] Value: " +:+ show (Value it)
     +:+ ", Priority: " +:+ pretty (Priority it))%string.

(** [fmt.Sprintf("PriorityQueue[%s-heap, size=%d]:", heapType, len(pq.items))] *)
Definition render_header (mx : bool) (n : Z) : string :=
  ("PriorityQueue[" +:+ (if mx then "max" else "min") +:+ "-heap, size="
     +:+ pretty n +:+ "]:")%string.

(** [String()] *)
Definition String_ (show : T -> string) : M string :=
  let* n := len in
  if n =? 0 then ret "PriorityQueue[]"%string
  else
    fun s =>
      match mapM (fun p => store s !! p) (items (queue s)) with
      | Some l =>
          Some (fold_left (fun acc e => (acc +:+ render_line show (fst e) (snd e))%string)
                          (imap pair l)
                          (render_header (isMaxHeap (queue s)) n), s)
      | None => None
      end.

(** * Verification *)

(** ** Running the monad *)

Lemma bind_Some {A B} (m : M A) (k : A -> M B) s a s' :
  m s = Some (a, s') -> bind m k s = k a s'.
Proof. unfold bind. intros ->. reflexivity. Qed.

Lemma len_eq s : len s = Some (Z.of_nat (length (items (queue s))), s).
Proof. reflexivity. Qed.

Lemma item_at_ok s (i : nat) p :
  items (queue s) !! i = Some p -> item_at (Z.of_nat i) s = Some (p, s).
Proof.
  intros H. unfold item_at.
  destruct (Z.ltb_spec (Z.of_nat i) 0) as [Hn|_]; [lia|].
  rewrite Nat2Z.id, H. reflexivity.
Qed.

Lemma load_ok s p it : store s !! p = Some it -> load p s = Some (it, s).
Proof. unfold load. intros ->. reflexivity. Qed.

Lemma set_item_at_ok s (i : nat) p :
  (i < length (items (queue s)))%nat ->
  set_item_at (Z.of_nat i) p s =
  Some (tt, mkState (store s)
              (mkPQ (<[i := p]> (items (queue s)))
                    (comparator (queue s)) (isMaxHeap (queue s)))).
Proof.
  intros H. unfold set_item_at.
  destruct (Z.ltb_spec (Z.of_nat i) 0) as [Hn|_]; [lia|].
  destruct (Z.leb_spec (Z.of_nat (length (items (queue s)))) (Z.of_nat i)); [lia|].
  rewrite Nat2Z.id. reflexivity.
Qed.

Lemma set_Index_ok s p it v :
  store s !! p = Some it ->
  set_Index p v s =
  Some (tt, mkState (<[p := mkItem (Value it) (Priority it) v]> (store s)) (queue s)).
Proof.
  intros H. unfold set_Index. rewrite (bind_Some _ _ _ _ _ (load_ok _ _ _ H)).
  unfold save. rewrite H. reflexivity.
Qed.

Lemma set_Priority_ok s p it v :
  store s !! p = Some it ->
  set_Priority p v s =
  Some (tt, mkState (<[p := mkItem (Value it) v (Index it)]> (store s)) (queue s)).
Proof.
  intros H. unfold set_Priority. rewrite (bind_Some _ _ _ _ _ (load_ok _ _ _ H)).
  unfold save. rewrite H. reflexivity.
Qed.

Lemma Swap_eq s (i j : nat) p q a b :
  items (queue s) !! i = Some p -> items (queue s) !! j = Some q ->
  store s !! p = Some a -> store s !! q = Some b ->
  Swap (Z.of_nat i) (Z.of_nat j) s = Some (tt, swapped_state s i j p q a b).
Proof.
  intros Hi Hj Hp Hq. unfold Swap.
  pose proof (lookup_lt_Some _ _ _ Hi) as Li.
  pose proof (lookup_lt_Some _ _ _ Hj) as Lj.
  pose proof (lookup_lt_Some _ _ _ Hp) as Lp.
  pose proof (lookup_lt_Some _ _ _ Hq) as Lq.
  rewrite (bind_Some _ _ _ _ _ (item_at_ok _ _ _ Hj)).
  rewrite (bind_Some _ _ _ _ _ (item_at_ok _ _ _ Hi)).
  rewrite (bind_Some _ _ _ _ _ (set_item_at_ok _ _ _ Li)).
  erewrite bind_Some; [|apply set_item_at_ok; simpl; rewrite length_insert; exact Lj].
  simpl.
  destruct (decide (i = j)) as [->|Hne].
  - assert (p = q) by congruence. subst q. assert (a = b) by congruence. subst b.
    erewrite bind_Some; cycle 1.
    { erewrite bind_Some; [|apply item_at_ok; simpl; apply list_lookup_insert_eq;
                             rewrite length_insert; exact Lj].
      apply set_Index_ok. simpl. exact Hp. }
    erewrite bind_Some; [|apply item_at_ok; simpl; apply list_lookup_insert_eq;
                           rewrite length_insert; exact Lj].
    erewrite set_Index_ok; [|simpl; apply list_lookup_insert_eq; exact Lp].
    reflexivity.
  - erewrite bind_Some; cycle 1.
    { erewrite bind_Some; [|apply item_at_ok; simpl;
                             rewrite list_lookup_insert_ne by congruence;
                             apply list_lookup_insert_eq; exact Li].
      apply set_Index_ok. simpl. exact Hq. }
    erewrite bind_Some; [|apply item_at_ok; simpl; apply list_lookup_insert_eq;
                           rewrite length_insert; exact Lj].
    destruct (decide (p = q)) as [->|Hpq].
    + assert (a = b) by congruence. subst b.
      erewrite set_Index_ok; [|simpl; apply list_lookup_insert_eq; exact Lp].
      reflexivity.
    + erewrite set_Index_ok; [|simpl; rewrite list_lookup_insert_ne by congruence; exact Hp].
      reflexivity.
Qed.

(** ** Sifting in a heap with a hole *)

Lemma child_parent j : j <> 0%nat -> child (parent j) j.
Proof.
  intros Hj. unfold child, parent.
  pose proof (Nat.div_mod_eq (j - 1) 2) as E.
  pose proof (Nat.mod_upper_bound (j - 1) 2 ltac:(lia)). lia.
Qed.

Lemma child_unique p p' c : child p c -> child p' c -> p = p'.
Proof. unfold child. lia. Qed.

Lemma child_lt p c : child p c -> (p < c)%nat.
Proof. unfold child. lia. Qed.

Lemma parent_quot (j : nat) : (Z.of_nat j - 1) ÷ 2 = Z.of_nat (parent j).
Proof.
  unfold parent. destruct j as [|j].
  - reflexivity.
  - rewrite Z.quot_div_nonneg by lia.
    replace (S j - 1)%nat with j by lia.
    rewrite Nat2Z.inj_div. f_equal. lia.
Qed.

Lemma transp_l i j : transp i j i = j.
Proof. unfold transp. case_decide; congruence. Qed.

Lemma transp_r i j : transp i j j = i.
Proof. unfold transp. repeat case_decide; congruence. Qed.

Lemma transp_other i j k : k <> i -> k <> j -> transp i j k = k.
Proof. unfold transp. intros. repeat case_decide; congruence. Qed.

Section HeapOrder.

Context {K : Type} (lt : K -> K -> bool).
Hypothesis SW : strict_weak lt.

Lemma lt_asym a b : lt a b = true -> lt b a = false.
Proof. apply SW. Qed.

Lemma lt_negtrans a b c : lt a b = false -> lt b c = false -> lt a c = false.
Proof. apply SW. Qed.

Lemma lt_irrefl a : lt a a = false.
Proof.
  destruct (lt a a) eqn:E; [|reflexivity].
  pose proof (lt_asym _ _ E). congruence.
Qed.

(** One step of [up]: the item at [k] outranks its parent and the two
    are exchanged; the hole moves to the parent. *)
Lemma up_hole_swap n g g' p k :
  up_hole lt n g k -> child p k -> (k < n)%nat ->
  lt (g k) (g p) = true ->
  (forall m, g' m = g (transp p k m)) ->
  up_hole lt n g' p.
Proof.
  intros [Hpairs Hgrand] Hpk Hk Hlt Hg'.
  pose proof (child_lt _ _ Hpk) as Hplt.
  split.
  - intros p' c' Hc Hcn Hcp. unfold good.
    pose proof (child_lt _ _ Hc) as Hlt'.
    destruct (decide (c' = k)) as [->|Hck].
    + assert (p' = p) by (eapply child_unique; eauto). subst p'.
      rewrite !Hg', transp_l, transp_r. apply lt_asym, Hlt.
    + rewrite (Hg' c'), (transp_other _ _ c') by assumption.
      destruct (decide (p' = p)) as [->|Hpp].
      * rewrite Hg', transp_l.
        apply lt_negtrans with (g p).
        -- apply (Hpairs p c'); assumption.
        -- apply lt_asym, Hlt.
      * destruct (decide (p' = k)) as [->|Hpk'].
        -- rewrite Hg', transp_r. apply (Hgrand p c'); assumption.
        -- rewrite Hg', transp_other by assumption.
           apply (Hpairs p' c'); assumption.
  - intros pp c Hpp Hc Hcn. unfold good.
    pose proof (child_lt _ _ Hpp) as Hpplt.
    rewrite (Hg' pp), (transp_other _ _ pp) by lia.
    destruct (decide (c = k)) as [->|Hck].
    + rewrite Hg', transp_r. apply (Hpairs pp p); [assumption|lia|lia].
    + assert (c <> p) by (apply child_lt in Hc; lia).
      rewrite Hg', transp_other by assumption.
      apply lt_negtrans with (g p).
      * apply (Hpairs p c); assumption.
      * apply (Hpairs pp p); [assumption|lia|lia].
Qed.

(** [up] stops: at the root, or below a parent that is not outranked. *)
Lemma up_hole_done n g k :
  up_hole lt n g k ->
  (k = 0%nat \/ lt (g k) (g (parent k)) = false) ->
  heap_ok lt n g.
Proof.
  intros [Hpairs _] Hstop p c Hc Hcn.
  destruct (decide (c = k)) as [->|Hck]; [|apply Hpairs; assumption].
  destruct Hstop as [->|Hstop].
  - unfold child in Hc. lia.
  - assert (k <> 0%nat) by (unfold child in Hc; lia).
    assert (p = parent k) by (eapply child_unique; eauto using child_parent).
    subst p. exact Hstop.
Qed.

(** One step of [down]: child [j] outranks [i] and is not outranked by
    its sibling; the two are exchanged and the hole moves to [j]. *)
Lemma hole_down_swap n g g' i j :
  hole lt n g i -> child i j -> (j < n)%nat ->
  lt (g j) (g i) = true ->
  (forall c, child i c -> (c < n)%nat -> lt (g c) (g j) = false) ->
  (forall m, g' m = g (transp i j m)) ->
  down_hole lt n g' j.
Proof.
  intros [Hpairs Hgrand] Hij Hj Hlt Hbest Hg'.
  pose proof (child_lt _ _ Hij) as Hilt.
  split.
  - intros p' c' Hc Hcn Hpj. unfold good.
    pose proof (child_lt _ _ Hc) as Hlt'.
    destruct (decide (p' = i)) as [->|Hpi].
    + rewrite (Hg' i), transp_l.
      destruct (decide (c' = j)) as [->|Hcj].
      * rewrite Hg', transp_r. apply lt_asym, Hlt.
      * rewrite Hg', transp_other by (assumption || lia).
        apply Hbest; assumption.
    + rewrite (Hg' p'), (transp_other _ _ p') by assumption.
      destruct (decide (c' = i)) as [->|Hci].
      * rewrite Hg', transp_l. apply (Hgrand p' j); assumption.
      * destruct (decide (c' = j)) as [->|Hcj].
        -- exfalso. apply Hpi. eapply child_unique; eauto.
        -- rewrite Hg', transp_other by assumption.
           apply (Hpairs p' c'); assumption.
  - intros pp c Hpp Hc Hcn. unfold good.
    assert (pp = i) by (eapply child_unique; eauto). subst pp.
    pose proof (child_lt _ _ Hc) as Hclt.
    rewrite (Hg' i), transp_l, Hg', transp_other by lia.
    apply (Hpairs j c); [assumption|assumption|lia|lia].
Qed.

Lemma down_hole_hole n g k : down_hole lt n g k -> hole lt n g k.
Proof. intros [H1 H2]. split; [|assumption]. intros. apply H1; assumption. Qed.

(** [down] stops: no child outranks the item in the hole. *)
Lemma down_hole_done n g i :
  down_hole lt n g i ->
  (forall c, child i c -> (c < n)%nat -> lt (g c) (g i) = false) ->
  heap_ok lt n g.
Proof.
  intros [Hpairs _] Hch p c Hc Hcn.
  destruct (decide (p = i)) as [->|Hpi]; [apply Hch|apply Hpairs]; assumption.
Qed.

(** [down] did not move: what is left is a hole for [up]. *)
Lemma hole_stay n g i :
  hole lt n g i ->
  (forall c, child i c -> (c < n)%nat -> lt (g c) (g i) = false) ->
  up_hole lt n g i.
Proof.
  intros [Hpairs Hgrand] Hch. split; [|assumption].
  intros p c Hc Hcn Hci.
  destruct (decide (p = i)) as [->|Hpi]; [apply Hch|apply Hpairs]; assumption.
Qed.

Lemma heap_ok_up_hole n g k : heap_ok lt n g -> up_hole lt n g k.
Proof.
  intros H. split.
  - intros; apply H; assumption.
  - intros p c Hp Hc Hcn. unfold good.
    apply lt_negtrans with (g k).
    + apply (H k c); assumption.
    + apply (H p k); [assumption|]. apply child_lt in Hc. lia.
Qed.

(** Changing the key at one slot of a heap leaves a hole there. *)
Lemma heap_ok_change n g g' k :
  heap_ok lt n g ->
  (forall m, (m < n)%nat -> m <> k -> g' m = g m) ->
  hole lt n g' k.
Proof.
  intros H Hg'. split.
  - intros p c Hc Hcn Hp Hck. unfold good.
    pose proof (child_lt _ _ Hc).
    rewrite !Hg' by (assumption || lia). apply H; assumption.
  - intros p c Hp Hc Hcn. unfold good.
    pose proof (child_lt _ _ Hp). pose proof (child_lt _ _ Hc).
    rewrite !Hg' by lia.
    apply (heap_ok_up_hole n g k H); assumption.
Qed.

Lemma heap_ok_le n m g : (m <= n)%nat -> heap_ok lt n g -> heap_ok lt m g.
Proof. intros Hle H p c Hc Hcm. apply H; [assumption|lia]. Qed.

Lemma heap_ok_ext n g g' :
  (forall m, (m < n)%nat -> g' m = g m) -> heap_ok lt n g -> heap_ok lt n g'.
Proof.
  intros He H p c Hc Hcn. unfold good.
  pose proof (child_lt _ _ Hc).
  rewrite !He by lia. apply H; assumption.
Qed.

(** The root of a heap is outranked by no slot. *)
Lemma heap_ok_root n g k : heap_ok lt n g -> (k < n)%nat -> lt (g k) (g 0%nat) = false.
Proof.
  intros H. induction k as [k IH] using lt_wf_ind. intros Hk.
  destruct (decide (k = 0%nat)) as [->|Hk0]; [apply lt_irrefl|].
  pose proof (child_parent k Hk0) as Hc.
  pose proof (child_lt _ _ Hc) as Hlt.
  apply lt_negtrans with (g (parent k)).
  - apply (H (parent k) k); assumption.
  - apply IH; lia.
Qed.

End HeapOrder.

(** ** Position tracking and the slots of the queue *)

Lemma pos_lookup s k :
  positions_ok s -> (k < length (items (queue s)))%nat ->
  exists p it, items (queue s) !! k = Some p /\ store s !! p = Some it /\
               Index it = Z.of_nat k.
Proof.
  intros Hpos Hk.
  destruct (lookup_lt_is_Some_2 _ _ Hk) as [p Hp].
  destruct (Hpos _ _ Hp) as (it & Hit & Hidx). eauto.
Qed.

Lemma pos_NoDup s : positions_ok s -> NoDup (items (queue s)).
Proof.
  intros Hpos. apply NoDup_alt. intros i j p Hi Hj.
  destruct (Hpos _ _ Hi) as (it & Hit & Hidx).
  destruct (Hpos _ _ Hj) as (it' & Hit' & Hidx').
  assert (it = it') by congruence. subst it'. lia.
Qed.

Lemma elem_ptr s k p : items (queue s) !! k = Some p -> elem s k = store s !! p.
Proof. unfold elem. intros ->. reflexivity. Qed.

Lemma kat_ptr s k p it :
  items (queue s) !! k = Some p -> store s !! p = Some it -> kat s k = key_of it.
Proof. intros Hk Hp. unfold kat. rewrite (elem_ptr _ _ _ Hk), Hp. reflexivity. Qed.

Lemma keys_length s : length (keys s) = length (items (queue s)).
Proof. unfold keys. apply length_map. Qed.

Lemma keys_lookup s k :
  (k < length (items (queue s)))%nat -> keys s !! k = Some (kat s k).
Proof.
  intros Hk. destruct (lookup_lt_is_Some_2 _ _ Hk) as [p Hp].
  unfold keys. rewrite list_lookup_fmap, Hp. simpl.
  unfold kat. rewrite (elem_ptr _ _ _ Hp). reflexivity.
Qed.

Lemma Less_ok s (i j : nat) :
  positions_ok s ->
  (i < length (items (queue s)))%nat -> (j < length (items (queue s)))%nat ->
  Less (Z.of_nat i) (Z.of_nat j) s = Some (lt_of s (kat s i) (kat s j), s).
Proof.
  intros Hpos Hi Hj.
  destruct (pos_lookup s i Hpos Hi) as (p & a & Hp & Ha & _).
  destruct (pos_lookup s j Hpos Hj) as (q & b & Hq & Hb & _).
  unfold Less.
  rewrite (bind_Some _ _ _ _ _ (item_at_ok _ _ _ Hp)).
  rewrite (bind_Some _ _ _ _ _ (load_ok _ _ _ Ha)).
  rewrite (bind_Some _ _ _ _ _ (item_at_ok _ _ _ Hq)).
  rewrite (bind_Some _ _ _ _ _ (load_ok _ _ _ Hb)).
  rewrite (kat_ptr _ _ _ _ Hp Ha), (kat_ptr _ _ _ _ Hq Hb).
  reflexivity.
Qed.

(** ** Rearrangements *)

Lemma rearr_refl n s : positions_ok s -> rearr n s s.
Proof.
  intros Hpos. constructor; auto.
  intros p it Hp. exists it. auto.
Qed.

Lemma rearr_length n s s' :
  rearr n s s' -> length (items (queue s')) = length (items (queue s)).
Proof. intros H. apply Permutation_length, H. Qed.

Lemma rearr_trans n m s1 s2 s3 :
  rearr n s1 s2 -> rearr m s2 s3 -> rearr (Nat.max n m) s1 s3.
Proof.
  intros H12 H23. constructor.
  - apply H23.
  - rewrite (rearr_cmp _ _ _ H23). apply H12.
  - rewrite (rearr_max _ _ _ H23). apply H12.
  - rewrite (rearr_store_len _ _ _ H23). apply H12.
  - etransitivity; [apply H23|apply H12].
  - intros k Hk. rewrite (rearr_tail _ _ _ H23) by lia. apply H12. lia.
  - intros p it Hp.
    destruct (rearr_key _ _ _ H12 _ _ Hp) as (it2 & H2 & Hv & Hpr).
    destruct (rearr_key _ _ _ H23 _ _ H2) as (it3 & H3 & Hv' & Hpr').
    exists it3. repeat split; congruence.
  - intros p Hp.
    rewrite (rearr_frame _ _ _ H23).
    + apply H12, Hp.
    + intros Hin. apply Hp. rewrite <- (rearr_perm _ _ _ H12). exact Hin.
Qed.

Lemma rearr_mono n m s s' : (n <= m)%nat -> rearr n s s' -> rearr m s s'.
Proof.
  intros Hle H. destruct H. constructor; auto.
  intros k Hk. apply rearr_tail0. lia.
Qed.

Lemma rearr_lt_of n s s' : rearr n s s' -> lt_of s' = lt_of s.
Proof.
  intros H. unfold lt_of. rewrite (rearr_cmp _ _ _ H), (rearr_max _ _ _ H).
  reflexivity.
Qed.

Lemma rearr_keys n s s' : rearr n s s' -> Permutation (keys s') (keys s).
Proof.
  intros H. unfold keys.
  rewrite (Permutation_map _ (rearr_perm _ _ _ H)).
  erewrite map_ext_in; [reflexivity|].
  intros p Hin. simpl.
  destruct (store s !! p) as [it|] eqn:E.
  - destruct (rearr_key _ _ _ H _ _ E) as (it' & -> & Hv & Hp).
    simpl. unfold key_of. congruence.
  - apply lookup_ge_None in E.
    assert (store s' !! p = None) as ->; [|reflexivity].
    apply lookup_ge_None. rewrite (rearr_store_len _ _ _ H). exact E.
Qed.

(** The slots of [s'] are those of [s] read through [f]. *)
Lemma kat_reindex n s s' (f : nat -> nat) k :
  rearr n s s' ->
  items (queue s') !! k = items (queue s) !! f k ->
  kat s' k = kat s (f k).
Proof.
  intros H Hk. unfold kat, elem. rewrite Hk.
  destruct (items (queue s) !! f k) as [p|]; [|reflexivity].
  destruct (store s !! p) as [it|] eqn:E.
  - destruct (rearr_key _ _ _ H _ _ E) as (it' & -> & Hv & Hp).
    simpl. unfold key_of. congruence.
  - apply lookup_ge_None in E.
    assert (store s' !! p = None) as ->; [|reflexivity].
    apply lookup_ge_None. rewrite (rearr_store_len _ _ _ H). exact E.
Qed.

(** ** [Swap] *)

Lemma swap_lookup (l : list nat) i j p q m :
  l !! i = Some p -> l !! j = Some q ->
  <[j := p]> (<[i := q]> l) !! m = l !! transp i j m.
Proof.
  intros Hi Hj.
  pose proof (lookup_lt_Some _ _ _ Hi). pose proof (lookup_lt_Some _ _ _ Hj).
  unfold transp.
  destruct (decide (m = j)) as [->|Hmj].
  - rewrite list_lookup_insert_eq by (rewrite length_insert; lia).
    repeat case_decide; congruence.
  - rewrite list_lookup_insert_ne by congruence.
    destruct (decide (m = i)) as [->|Hmi].
    + rewrite list_lookup_insert_eq by lia. congruence.
    + rewrite list_lookup_insert_ne by congruence. reflexivity.
Qed.

Lemma transp_invol i j m : transp i j (transp i j m) = m.
Proof. unfold transp. repeat case_decide; congruence. Qed.

Lemma Swap_ok s (i j : nat) :
  positions_ok s ->
  (i < length (items (queue s)))%nat -> (j < length (items (queue s)))%nat ->
  exists s1, Swap (Z.of_nat i) (Z.of_nat j) s = Some (tt, s1) /\
             rearr (S (Nat.max i j)) s s1 /\
             (forall m, kat s1 m = kat s (transp i j m)).
Proof.
  intros Hpos Hi Hj.
  destruct (pos_lookup s i Hpos Hi) as (p & a & Hp & Ha & Hia).
  destruct (pos_lookup s j Hpos Hj) as (q & b & Hq & Hb & Hib).
  pose proof (pos_NoDup s Hpos) as Hnd.
  pose proof (proj1 (NoDup_alt _) Hnd) as Hinj.
  exists (swapped_state s i j p q a b).
  split; [apply Swap_eq; assumption|].
  pose proof (lookup_lt_Some _ _ _ Ha) as Lp.
  pose proof (lookup_lt_Some _ _ _ Hb) as Lq.
  assert (Hitems : forall m, items (queue (swapped_state s i j p q a b)) !! m
                             = items (queue s) !! transp i j m).
  { intros m. simpl. apply swap_lookup; assumption. }
  assert (Hstore : forall r it, store s !! r = Some it ->
            exists it', store (swapped_state s i j p q a b) !! r = Some it' /\
                        Value it' = Value it /\ Priority it' = Priority it /\
                        (r <> p -> r <> q -> it' = it) /\
                        (r = p -> Index it' = Z.of_nat j) /\
                        (r = q -> r <> p -> Index it' = Z.of_nat i)).
  { intros r it Hr. simpl.
    destruct (decide (r = p)) as [->|Hrp].
    - rewrite list_lookup_insert_eq by (rewrite length_insert; exact Lp).
      eexists; split; [reflexivity|]. simpl.
      assert (it = a) by congruence. subst it. repeat split; congruence.
    - rewrite list_lookup_insert_ne by congruence.
      destruct (decide (r = q)) as [->|Hrq].
      + rewrite list_lookup_insert_eq by exact Lq.
        eexists; split; [reflexivity|]. simpl.
        assert (it = b) by congruence. subst it. repeat split; congruence.
      + rewrite list_lookup_insert_ne by congruence.
        exists it. repeat split; congruence. }
  assert (Hpos1 : positions_ok (swapped_state s i j p q a b)).
  { intros m r Hm. rewrite Hitems in Hm.
    destruct (Hpos _ _ Hm) as (it & Hit & Hidx).
    destruct (Hstore _ _ Hit) as (it' & Hit' & _ & _ & Hother & Hatp & Hatq).
    exists it'. split; [exact Hit'|].
    unfold transp in Hm, Hidx.
    destruct (decide (m = i)) as [->|Hmi].
    - (* slot i now holds q *)
      assert (r = q) by congruence. subst r.
      destruct (decide (q = p)) as [->|Hqp].
      + assert (i = j) by (eapply Hinj; eauto). subst j. apply Hatp. reflexivity.
      + apply Hatq; auto.
    - destruct (decide (m = j)) as [->|Hmj].
      + assert (r = p) by congruence. subst r. apply Hatp. reflexivity.
      + assert (r <> p) by (intros ->; apply Hmi; eapply Hinj; eauto).
        assert (r <> q) by (intros ->; apply Hmj; eapply Hinj; eauto).
        rewrite Hother by assumption. exact Hidx. }
  assert (Hre : rearr (S (Nat.max i j)) s (swapped_state s i j p q a b)).
  { constructor.
    - exact Hpos1.
    - reflexivity.
    - reflexivity.
    - simpl. rewrite !length_insert. reflexivity.
    - apply NoDup_Permutation.
      + apply pos_NoDup, Hpos1.
      + exact Hnd.
      + intros x. rewrite !list_elem_of_lookup. split; intros [m Hm].
        * exists (transp i j m). rewrite <- Hitems. exact Hm.
        * exists (transp i j m). rewrite Hitems, transp_invol. exact Hm.
    - intros k Hk. rewrite Hitems, transp_other by lia. reflexivity.
    - intros r it Hr.
      destruct (Hstore _ _ Hr) as (it' & Hit' & Hv & Hpr & _). eauto.
    - intros r Hr. simpl.
      assert (r <> p) by (intros ->; apply Hr; eapply list_elem_of_lookup_2; eauto).
      assert (r <> q) by (intros ->; apply Hr; eapply list_elem_of_lookup_2; eauto).
      rewrite !list_lookup_insert_ne by congruence. reflexivity. }
  split; [exact Hre|].
  intros m. eapply kat_reindex; [exact Hre|]. apply Hitems.
Qed.

(** ** The loops of [container/heap] *)

Lemma up_loop_S fuel j :
  up_loop (S fuel) j =
  (let i := (j - 1) ÷ 2 in
   if i =? j then ret tt
   else let* lt := Less j i in
        if negb lt then ret tt else Swap i j >> up_loop fuel i).
Proof. reflexivity. Qed.

Lemma parent_lt j : j <> 0%nat -> (parent j < j)%nat.
Proof. intros H. apply child_lt, child_parent, H. Qed.

(** [up] returns, rearranges the slots up to [j], and closes a hole that
    is open upwards. *)
Lemma up_loop_ok fuel : forall s (j n : nat),
  positions_ok s ->
  (j < n)%nat -> (n <= length (items (queue s)))%nat -> (j < fuel)%nat ->
  exists s', up_loop fuel (Z.of_nat j) s = Some (tt, s') /\
             rearr (S j) s s' /\
             (strict_weak (lt_of s) -> up_hole (lt_of s) n (kat s) j ->
              heap_ok (lt_of s) n (kat s')).
Proof.
  induction fuel as [|fuel IH]; intros s j n Hpos Hjn Hn Hf; [lia|].
  rewrite up_loop_S, parent_quot. cbv zeta.
  destruct (Z.eqb_spec (Z.of_nat (parent j)) (Z.of_nat j)) as [Heq|Hne].
  - assert (j = 0%nat).
    { destruct (decide (j = 0%nat)) as [|Hj0]; [assumption|].
      pose proof (parent_lt j Hj0). lia. }
    subst j. exists s. split; [reflexivity|]. split; [apply rearr_refl, Hpos|].
    intros SW Hh. eapply up_hole_done; eauto.
  - assert (Hj0 : j <> 0%nat) by (intros ->; apply Hne; reflexivity).
    pose proof (parent_lt j Hj0) as Hplt.
    rewrite (bind_Some _ _ _ _ _ (Less_ok s j (parent j) Hpos ltac:(lia) ltac:(lia))).
    destruct (lt_of s (kat s j) (kat s (parent j))) eqn:Hlt; simpl.
    + destruct (Swap_ok s (parent j) j Hpos ltac:(lia) ltac:(lia))
        as (s1 & Hsw & Hre1 & Hk1).
      rewrite (bind_Some _ _ _ _ _ Hsw).
      pose proof (rearr_length _ _ _ Hre1) as Hlen1.
      destruct (IH s1 (parent j) n (rearr_pos _ _ _ Hre1) ltac:(lia) ltac:(lia) ltac:(lia))
        as (s' & Hup & Hre2 & Hheap).
      exists s'. split; [exact Hup|]. split.
      * eapply rearr_mono; [|eapply rearr_trans; eauto]. lia.
      * intros SW Hh. rewrite (rearr_lt_of _ _ _ Hre1) in Hheap.
        apply Hheap; [exact SW|].
        eapply up_hole_swap; eauto using child_parent.
    + exists s. split; [reflexivity|]. split; [apply rearr_refl, Hpos|].
      intros SW Hh. eapply up_hole_done; eauto.
Qed.

Lemma up_ok s (j n : nat) :
  positions_ok s ->
  (j < n)%nat -> (n <= length (items (queue s)))%nat ->
  exists s', up (Z.of_nat j) s = Some (tt, s') /\
             rearr (S j) s s' /\
             (strict_weak (lt_of s) -> up_hole (lt_of s) n (kat s) j ->
              heap_ok (lt_of s) n (kat s')).
Proof.
  intros. unfold up. apply up_loop_ok; try assumption.
  rewrite Nat2Z.id. lia.
Qed.

Lemma down_loop_S fuel i n :
  down_loop (S fuel) i n =
  (let j1 := 2 * i + 1 in
   if (j1 >=? n) || (j1 <? 0) then ret i
   else
     let j2 := j1 + 1 in
     let* j := (if j2 <? n
                then let* b := Less j2 j1 in ret (if b then j2 else j1)
                else ret j1) in
     let* lt := Less j i in
     if negb lt then ret i
     else Swap i j >> down_loop fuel j n).
Proof. reflexivity. Qed.

(** The child [down] compares the hole with: the one that is not
    outranked by its sibling. *)
Lemma pick_child s (i n : nat) :
  positions_ok s ->
  (2 * i + 1 < n)%nat -> (n <= length (items (queue s)))%nat ->
  exists j : nat,
    (if Z.of_nat (2 * i + 2) <? Z.of_nat n
     then let* b := Less (Z.of_nat (2 * i + 2)) (Z.of_nat (2 * i + 1)) in
          ret (if b then Z.of_nat (2 * i + 2) else Z.of_nat (2 * i + 1))
     else ret (Z.of_nat (2 * i + 1))) s = Some (Z.of_nat j, s) /\
    child i j /\ (j < n)%nat /\
    (strict_weak (lt_of s) ->
     forall c, child i c -> (c < n)%nat -> lt_of s (kat s c) (kat s j) = false).
Proof.
  intros Hpos Hj1 Hn.
  destruct (Z.ltb_spec (Z.of_nat (2 * i + 2)) (Z.of_nat n)) as [Hj2|Hj2].
  - rewrite (bind_Some _ _ _ _ _
               (Less_ok s (2 * i + 2) (2 * i + 1) Hpos ltac:(lia) ltac:(lia))).
    destruct (lt_of s (kat s (2 * i + 2)%nat) (kat s (2 * i + 1)%nat)) eqn:Hb.
    + exists (2 * i + 2)%nat. split; [reflexivity|].
      split; [right; reflexivity|]. split; [lia|].
      intros SW c [->| ->] Hc.
      * eapply lt_asym; eauto.
      * eapply lt_irrefl; eauto.
    + exists (2 * i + 1)%nat. split; [reflexivity|].
      split; [left; reflexivity|]. split; [lia|].
      intros SW c [->| ->] Hc.
      * eapply lt_irrefl; eauto.
      * exact Hb.
  - exists (2 * i + 1)%nat. split; [reflexivity|].
    split; [left; reflexivity|]. split; [lia|].
    intros SW c [->| ->] Hc.
    + eapply lt_irrefl; eauto.
    + lia.
Qed.

(** [down] returns, rearranges the first [n] slots, reports the slot it
    stopped at, and closes a hole that is open downwards. *)
Lemma down_loop_ok fuel : forall s (i n : nat),
  positions_ok s ->
  (n <= length (items (queue s)))%nat -> (n - i < fuel)%nat ->
  exists s' (i' : nat),
    down_loop fuel (Z.of_nat i) (Z.of_nat n) s = Some (Z.of_nat i', s') /\
    (i <= i')%nat /\ (i' = i -> s' = s) /\
    rearr n s s' /\
    (strict_weak (lt_of s) ->
     (down_hole (lt_of s) n (kat s) i -> heap_ok (lt_of s) n (kat s')) /\
     (hole (lt_of s) n (kat s) i ->
      if decide (i' = i) then up_hole (lt_of s) n (kat s) i
      else heap_ok (lt_of s) n (kat s'))).
Proof.
  induction fuel as [|fuel IH]; intros s i n Hpos Hn Hf; [lia|].
  rewrite down_loop_S. cbv zeta.
  replace (2 * Z.of_nat i + 1) with (Z.of_nat (2 * i + 1)) by lia.
  replace (Z.of_nat (2 * i + 1) + 1) with (Z.of_nat (2 * i + 2)) by lia.
  destruct (Z.ltb_spec (Z.of_nat (2 * i + 1)) 0) as [Hneg|_]; [lia|].
  rewrite orb_false_r.
  destruct (Z.geb_spec (Z.of_nat (2 * i + 1)) (Z.of_nat n)) as [Hge|Hlt1].
  - (* no child *)
    exists s, i. split; [reflexivity|]. split; [lia|]. split; [reflexivity|].
    split; [apply rearr_refl, Hpos|].
    intros SW. split.
    + intros Hh. eapply down_hole_done; eauto.
      intros c [->| ->] Hc; lia.
    + intros Hh. rewrite decide_True by reflexivity.
      eapply hole_stay; eauto. intros c [->| ->] Hc; lia.
  - destruct (pick_child s i n Hpos ltac:(lia) Hn) as (j & Hpick & Hchild & Hjn & Hbest).
    rewrite (bind_Some _ _ _ _ _ Hpick).
    pose proof (child_lt _ _ Hchild) as Hij.
    rewrite (bind_Some _ _ _ _ _ (Less_ok s j i Hpos ltac:(lia) ltac:(lia))).
    destruct (lt_of s (kat s j) (kat s i)) eqn:Hlt; simpl.
    + destruct (Swap_ok s i j Hpos ltac:(lia) ltac:(lia)) as (s1 & Hsw & Hre1 & Hk1).
      rewrite (bind_Some _ _ _ _ _ Hsw).
      pose proof (rearr_length _ _ _ Hre1) as Hlen1.
      destruct (IH s1 j n (rearr_pos _ _ _ Hre1) ltac:(lia) ltac:(lia))
        as (s' & i' & Hdown & Hle & _ & Hre2 & Hheap).
      exists s', i'. split; [exact Hdown|]. split; [lia|].
      split; [intros ->; lia|].
      split.
      * eapply rearr_mono; [|eapply rearr_trans; eauto]. lia.
      * intros SW. rewrite (rearr_lt_of _ _ _ Hre1) in Hheap.
        destruct (Hheap SW) as [Hheap1 _].
        assert (Hstep : hole (lt_of s) n (kat s) i ->
                        heap_ok (lt_of s) n (kat s')).
        { intros Hh. apply Hheap1. eapply hole_down_swap; eauto. }
        split.
        -- intros Hh. apply Hstep, down_hole_hole, Hh.
        -- intros Hh. rewrite decide_False by lia. apply Hstep, Hh.
    + exists s, i. split; [reflexivity|]. split; [lia|]. split; [reflexivity|].
      split; [apply rearr_refl, Hpos|].
      intros SW.
      assert (Hch : forall c, child i c -> (c < n)%nat ->
                              lt_of s (kat s c) (kat s i) = false).
      { intros c Hc Hcn. eapply lt_negtrans; eauto. }
      split.
      * intros Hh. eapply down_hole_done; eauto.
      * intros Hh. rewrite decide_True by reflexivity.
        eapply hole_stay; eauto.
Qed.

Lemma down_ok s (i n : nat) :
  positions_ok s -> (n <= length (items (queue s)))%nat ->
  exists s' (moved : bool),
    down (Z.of_nat i) (Z.of_nat n) s = Some (moved, s') /\
    (moved = false -> s' = s) /\
    rearr n s s' /\
    (strict_weak (lt_of s) ->
     (down_hole (lt_of s) n (kat s) i -> heap_ok (lt_of s) n (kat s')) /\
     (hole (lt_of s) n (kat s) i ->
      if moved then heap_ok (lt_of s) n (kat s')
      else up_hole (lt_of s) n (kat s) i)).
Proof.
  intros Hpos Hn. unfold down.
  destruct (down_loop_ok (S (Z.to_nat (Z.of_nat n))) s i n Hpos Hn
              ltac:(rewrite Nat2Z.id; lia))
    as (s' & i' & Hdown & Hle & Hsame & Hre & Hheap).
  rewrite (bind_Some _ _ _ _ _ Hdown). unfold ret.
  exists s', (Z.of_nat i' >? Z.of_nat i). split; [reflexivity|].
  split.
  { intros Hm. apply Hsame.
    destruct (Z.gtb_spec (Z.of_nat i') (Z.of_nat i)); [discriminate|lia]. }
  split; [exact Hre|].
  intros SW. destruct (Hheap SW) as [H1 H2]. split; [exact H1|].
  intros Hh. specialize (H2 Hh).
  destruct (Z.gtb_spec (Z.of_nat i') (Z.of_nat i)).
  - rewrite decide_False in H2 by lia. exact H2.
  - rewrite decide_True in H2 by lia. exact H2.
Qed.

(** ** [Push] and [Pop] *)

Lemma Push_eq s x it :
  store s !! x = Some it -> Push x s = Some (tt, pushed_state s x it).
Proof.
  intros Hx. unfold Push.
  rewrite (bind_Some _ _ _ _ _ (len_eq s)).
  rewrite (bind_Some _ _ _ _ _ (set_Index_ok _ _ _ _ Hx)).
  reflexivity.
Qed.

Lemma pos_ptr_lt s p :
  positions_ok s -> p ∈ items (queue s) -> (p < length (store s))%nat.
Proof.
  intros Hpos Hin. apply list_elem_of_lookup in Hin as [i Hi].
  destruct (Hpos _ _ Hi) as (it & Hit & _).
  eapply lookup_lt_Some; eauto.
Qed.

Lemma pushed_inserted s x it :
  positions_ok s -> x ∉ items (queue s) -> store s !! x = Some it ->
  inserted s x (pushed_state s x it).
Proof.
  intros Hpos Hx Hit.
  pose proof (lookup_lt_Some _ _ _ Hit) as Lx.
  constructor; simpl.
  - intros i p Hi. simpl in Hi.
    destruct (decide (i < length (items (queue s)))%nat) as [Hlt|Hge].
    + rewrite lookup_app_l in Hi by assumption.
      destruct (Hpos _ _ Hi) as (a & Ha & Hidx).
      exists a. split; [|assumption]. simpl.
      rewrite list_lookup_insert_ne; [assumption|].
      intros ->. apply Hx. eapply list_elem_of_lookup_2; eauto.
    + rewrite lookup_app_r in Hi by lia.
      destruct (i - length (items (queue s)))%nat eqn:E; [|destruct n; discriminate].
      simpl in Hi. assert (p = x) by congruence. subst p.
      eexists. split; [simpl; apply list_lookup_insert_eq; exact Lx|].
      simpl. f_equal. lia.
  - reflexivity.
  - reflexivity.
  - apply length_insert.
  - rewrite Permutation_app_comm. reflexivity.
  - intros p a Ha. destruct (decide (p = x)) as [->|Hne].
    + rewrite list_lookup_insert_eq by exact Lx.
      eexists. split; [reflexivity|]. simpl.
      assert (a = it) by congruence. subst a. auto.
    + rewrite list_lookup_insert_ne by congruence. eauto.
  - intros p _ Hne. rewrite list_lookup_insert_ne by congruence. reflexivity.
Qed.

Lemma pushed_kat_old s x it k :
  x ∉ items (queue s) -> (k < length (items (queue s)))%nat ->
  kat (pushed_state s x it) k = kat s k.
Proof.
  intros Hx Hk. unfold kat, elem. simpl.
  rewrite lookup_app_l by assumption.
  destruct (items (queue s) !! k) as [p|] eqn:E; [|reflexivity].
  rewrite list_lookup_insert_ne; [reflexivity|].
  intros ->. apply Hx. eapply list_elem_of_lookup_2; eauto.
Qed.

Lemma Pop_eq s x it :
  items (queue s) !! (length (items (queue s)) - 1)%nat = Some x ->
  store s !! x = Some it ->
  Pop s = Some (x, popped_state s x it).
Proof.
  intros Hx Hit. unfold Pop.
  pose proof (lookup_lt_Some _ _ _ Hx) as Hlen.
  rewrite (bind_Some _ _ _ _ _ (len_eq s)).
  replace (Z.of_nat (length (items (queue s))) - 1)
    with (Z.of_nat (length (items (queue s)) - 1)) by lia.
  rewrite (bind_Some _ _ _ _ _ (item_at_ok _ _ _ Hx)).
  rewrite (bind_Some _ _ _ _ _ (set_Index_ok _ _ _ _ Hit)).
  unfold bind, set_items, ret. simpl. rewrite Nat2Z.id. reflexivity.
Qed.

Lemma take_last_perm (l : list nat) x :
  l !! (length l - 1)%nat = Some x ->
  l = take (length l - 1) l ++ [x].
Proof.
  intros Hx. pose proof (lookup_lt_Some _ _ _ Hx) as Hlen.
  rewrite <- (take_drop (length l - 1) l) at 1. f_equal.
  rewrite (drop_S _ _ _ Hx).
  replace (S (length l - 1)) with (length l) by lia.
  rewrite drop_all. reflexivity.
Qed.

(** Taking the last pointer out of a rearranged slice. *)
Lemma popped_removed n s s2 x it :
  positions_ok s -> rearr n s s2 ->
  items (queue s2) !! (length (items (queue s2)) - 1)%nat = Some x ->
  store s2 !! x = Some it ->
  removed s x (popped_state s2 x it).
Proof.
  intros Hpos Hre Hx Hit.
  pose proof (lookup_lt_Some _ _ _ Hit) as Lx.
  pose proof (lookup_lt_Some _ _ _ Hx) as Hlen.
  pose proof (rearr_pos _ _ _ Hre) as Hpos2.
  pose proof (proj1 (NoDup_alt _) (pos_NoDup _ Hpos2)) as Hinj.
  constructor; simpl.
  - intros i p Hi. simpl in Hi.
    apply lookup_take_Some in Hi as [Hi Hlt].
    destruct (Hpos2 _ _ Hi) as (a & Ha & Hidx).
    exists a. split; [|assumption]. simpl.
    rewrite list_lookup_insert_ne; [assumption|].
    intros ->. assert (i = length (items (queue s2)) - 1)%nat by (eapply Hinj; eauto).
    lia.
  - apply Hre.
  - apply Hre.
  - rewrite length_insert. apply Hre.
  - rewrite <- (rearr_perm _ _ _ Hre).
    rewrite (take_last_perm _ _ Hx) at 1.
    rewrite Permutation_app_comm. reflexivity.
  - eexists. split; [apply list_lookup_insert_eq; exact Lx|]. reflexivity.
  - intros p a Ha.
    destruct (rearr_key _ _ _ Hre _ _ Ha) as (a2 & Ha2 & Hv & Hp).
    destruct (decide (p = x)) as [->|Hne].
    + rewrite list_lookup_insert_eq by exact Lx.
      eexists. split; [reflexivity|]. simpl.
      assert (a2 = it) by congruence. subst a2. auto.
    + rewrite list_lookup_insert_ne by congruence. eauto.
  - intros p Hp.
    assert (p <> x).
    { intros ->. apply Hp. rewrite <- (rearr_perm _ _ _ Hre).
      eapply list_elem_of_lookup_2; eauto. }
    rewrite list_lookup_insert_ne by congruence.
    apply Hre, Hp.
Qed.

Lemma popped_kat s x it k :
  positions_ok s ->
  items (queue s) !! (length (items (queue s)) - 1)%nat = Some x ->
  (k < length (items (queue s)) - 1)%nat ->
  kat (popped_state s x it) k = kat s k.
Proof.
  intros Hpos Hx Hk. unfold kat, elem. simpl.
  pose proof (proj1 (NoDup_alt _) (pos_NoDup _ Hpos)) as Hinj.
  rewrite lookup_take_lt by assumption.
  destruct (items (queue s) !! k) as [p|] eqn:E; [|reflexivity].
  rewrite list_lookup_insert_ne; [reflexivity|].
  intros ->. assert (k = length (items (queue s)) - 1)%nat by (eapply Hinj; eauto).
  lia.
Qed.

(** ** [heap.Init], [heap.Push], [heap.Pop], [heap.Fix], [heap.Remove] *)

Lemma heap_Init_empty s : items (queue s) = [] -> heap_Init s = Some (tt, s).
Proof.
  intros H. unfold heap_Init, Len.
  rewrite (bind_Some _ _ _ _ _ (len_eq s)). rewrite H. reflexivity.
Qed.

Lemma inserted_rearr n s x s1 s' :
  inserted s x s1 -> rearr n s1 s' -> inserted s x s'.
Proof.
  intros Hi Hr. constructor.
  - apply Hr.
  - rewrite (rearr_cmp _ _ _ Hr). apply Hi.
  - rewrite (rearr_max _ _ _ Hr). apply Hi.
  - rewrite (rearr_store_len _ _ _ Hr). apply Hi.
  - rewrite (rearr_perm _ _ _ Hr). apply Hi.
  - intros p it Hp.
    destruct (ins_key _ _ _ Hi _ _ Hp) as (it1 & H1 & Hv & Hpr).
    destruct (rearr_key _ _ _ Hr _ _ H1) as (it2 & H2 & Hv' & Hpr').
    exists it2. repeat split; congruence.
  - intros p Hp Hne. rewrite (rearr_frame _ _ _ Hr).
    + apply Hi; assumption.
    + rewrite (ins_perm _ _ _ Hi). intros Hin.
      apply elem_of_cons in Hin as [?|?]; contradiction.
Qed.

Lemma heap_Push_ok s x it :
  positions_ok s -> x ∉ items (queue s) -> store s !! x = Some it ->
  exists s', heap_Push x s = Some (tt, s') /\
             inserted s x s' /\
             (strict_weak (lt_of s) ->
              heap_ok (lt_of s) (length (items (queue s))) (kat s) ->
              heap_ok (lt_of s) (S (length (items (queue s)))) (kat s')).
Proof.
  intros Hpos Hx Hit. unfold heap_Push, Len.
  rewrite (bind_Some _ _ _ _ _ (Push_eq _ _ _ Hit)).
  set (s1 := pushed_state s x it).
  pose proof (pushed_inserted s x it Hpos Hx Hit) as Hins. fold s1 in Hins.
  assert (Hlen1 : length (items (queue s1)) = S (length (items (queue s)))).
  { unfold s1. simpl. rewrite length_app. simpl. lia. }
  rewrite (bind_Some _ _ _ _ _ (len_eq s1)). rewrite Hlen1.
  replace (Z.of_nat (S (length (items (queue s)))) - 1)
    with (Z.of_nat (length (items (queue s)))) by lia.
  destruct (up_ok s1 (length (items (queue s))) (S (length (items (queue s))))
              (ins_pos _ _ _ Hins) ltac:(lia) ltac:(lia))
    as (s' & Hup & Hre & Hheap).
  exists s'. split; [exact Hup|]. split; [eapply inserted_rearr; eauto|].
  intros SW Hh. apply Hheap; [exact SW|].
  split.
  - intros p c Hc Hcn Hck. unfold good.
    pose proof (child_lt _ _ Hc).
    unfold s1. rewrite !pushed_kat_old by (assumption || lia).
    apply Hh; [assumption|lia].
  - intros p c _ Hc Hcn. apply child_lt in Hc. lia.
Qed.

(** After [Swap 0 n] the first [n] slots of a heap have a hole at the
    root, open downwards. *)
Lemma root_hole lt n (g g' : nat -> T * Z) :
  heap_ok lt (S n) g ->
  (forall m, g' m = g (transp 0 n m)) ->
  down_hole lt n g' 0.
Proof.
  intros H Hg'. split.
  - intros p c Hc Hcn Hp. unfold good.
    pose proof (child_lt _ _ Hc).
    rewrite !Hg', !transp_other by lia.
    apply H; [assumption|lia].
  - intros p c Hp. apply child_lt in Hp. lia.
Qed.

Lemma Swap_items s (i j : nat) s1 :
  positions_ok s ->
  (i < length (items (queue s)))%nat -> (j < length (items (queue s)))%nat ->
  Swap (Z.of_nat i) (Z.of_nat j) s = Some (tt, s1) ->
  forall m, items (queue s1) !! m = items (queue s) !! transp i j m.
Proof.
  intros Hpos Hi Hj Hsw m.
  destruct (pos_lookup s i Hpos Hi) as (p & a & Hp & Ha & _).
  destruct (pos_lookup s j Hpos Hj) as (q & b & Hq & Hb & _).
  rewrite (Swap_eq s i j p q a b Hp Hq Ha Hb) in Hsw.
  inversion Hsw; subst s1. simpl. apply swap_lookup; assumption.
Qed.

Lemma heap_Pop_ok s :
  positions_ok s -> (0 < length (items (queue s)))%nat ->
  exists x s', heap_Pop s = Some (x, s') /\
               items (queue s) !! 0%nat = Some x /\
               removed s x s' /\
               (strict_weak (lt_of s) ->
                heap_ok (lt_of s) (length (items (queue s))) (kat s) ->
                heap_ok (lt_of s) (length (items (queue s)) - 1) (kat s')).
Proof.
  intros Hpos Hlen. unfold heap_Pop, Len.
  rewrite (bind_Some _ _ _ _ _ (len_eq s)). cbv zeta.
  set (n := (length (items (queue s)) - 1)%nat).
  replace (Z.of_nat (length (items (queue s))) - 1) with (Z.of_nat n) by lia.
  destruct (pos_lookup s 0 Hpos Hlen) as (x & a & Hx & Ha & _).
  destruct (Swap_ok s 0 n Hpos ltac:(lia) ltac:(lia)) as (s1 & Hsw & Hre1 & Hk1).
  pose proof Hsw as Hsw0. change (Z.of_nat 0) with 0 in Hsw0.
  rewrite (bind_Some _ _ _ _ _ Hsw0).
  pose proof (rearr_length _ _ _ Hre1) as Hlen1.
  destruct (down_ok s1 0 n (rearr_pos _ _ _ Hre1) ltac:(lia))
    as (s2 & moved & Hdown & _ & Hre2 & Hheap).
  change (Z.of_nat 0) with 0 in Hdown.
  rewrite (bind_Some _ _ _ _ _ Hdown).
  pose proof (rearr_length _ _ _ Hre2) as Hlen2.
  assert (Hx1 : items (queue s1) !! n = Some x).
  { rewrite (Swap_items s 0 n s1 Hpos ltac:(lia) ltac:(lia) Hsw), transp_r.
    exact Hx. }
  assert (Hx2 : items (queue s2) !! (length (items (queue s2)) - 1)%nat = Some x).
  { replace (length (items (queue s2)) - 1)%nat with n by lia.
    rewrite (rearr_tail _ _ _ Hre2) by lia. exact Hx1. }
  destruct (rearr_pos _ _ _ Hre2 _ _ Hx2) as (b & Hb & _).
  rewrite (Pop_eq s2 x b Hx2 Hb).
  exists x, (popped_state s2 x b).
  split; [reflexivity|]. split; [exact Hx|].
  split.
  { eapply popped_removed; eauto. eapply rearr_trans; eauto. }
  intros SW Hh.
  rewrite (rearr_lt_of _ _ _ Hre1) in Hheap.
  destruct (Hheap SW) as [Hheap1 _].
  apply heap_ok_ext with (g := kat s2).
  { intros m Hm. apply popped_kat; [apply Hre2|exact Hx2|lia]. }
  apply Hheap1.
  eapply root_hole; [|exact Hk1].
  replace (S n) with (length (items (queue s))) by lia. exact Hh.
Qed.

Lemma heap_Fix_ok s (i : nat) :
  positions_ok s -> (i < length (items (queue s)))%nat ->
  exists s', heap_Fix (Z.of_nat i) s = Some (tt, s') /\
             rearr (length (items (queue s))) s s' /\
             (strict_weak (lt_of s) ->
              hole (lt_of s) (length (items (queue s))) (kat s) i ->
              heap_ok (lt_of s) (length (items (queue s))) (kat s')).
Proof.
  intros Hpos Hi. unfold heap_Fix, Len.
  rewrite (bind_Some _ _ _ _ _ (len_eq s)).
  destruct (down_ok s i (length (items (queue s))) Hpos ltac:(lia))
    as (s2 & moved & Hdown & Hsame & Hre2 & Hheap).
  rewrite (bind_Some _ _ _ _ _ Hdown).
  destruct moved; simpl.
  - exists s2. split; [reflexivity|]. split; [exact Hre2|].
    intros SW Hh. destruct (Hheap SW) as [_ H2]. apply H2, Hh.
  - rewrite (Hsame eq_refl).
    destruct (up_ok s i (length (items (queue s))) Hpos Hi ltac:(lia))
      as (s3 & Hup & Hre3 & Hheap3).
    exists s3. split; [exact Hup|].
    split; [eapply rearr_mono; [|exact Hre3]; lia|].
    intros SW Hh. destruct (Hheap SW) as [_ H2].
    apply Hheap3; [exact SW|]. apply H2, Hh.
Qed.

Lemma heap_Remove_ok s (i : nat) :
  positions_ok s -> (i < length (items (queue s)))%nat ->
  exists x s', heap_Remove (Z.of_nat i) s = Some (x, s') /\
               items (queue s) !! i = Some x /\
               removed s x s' /\
               (strict_weak (lt_of s) ->
                heap_ok (lt_of s) (length (items (queue s))) (kat s) ->
                heap_ok (lt_of s) (length (items (queue s)) - 1) (kat s')).
Proof.
  intros Hpos Hi. unfold heap_Remove, Len.
  rewrite (bind_Some _ _ _ _ _ (len_eq s)). cbv zeta.
  set (n := (length (items (queue s)) - 1)%nat).
  replace (Z.of_nat (length (items (queue s))) - 1) with (Z.of_nat n) by lia.
  destruct (pos_lookup s i Hpos Hi) as (x & a & Hx & Ha & _).
  assert (Hmid : exists sF,
    (if Z.of_nat n =? Z.of_nat i then ret tt
     else Swap (Z.of_nat i) (Z.of_nat n) >>
          let* moved := down (Z.of_nat i) (Z.of_nat n) in
          if negb moved then up (Z.of_nat i) else ret tt) s = Some (tt, sF) /\
    rearr (S n) s sF /\
    items (queue sF) !! n = Some x /\
    (strict_weak (lt_of s) ->
     heap_ok (lt_of s) (length (items (queue s))) (kat s) ->
     heap_ok (lt_of s) n (kat sF))).
  { destruct (Z.eqb_spec (Z.of_nat n) (Z.of_nat i)) as [Heq|Hne].
    - assert (n = i) by lia.
      exists s. split; [reflexivity|]. split; [apply rearr_refl, Hpos|].
      split; [congruence|].
      intros SW Hh. eapply heap_ok_le; [|exact Hh]. lia.
    - assert (Hin : (i < n)%nat) by lia.
      destruct (Swap_ok s i n Hpos ltac:(lia) ltac:(lia)) as (s1 & Hsw & Hre1 & Hk1).
      rewrite (bind_Some _ _ _ _ _ Hsw).
      pose proof (rearr_length _ _ _ Hre1) as Hlen1.
      assert (Hx1 : items (queue s1) !! n = Some x).
      { rewrite (Swap_items s i n s1 Hpos ltac:(lia) ltac:(lia) Hsw), transp_r.
        exact Hx. }
      assert (Hhole : strict_weak (lt_of s) ->
                heap_ok (lt_of s) (length (items (queue s))) (kat s) ->
                hole (lt_of s) n (kat s1) i).
      { intros SW Hh. apply heap_ok_change with (g := kat s); [exact SW| |].
        - eapply heap_ok_le; [|exact Hh]. lia.
        - intros m Hm Hmi. rewrite Hk1, transp_other by lia. reflexivity. }
      destruct (down_ok s1 i n (rearr_pos _ _ _ Hre1) ltac:(lia))
        as (s2 & moved & Hdown & Hsame & Hre2 & Hheap).
      rewrite (bind_Some _ _ _ _ _ Hdown).
      rewrite (rearr_lt_of _ _ _ Hre1) in Hheap.
      destruct moved; simpl.
      + exists s2. split; [reflexivity|].
        split; [eapply rearr_mono; [|eapply rearr_trans; eauto]; lia|].
        split; [rewrite (rearr_tail _ _ _ Hre2) by lia; exact Hx1|].
        intros SW Hh. destruct (Hheap SW) as [_ H2]. apply H2. auto.
      + rewrite (Hsame eq_refl).
        destruct (up_ok s1 i n (rearr_pos _ _ _ Hre1) Hin ltac:(lia))
          as (s3 & Hup & Hre3 & Hheap3).
        exists s3. split; [exact Hup|].
        split; [eapply rearr_mono; [|eapply rearr_trans; eauto]; lia|].
        split; [rewrite (rearr_tail _ _ _ Hre3) by lia; exact Hx1|].
        intros SW Hh. destruct (Hheap SW) as [_ H2].
        rewrite (rearr_lt_of _ _ _ Hre1) in Hheap3.
        apply Hheap3; [exact SW|]. apply H2. auto. }
  destruct Hmid as (sF & Hrun & HreF & HxF & HheapF).
  rewrite (bind_Some _ _ _ _ _ Hrun).
  pose proof (rearr_length _ _ _ HreF) as HlenF.
  assert (HxF' : items (queue sF) !! (length (items (queue sF)) - 1)%nat = Some x).
  { replace (length (items (queue sF)) - 1)%nat with n by lia. exact HxF. }
  destruct (rearr_pos _ _ _ HreF _ _ HxF') as (b & Hb & _).
  rewrite (Pop_eq sF x b HxF' Hb).
  exists x, (popped_state sF x b).
  split; [reflexivity|]. split; [exact Hx|].
  split; [eapply popped_removed; eauto|].
  intros SW Hh.
  apply heap_ok_ext with (g := kat sF).
  { intros m Hm. apply popped_kat; [apply HreF|exact HxF'|lia]. }
  apply HheapF; assumption.
Qed.

(** ** The exported operations *)

Lemma keys_transport (st st' : list Item) (l : list nat) :
  (forall p, p ∈ l -> exists it it', st !! p = Some it /\ st' !! p = Some it' /\
                      Value it' = Value it /\ Priority it' = Priority it) ->
  map (fun p => key_of (default dummy (st' !! p))) l =
  map (fun p => key_of (default dummy (st !! p))) l.
Proof.
  intros H. apply map_ext_in. intros p Hin.
  apply list_elem_of_In in Hin.
  destruct (H p Hin) as (it & it' & -> & -> & Hv & Hp).
  simpl. unfold key_of. congruence.
Qed.

Lemma pos_store s p :
  positions_ok s -> p ∈ items (queue s) -> exists it, store s !! p = Some it.
Proof.
  intros Hpos Hin. apply list_elem_of_lookup in Hin as [i Hi].
  destruct (Hpos _ _ Hi) as (it & Hit & _). eauto.
Qed.

Lemma inserted_keys s x it s' :
  positions_ok s -> inserted s x s' -> store s !! x = Some it ->
  Permutation (keys s') (key_of it :: keys s).
Proof.
  intros Hpos Hins Hx. unfold keys.
  rewrite (Permutation_map _ (ins_perm _ _ _ Hins)). simpl.
  destruct (ins_key _ _ _ Hins _ _ Hx) as (it' & -> & Hv & Hp). simpl.
  replace (key_of it') with (key_of it) by (unfold key_of; congruence).
  apply Permutation_cons; [reflexivity|].
  rewrite (keys_transport (store s) (store s')); [reflexivity|].
  intros p Hin. destruct (pos_store s p Hpos Hin) as (a & Ha).
  destruct (ins_key _ _ _ Hins _ _ Ha) as (a' & Ha' & Hv' & Hp').
  eauto 10.
Qed.

Lemma removed_keys s x it s' :
  positions_ok s -> removed s x s' -> store s !! x = Some it ->
  Permutation (keys s) (key_of it :: keys s').
Proof.
  intros Hpos Hrem Hx. unfold keys.
  rewrite (Permutation_map _ (rem_perm _ _ _ Hrem)). simpl.
  rewrite Hx. simpl.
  apply Permutation_cons; [reflexivity|].
  rewrite (keys_transport (store s) (store s')); [reflexivity|].
  intros p Hin.
  assert (Hin' : p ∈ items (queue s)).
  { rewrite (rem_perm _ _ _ Hrem). apply elem_of_cons. auto. }
  destruct (pos_store s p Hpos Hin') as (a & Ha).
  destruct (rem_key _ _ _ Hrem _ _ Ha) as (a' & Ha' & Hv' & Hp').
  eauto 10.
Qed.

Lemma removed_length s x s' :
  removed s x s' -> length (items (queue s)) = S (length (items (queue s'))).
Proof. intros H. apply (Permutation_length (rem_perm _ _ _ H)). Qed.

Lemma inserted_length s x s' :
  inserted s x s' -> length (items (queue s')) = S (length (items (queue s))).
Proof. intros H. apply (Permutation_length (ins_perm _ _ _ H)). Qed.

Lemma alloc_pos s v p : positions_ok s -> positions_ok (alloc_state s v p).
Proof.
  intros Hpos i q Hi. simpl in Hi.
  destruct (Hpos _ _ Hi) as (it & Hit & Hidx).
  exists it. split; [|assumption]. simpl.
  rewrite lookup_app_l; [assumption|]. eapply lookup_lt_Some; eauto.
Qed.

Lemma alloc_kat s v p k : positions_ok s -> kat (alloc_state s v p) k = kat s k.
Proof.
  intros Hpos. unfold kat, elem. simpl.
  destruct (items (queue s) !! k) as [q|] eqn:E; [|reflexivity].
  destruct (Hpos _ _ E) as (it & Hit & _).
  rewrite lookup_app_l; [reflexivity|]. eapply lookup_lt_Some; eauto.
Qed.

Lemma alloc_fresh s : positions_ok s -> length (store s) ∉ items (queue s).
Proof. intros Hpos Hin. apply (pos_ptr_lt s _ Hpos) in Hin. lia. Qed.

Lemma Enqueue_ok s v p :
  positions_ok s ->
  exists s', Enqueue v p s = Some (length (store s), s') /\
             inserted (alloc_state s v p) (length (store s)) s' /\
             (strict_weak (lt_of s) ->
              heap_ok (lt_of s) (length (items (queue s))) (kat s) ->
              heap_ok (lt_of s) (S (length (items (queue s)))) (kat s')).
Proof.
  intros Hpos. unfold Enqueue.
  assert (Hal : alloc v p s = Some (length (store s), alloc_state s v p)) by reflexivity.
  rewrite (bind_Some _ _ _ _ _ Hal).
  assert (Hx : store (alloc_state s v p) !! length (store s) = Some (mkItem v p 0)).
  { simpl. rewrite lookup_app_r by lia. rewrite Nat.sub_diag. reflexivity. }
  destruct (heap_Push_ok (alloc_state s v p) (length (store s)) _
              (alloc_pos s v p Hpos) (alloc_fresh s Hpos) Hx)
    as (s' & Hpush & Hins & Hheap).
  rewrite (bind_Some _ _ _ _ _ Hpush).
  exists s'. split; [reflexivity|]. split; [exact Hins|].
  intros SW Hh. apply Hheap; [exact SW|].
  eapply heap_ok_ext; [|exact Hh]. intros m _. apply alloc_kat, Hpos.
Qed.

Lemma Enqueue_keys s v p s' :
  positions_ok s ->
  inserted (alloc_state s v p) (length (store s)) s' ->
  Permutation (keys s') ((v, p) :: keys s).
Proof.
  intros Hpos Hins.
  assert (Hx : store (alloc_state s v p) !! length (store s) = Some (mkItem v p 0)).
  { simpl. rewrite lookup_app_r by lia. rewrite Nat.sub_diag. reflexivity. }
  rewrite (inserted_keys _ _ _ _ (alloc_pos s v p Hpos) Hins Hx).
  apply Permutation_cons; [reflexivity|].
  unfold keys. simpl.
  rewrite (keys_transport (store s) (store s ++ [mkItem v p 0])); [reflexivity|].
  intros q Hin. destruct (pos_store s q Hpos Hin) as (a & Ha).
  exists a, a. repeat split; try assumption.
  rewrite lookup_app_l; [assumption|]. eapply lookup_lt_Some; eauto.
Qed.

Lemma Dequeue_empty s :
  items (queue s) = [] -> Dequeue s = Some ((zero, false), s).
Proof.
  intros H. unfold Dequeue. rewrite (bind_Some _ _ _ _ _ (len_eq s)).
  rewrite H. reflexivity.
Qed.

Lemma Dequeue_ok s :
  positions_ok s -> (0 < length (items (queue s)))%nat ->
  exists x it s', Dequeue s = Some ((Value it, true), s') /\
                  items (queue s) !! 0%nat = Some x /\
                  store s !! x = Some it /\
                  removed s x s' /\
                  (strict_weak (lt_of s) ->
                   heap_ok (lt_of s) (length (items (queue s))) (kat s) ->
                   heap_ok (lt_of s) (length (items (queue s)) - 1) (kat s')).
Proof.
  intros Hpos Hlen. unfold Dequeue.
  rewrite (bind_Some _ _ _ _ _ (len_eq s)).
  destruct (Z.eqb_spec (Z.of_nat (length (items (queue s)))) 0) as [E|_]; [lia|].
  destruct (heap_Pop_ok s Hpos Hlen) as (x & s' & Hpop & Hx & Hrem & Hheap).
  rewrite (bind_Some _ _ _ _ _ Hpop).
  destruct (Hpos _ _ Hx) as (it & Hit & _).
  destruct (rem_key _ _ _ Hrem _ _ Hit) as (it' & Hit' & Hv & _).
  rewrite (bind_Some _ _ _ _ _ (load_ok _ _ _ Hit')).
  exists x, it, s'. unfold ret. rewrite Hv. auto.
Qed.

Lemma Peek_empty s :
  items (queue s) = [] -> Peek s = Some ((zero, false), s).
Proof.
  intros H. unfold Peek. rewrite (bind_Some _ _ _ _ _ (len_eq s)).
  rewrite H. reflexivity.
Qed.

Lemma Peek_ok s :
  positions_ok s -> (0 < length (items (queue s)))%nat ->
  exists it, elem s 0 = Some it /\ Peek s = Some ((Value it, true), s).
Proof.
  intros Hpos Hlen. unfold Peek.
  rewrite (bind_Some _ _ _ _ _ (len_eq s)).
  destruct (Z.eqb_spec (Z.of_nat (length (items (queue s)))) 0) as [E|_]; [lia|].
  destruct (pos_lookup s 0 Hpos Hlen) as (x & it & Hx & Hit & _).
  pose proof (item_at_ok _ _ _ Hx) as Hat. change (Z.of_nat 0) with 0 in Hat.
  rewrite (bind_Some _ _ _ _ _ Hat).
  rewrite (bind_Some _ _ _ _ _ (load_ok _ _ _ Hit)).
  exists it. split; [rewrite (elem_ptr _ _ _ Hx); exact Hit|reflexivity].
Qed.

Lemma Clear_eq s : Clear s = Some (tt, cleared_state s).
Proof.
  unfold Clear, bind, set_items. simpl.
  apply heap_Init_empty. reflexivity.
Qed.

Lemma UpdatePriority_stale s h it p :
  store s !! h = Some it ->
  (Index it < 0 \/ Z.of_nat (length (items (queue s))) <= Index it) ->
  UpdatePriority h p s = Some (tt, s).
Proof.
  intros Hh Hout. unfold UpdatePriority.
  rewrite (bind_Some _ _ _ _ _ (load_ok _ _ _ Hh)).
  rewrite (bind_Some _ _ _ _ _ (len_eq s)).
  destruct (Z.ltb_spec (Index it) 0); [reflexivity|].
  destruct (Z.geb_spec (Index it) (Z.of_nat (length (items (queue s)))));
    [reflexivity|lia].
Qed.

Lemma Remove_stale s h it :
  store s !! h = Some it ->
  (Index it < 0 \/ Z.of_nat (length (items (queue s))) <= Index it) ->
  Remove h s = Some ((zero, false), s).
Proof.
  intros Hh Hout. unfold Remove.
  rewrite (bind_Some _ _ _ _ _ (load_ok _ _ _ Hh)).
  rewrite (bind_Some _ _ _ _ _ (len_eq s)).
  destruct (Z.ltb_spec (Index it) 0); [reflexivity|].
  destruct (Z.geb_spec (Index it) (Z.of_nat (length (items (queue s)))));
    [reflexivity|lia].
Qed.

Lemma prio_pos s h it p :
  positions_ok s -> store s !! h = Some it -> positions_ok (prio_state s h it p).
Proof.
  intros Hpos Hh i q Hi. simpl in Hi.
  destruct (Hpos _ _ Hi) as (a & Ha & Hidx). simpl.
  destruct (decide (q = h)) as [->|Hne].
  - rewrite list_lookup_insert_eq by (eapply lookup_lt_Some; eauto).
    eexists. split; [reflexivity|]. simpl. congruence.
  - rewrite list_lookup_insert_ne by congruence. eauto.
Qed.

Lemma prio_kat s h it p (i m : nat) :
  positions_ok s -> store s !! h = Some it -> Index it = Z.of_nat i ->
  m <> i -> kat (prio_state s h it p) m = kat s m.
Proof.
  intros Hpos Hh Hidx Hm. unfold kat, elem. simpl.
  destruct (items (queue s) !! m) as [q|] eqn:E; [|reflexivity].
  rewrite list_lookup_insert_ne; [reflexivity|].
  intros ->. destruct (Hpos _ _ E) as (a & Ha & Hia).
  assert (a = it) by congruence. subst a. lia.
Qed.

Lemma UpdatePriority_ok s h it p :
  positions_ok s -> store s !! h = Some it ->
  0 <= Index it < Z.of_nat (length (items (queue s))) ->
  exists s', UpdatePriority h p s = Some (tt, s') /\
             rearr (length (items (queue s))) (prio_state s h it p) s' /\
             (strict_weak (lt_of s) ->
              heap_ok (lt_of s) (length (items (queue s))) (kat s) ->
              heap_ok (lt_of s) (length (items (queue s))) (kat s')).
Proof.
  intros Hpos Hh Hin. unfold UpdatePriority.
  rewrite (bind_Some _ _ _ _ _ (load_ok _ _ _ Hh)).
  rewrite (bind_Some _ _ _ _ _ (len_eq s)).
  destruct (Z.ltb_spec (Index it) 0); [lia|].
  destruct (Z.geb_spec (Index it) (Z.of_nat (length (items (queue s))))); [lia|].
  simpl.
  rewrite (bind_Some _ _ _ _ _ (set_Priority_ok _ _ _ p Hh)).
  fold (prio_state s h it p).
  assert (Hh1 : store (prio_state s h it p) !! h = Some (mkItem (Value it) p (Index it))).
  { simpl. apply list_lookup_insert_eq. eapply lookup_lt_Some; eauto. }
  rewrite (bind_Some _ _ _ _ _ (load_ok _ _ _ Hh1)). simpl.
  set (i := Z.to_nat (Index it)).
  replace (Index it) with (Z.of_nat i) by lia.
  destruct (heap_Fix_ok (prio_state s h it p) i (prio_pos s h it p Hpos Hh)
              ltac:(simpl; lia))
    as (s' & Hfix & Hre & Hheap).
  exists s'. split; [exact Hfix|]. split; [exact Hre|].
  intros SW Hheap0. apply Hheap; [exact SW|].
  apply heap_ok_change with (g := kat s); [exact SW|exact Hheap0|].
  intros m _ Hm. apply (prio_kat s h it p i m); auto. lia.
Qed.

Lemma Remove_ok s h it :
  positions_ok s -> store s !! h = Some it ->
  0 <= Index it < Z.of_nat (length (items (queue s))) ->
  exists x itx s', Remove h s = Some ((Value itx, true), s') /\
                   items (queue s) !! Z.to_nat (Index it) = Some x /\
                   store s !! x = Some itx /\
                   removed s x s' /\
                   (strict_weak (lt_of s) ->
                    heap_ok (lt_of s) (length (items (queue s))) (kat s) ->
                    heap_ok (lt_of s) (length (items (queue s)) - 1) (kat s')).
Proof.
  intros Hpos Hh Hin. unfold Remove.
  rewrite (bind_Some _ _ _ _ _ (load_ok _ _ _ Hh)).
  rewrite (bind_Some _ _ _ _ _ (len_eq s)).
  destruct (Z.ltb_spec (Index it) 0); [lia|].
  destruct (Z.geb_spec (Index it) (Z.of_nat (length (items (queue s))))); [lia|].
  simpl.
  set (i := Z.to_nat (Index it)).
  replace (Index it) with (Z.of_nat i) by lia.
  destruct (heap_Remove_ok s i Hpos ltac:(lia)) as (x & s' & Hrm & Hx & Hrem & Hheap).
  rewrite (bind_Some _ _ _ _ _ Hrm).
  destruct (Hpos _ _ Hx) as (itx & Hitx & _).
  destruct (rem_key _ _ _ Hrem _ _ Hitx) as (itx' & Hitx' & Hv & _).
  rewrite (bind_Some _ _ _ _ _ (load_ok _ _ _ Hitx')).
  exists x, itx, s'. unfold ret. rewrite Hv. auto.
Qed.

(** ** Invariants of the queues a program can build *)

Lemma consistent_lt_of s : consistent s -> strict_weak (lt_of s).
Proof.
  intros [Ha Hn]. split.
  - intros a b. apply (Ha (mkItem (fst a) (snd a) 0) (mkItem (fst b) (snd b) 0)).
  - intros a b c.
    apply (Hn (mkItem (fst a) (snd a) 0) (mkItem (fst b) (snd b) 0)
              (mkItem (fst c) (snd c) 0)).
Qed.

Lemma numeric_consistent s : comparator (queue s) = None -> consistent s.
Proof.
  intros Hc. unfold consistent, ord, outranks. rewrite Hc.
  split.
  - intros a b. destruct (isMaxHeap (queue s)); lia.
  - intros a b c. destruct (isMaxHeap (queue s)); lia.
Qed.

Lemma three_way_consistent s cmp :
  comparator (queue s) = Some cmp -> three_way cmp -> consistent s.
Proof.
  intros Hc [Hflip Htrans]. unfold consistent, ord, outranks. rewrite Hc.
  split.
  - intros a b. pose proof (Hflip (Value a) (Value b)).
    pose proof (Hflip (Value b) (Value a)).
    destruct (isMaxHeap (queue s)); lia.
  - intros a b c.
    pose proof (Hflip (Value a) (Value b)). pose proof (Hflip (Value b) (Value a)).
    pose proof (Hflip (Value b) (Value c)). pose proof (Hflip (Value c) (Value b)).
    pose proof (Hflip (Value a) (Value c)). pose proof (Hflip (Value c) (Value a)).
    pose proof (Htrans (Value a) (Value b) (Value c)).
    pose proof (Htrans (Value c) (Value b) (Value a)).
    destruct (isMaxHeap (queue s)); lia.
Qed.

Lemma heap_invariant_of_heap_ok s :
  heap_ok (lt_of s) (length (items (queue s))) (kat s) -> heap_invariant s.
Proof.
  intros H i c x y Hc Hx Hy.
  unfold elem in Hx, Hy.
  destruct (items (queue s) !! i) as [p|] eqn:Ep; [|discriminate].
  destruct (items (queue s) !! c) as [q|] eqn:Eq; [|discriminate].
  pose proof (lookup_lt_Some _ _ _ Eq) as Hlt.
  specialize (H i c Hc Hlt). unfold good in H.
  rewrite (kat_ptr _ _ _ _ Ep Hx), (kat_ptr _ _ _ _ Eq Hy) in H.
  exact H.
Qed.

Lemma heap_ok_of_heap_invariant s :
  positions_ok s -> heap_invariant s ->
  heap_ok (lt_of s) (length (items (queue s))) (kat s).
Proof.
  intros Hpos H p c Hc Hlt. unfold good.
  pose proof (child_lt _ _ Hc) as Hpc.
  destruct (pos_lookup s p Hpos ltac:(lia)) as (pp & x & Hp & Hx & _).
  destruct (pos_lookup s c Hpos Hlt) as (pc & y & Hq & Hy & _).
  rewrite (kat_ptr _ _ _ _ Hp Hx), (kat_ptr _ _ _ _ Hq Hy).
  apply (H p c x y Hc).
  - rewrite (elem_ptr _ _ _ Hp). exact Hx.
  - rewrite (elem_ptr _ _ _ Hq). exact Hy.
Qed.

Lemma valid_handle_lookup s h : valid_handle s h -> exists it, store s !! h = Some it.
Proof. intros H. apply lookup_lt_is_Some_2 in H. destruct H as [it H]. eauto. Qed.

(** Every operation returns, keeps the positions tracked and the policy
    unchanged, and keeps a heap a heap when the policy is consistent. *)
Lemma run_op_ok s o :
  positions_ok s -> handles_ok s o ->
  exists r s', run_op o s = Some (r, s') /\
               positions_ok s' /\
               comparator (queue s') = comparator (queue s) /\
               isMaxHeap (queue s') = isMaxHeap (queue s) /\
               (strict_weak (lt_of s) ->
                heap_ok (lt_of s) (length (items (queue s))) (kat s) ->
                heap_ok (lt_of s) (length (items (queue s'))) (kat s')).
Proof.
  intros Hpos Hok. destruct o as [v p| |h p|h|]; simpl in *.
  - destruct (Enqueue_ok s v p Hpos) as (s' & He & Hins & Hheap).
    rewrite (bind_Some _ _ _ _ _ He).
    eexists _, s'. split; [reflexivity|].
    split; [apply Hins|]. split; [apply Hins|]. split; [apply Hins|].
    rewrite (inserted_length _ _ _ Hins). exact Hheap.
  - destruct (decide (length (items (queue s)) = 0%nat)) as [E|E].
    + apply length_zero_iff_nil in E.
      rewrite (bind_Some _ _ _ _ _ (Dequeue_empty s E)).
      eexists _, s. split; [reflexivity|]. auto.
    + destruct (Dequeue_ok s Hpos ltac:(lia)) as (x & it & s' & Hd & _ & _ & Hrem & Hheap).
      rewrite (bind_Some _ _ _ _ _ Hd).
      eexists _, s'. split; [reflexivity|].
      split; [apply Hrem|]. split; [apply Hrem|]. split; [apply Hrem|].
      pose proof (removed_length _ _ _ Hrem) as Hl.
      replace (length (items (queue s')))
        with (length (items (queue s)) - 1)%nat by lia.
      exact Hheap.
  - destruct (valid_handle_lookup s h Hok) as (it & Hh).
    destruct (decide (0 <= Index it < Z.of_nat (length (items (queue s))))) as [Hin|Hout].
    + destruct (UpdatePriority_ok s h it p Hpos Hh Hin) as (s' & Hu & Hre & Hheap).
      rewrite (bind_Some _ _ _ _ _ Hu).
      eexists _, s'. split; [reflexivity|].
      split; [apply Hre|]. split; [apply Hre|]. split; [apply Hre|].
      rewrite (rearr_length _ _ _ Hre). exact Hheap.
    + rewrite (bind_Some _ _ _ _ _ (UpdatePriority_stale s h it p Hh ltac:(lia))).
      eexists _, s. split; [reflexivity|]. auto.
  - destruct (valid_handle_lookup s h Hok) as (it & Hh).
    destruct (decide (0 <= Index it < Z.of_nat (length (items (queue s))))) as [Hin|Hout].
    + destruct (Remove_ok s h it Hpos Hh Hin)
        as (x & itx & s' & Hr & _ & _ & Hrem & Hheap).
      rewrite (bind_Some _ _ _ _ _ Hr).
      eexists _, s'. split; [reflexivity|].
      split; [apply Hrem|]. split; [apply Hrem|]. split; [apply Hrem|].
      pose proof (removed_length _ _ _ Hrem) as Hl.
      replace (length (items (queue s')))
        with (length (items (queue s)) - 1)%nat by lia.
      exact Hheap.
    + rewrite (bind_Some _ _ _ _ _ (Remove_stale s h it Hh ltac:(lia))).
      eexists _, s. split; [reflexivity|]. auto.
  - rewrite (bind_Some _ _ _ _ _ (Clear_eq s)).
    eexists _, (cleared_state s). split; [reflexivity|].
    split; [intros i q Hi; simpl in Hi; discriminate|].
    split; [reflexivity|]. split; [reflexivity|].
    intros _ _ q c Hc Hlt. simpl in Hlt. lia.
Qed.

Lemma fresh_built st c mx s :
  heap_Init (fresh st c mx) = Some (tt, s) -> s = fresh st c mx.
Proof.
  intros H. rewrite heap_Init_empty in H by reflexivity. congruence.
Qed.

Lemma built_inv s :
  built s ->
  positions_ok s /\
  (strict_weak (lt_of s) -> heap_ok (lt_of s) (length (items (queue s))) (kat s)).
Proof.
  assert (Hfresh : forall st c mx,
            positions_ok (fresh st c mx) /\
            (strict_weak (lt_of (fresh st c mx)) ->
             heap_ok (lt_of (fresh st c mx))
                     (length (items (queue (fresh st c mx)))) (kat (fresh st c mx)))).
  { intros st c mx. split.
    - intros i q Hi. simpl in Hi. discriminate.
    - intros _ p k Hc Hlt. simpl in Hlt. lia. }
  induction 1 as [st s Hnew | st s Hnew | st cmp mx s Hnew
                 | s o r s' Hb [Hpos Hheap] Hok Hrun].
  - apply fresh_built in Hnew. subst s. apply Hfresh.
  - apply fresh_built in Hnew. subst s. apply Hfresh.
  - apply fresh_built in Hnew. subst s. apply Hfresh.
  - destruct (run_op_ok s o Hpos Hok) as (r' & s'' & Hrun' & Hpos' & Hc & Hm & Hheap').
    assert (s'' = s') by congruence. subst s''.
    split; [exact Hpos'|].
    assert (Hlt : lt_of s' = lt_of s) by (unfold lt_of; rewrite Hc, Hm; reflexivity).
    rewrite Hlt. intros SW. apply Hheap'; auto.
Qed.

Lemma built_positions_ok s : built s -> positions_ok s.
Proof. intros H. apply built_inv, H. Qed.

(** ** Enqueues followed by dequeues *)

Lemma enqueue_all_ok l : forall s,
  positions_ok s ->
  exists s', enqueue_all l s = Some (tt, s') /\
             positions_ok s' /\
             comparator (queue s') = comparator (queue s) /\
             isMaxHeap (queue s') = isMaxHeap (queue s) /\
             Permutation (keys s') (l ++ keys s) /\
             (strict_weak (lt_of s) ->
              heap_ok (lt_of s) (length (items (queue s))) (kat s) ->
              heap_ok (lt_of s) (length (items (queue s'))) (kat s')).
Proof.
  induction l as [|[v p] l IH]; intros s Hpos.
  - exists s. split; [reflexivity|]. repeat split; auto.
  - simpl enqueue_all.
    destruct (Enqueue_ok s v p Hpos) as (s1 & He & Hins & Hheap1).
    rewrite (bind_Some _ _ _ _ _ He).
    destruct (IH s1 (ins_pos _ _ _ Hins)) as (s' & Hall & Hpos' & Hc & Hm & Hperm & Hheap).
    exists s'. split; [exact Hall|]. split; [exact Hpos'|].
    split; [rewrite Hc; apply Hins|]. split; [rewrite Hm; apply Hins|].
    assert (Hlt : lt_of s1 = lt_of s).
    { unfold lt_of. rewrite (ins_cmp _ _ _ Hins), (ins_max _ _ _ Hins). reflexivity. }
    split.
    + rewrite Hperm, (Enqueue_keys s v p s1 Hpos Hins). simpl.
      symmetry. apply Permutation_middle.
    + intros SW Hh. rewrite Hlt in Hheap. apply Hheap; [exact SW|].
      rewrite (inserted_length _ _ _ Hins). simpl. apply Hheap1; assumption.
Qed.

Lemma dequeue_n_empty k : forall s,
  items (queue s) = [] -> dequeue_n k s = Some (replicate k (zero, false), s).
Proof.
  induction k as [|k IH]; intros s Hs; [reflexivity|].
  simpl dequeue_n.
  rewrite (bind_Some _ _ _ _ _ (Dequeue_empty s Hs)).
  rewrite (bind_Some _ _ _ _ _ (IH s Hs)). reflexivity.
Qed.

(** Draining a heap yields its keys in rank order; further dequeues
    report an empty queue. *)
Lemma drain_sorted n : forall s,
  length (items (queue s)) = n ->
  positions_ok s -> strict_weak (lt_of s) ->
  heap_ok (lt_of s) (length (items (queue s))) (kat s) ->
  exists sorted,
    Permutation sorted (keys s) /\
    StronglySorted (fun a b => lt_of s b a = false) sorted /\
    forall k, exists s',
      dequeue_n k s =
      Some (map (fun e => (fst e, true)) (take k sorted)
              ++ replicate (k - n) (zero, false), s').
Proof.
  induction n as [|n IH]; intros s Hlen Hpos SW Hheap.
  - apply length_zero_iff_nil in Hlen.
    exists []. split; [unfold keys; rewrite Hlen; reflexivity|].
    split; [constructor|].
    intros k. exists s. rewrite take_nil, Nat.sub_0_r. simpl.
    apply dequeue_n_empty, Hlen.
  - destruct (Dequeue_ok s Hpos ltac:(lia))
      as (x & it & s' & Hd & Hx & Hit & Hrem & Hheap').
    pose proof (removed_length _ _ _ Hrem) as Hl.
    assert (Hlt : lt_of s' = lt_of s).
    { unfold lt_of. rewrite (rem_cmp _ _ _ Hrem), (rem_max _ _ _ Hrem). reflexivity. }
    destruct (IH s' ltac:(lia) (rem_pos _ _ _ Hrem) ltac:(rewrite Hlt; exact SW))
      as (sorted' & Hperm' & Hsorted' & Hdeq').
    { rewrite Hlt. replace (length (items (queue s')))
        with (length (items (queue s)) - 1)%nat by lia.
      apply Hheap'; assumption. }
    pose proof (removed_keys s x it s' Hpos Hrem Hit) as Hkeys.
    exists (key_of it :: sorted'). split; [rewrite Hkeys, Hperm'; reflexivity|].
    split.
    + constructor; [rewrite <- Hlt; exact Hsorted'|].
      apply List.Forall_forall. intros b Hb.
      assert (Hbs : b ∈ keys s).
      { rewrite Hkeys. apply elem_of_cons. right.
        rewrite <- Hperm'. apply list_elem_of_In. exact Hb. }
      apply list_elem_of_lookup in Hbs as [m Hm].
      pose proof (lookup_lt_Some _ _ _ Hm) as Hml. rewrite keys_length in Hml.
      rewrite (keys_lookup s m Hml) in Hm.
      assert (b = kat s m) by congruence. subst b.
      rewrite <- (kat_ptr s 0 x it Hx Hit).
      apply heap_ok_root with (n := length (items (queue s))); assumption.
    + intros [|k].
      * exists s. reflexivity.
      * destruct (Hdeq' k) as (s'' & Hk).
        exists s''. simpl dequeue_n.
        rewrite (bind_Some _ _ _ _ _ Hd), (bind_Some _ _ _ _ _ Hk).
        reflexivity.
Qed.

Lemma StronglySorted_weaken {A} (R R' : A -> A -> Prop) l :
  (forall a b, R a b -> R' a b) -> StronglySorted R l -> StronglySorted R' l.
Proof.
  intros HR. induction 1 as [|a l Hs IH Hall]; constructor; [assumption|].
  eapply List.Forall_impl; [|exact Hall]. intros b. apply HR.
Qed.

Lemma order_from_fresh st mx l k :
  exists s1 s2 sorted,
    enqueue_all l (fresh st None mx) = Some (tt, s1) /\
    Permutation sorted l /\
    StronglySorted (fun a b => klt None mx b a = false) sorted /\
    dequeue_n k s1 =
    Some (map (fun e => (fst e, true)) (take k sorted)
            ++ replicate (k - length l) (zero, false), s2).
Proof.
  set (s0 := fresh st None mx).
  assert (Hpos0 : positions_ok s0) by (intros i q Hi; simpl in Hi; discriminate).
  destruct (enqueue_all_ok l s0 Hpos0) as (s1 & Hall & Hpos1 & Hc & Hm & Hperm & Hheap).
  assert (SW : strict_weak (lt_of s0)).
  { apply consistent_lt_of, numeric_consistent. reflexivity. }
  assert (Hlt : lt_of s1 = klt None mx).
  { unfold lt_of. rewrite Hc, Hm. reflexivity. }
  assert (Hlen : length (items (queue s1)) = length l).
  { rewrite <- keys_length, Hperm. unfold keys. simpl. rewrite app_nil_r. reflexivity. }
  destruct (drain_sorted (length l) s1 Hlen Hpos1) as (sorted & Hps & Hss & Hdeq).
  { rewrite Hlt. exact SW. }
  { rewrite Hlt. apply Hheap; [exact SW|].
    intros p c Hch Hcl. simpl in Hcl. lia. }
  destruct (Hdeq k) as (s2 & Hk).
  exists s1, s2, sorted. split; [exact Hall|].
  split; [rewrite Hps, Hperm; unfold keys; simpl; rewrite app_nil_r; reflexivity|].
  split; [rewrite <- Hlt; exact Hss|exact Hk].
Qed.

(** C1 (priority order).  Whatever pairs are enqueued into a queue made
    by [New] (respectively [NewMax]), and however many dequeues follow,
    the dequeues succeed for as long as there are elements and return the
    values of the enqueued pairs in non-decreasing (respectively
    non-increasing) order of their priorities; the dequeues after that
    report an empty queue. *)
Theorem dequeue_priority_order (st : list Item) (l : list (T * Z)) (k : nat) :
  (exists s0 s1 s2 sorted,
     New st = Some (tt, s0) /\
     enqueue_all l s0 = Some (tt, s1) /\
     Permutation sorted l /\
     StronglySorted (fun a b => snd a <= snd b) sorted /\
     dequeue_n k s1 =
     Some (map (fun e => (fst e, true)) (take k sorted)
             ++ replicate (k - length l) (zero, false), s2)) /\
  (exists s0 s1 s2 sorted,
     NewMax st = Some (tt, s0) /\
     enqueue_all l s0 = Some (tt, s1) /\
     Permutation sorted l /\
     StronglySorted (fun a b => snd a >= snd b) sorted /\
     dequeue_n k s1 =
     Some (map (fun e => (fst e, true)) (take k sorted)
             ++ replicate (k - length l) (zero, false), s2)).
Proof.
  split.
  - destruct (order_from_fresh st false l k) as (s1 & s2 & sorted & Hall & Hp & Hs & Hd).
    exists (fresh st None false), s1, s2, sorted.
    split; [apply heap_Init_empty; reflexivity|].
    repeat split; try assumption.
    eapply StronglySorted_weaken; [|exact Hs].
    intros a b. unfold klt, outranks. simpl. lia.
  - destruct (order_from_fresh st true l k) as (s1 & s2 & sorted & Hall & Hp & Hs & Hd).
    exists (fresh st None true), s1, s2, sorted.
    split; [apply heap_Init_empty; reflexivity|].
    repeat split; try assumption.
    eapply StronglySorted_weaken; [|exact Hs].
    intros a b. unfold klt, outranks. simpl. lia.
Qed.

(** ** The heap invariant *)

(** C2 (heap invariant).  After any sequence of Enqueue, Dequeue,
    UpdatePriority, Remove and Clear on a queue made by one of the
    constructors, no child outranks its parent under the queue's active
    ordering policy: the built-in numeric one, or a custom comparator
    that keeps the contract of an ordering policy, a consistent order
    ([consistent]: with the ascending/descending flag it induces a strict
    weak order, as every three-way comparator of a total preorder does,
    see [three_way_consistent]). *)
Theorem heap_invariant_built s :
  built s -> comparator (queue s) = None \/ consistent s -> heap_invariant s.
Proof.
  intros Hb Hc.
  assert (Hcons : consistent s).
  { destruct Hc as [Hn|Hc]; [apply numeric_consistent, Hn|exact Hc]. }
  apply heap_invariant_of_heap_ok.
  apply built_inv; [exact Hb|]. apply consistent_lt_of, Hcons.
Qed.

(** ** Position tracking *)

(** C8 (position tracking).  In every queue built by a constructor and
    any sequence of Enqueue, Dequeue, UpdatePriority, Remove and Clear,
    the item at slot [i] records [i] in its [Index] field; and every
    further operation returns and leaves a queue in which this holds. *)
Theorem position_tracking s :
  built s ->
  positions_ok s /\
  forall o, handles_ok s o ->
    exists r s', run_op o s = Some (r, s') /\ positions_ok s'.
Proof.
  intros Hb. pose proof (built_positions_ok s Hb) as Hpos.
  split; [exact Hpos|].
  intros o Hok.
  destruct (run_op_ok s o Hpos Hok) as (r & s' & Hrun & Hpos' & _).
  eauto.
Qed.

(** ** Empty queues and stale handles *)

(** C6 (empty-queue access).  On an empty queue [Dequeue] and [Peek]
    both return the zero value with a false flag, without panicking, and
    leave the state as it was. *)
Theorem empty_queue_not_found s :
  items (queue s) = [] ->
  Dequeue s = Some ((zero, false), s) /\ Peek s = Some ((zero, false), s).
Proof. intros H. split; [apply Dequeue_empty|apply Peek_empty]; exact H. Qed.

(** C5 (out-of-range handle).  For a handle whose [Index] is outside the
    bounds of the slice, [UpdatePriority] returns nothing and [Remove]
    returns the zero value with a false flag; both leave the whole state,
    the handle's item included, as it was. *)
Theorem out_of_range_handle s h it p :
  store s !! h = Some it ->
  Index it < 0 \/ Z.of_nat (length (items (queue s))) <= Index it ->
  UpdatePriority h p s = Some (tt, s) /\ Remove h s = Some ((zero, false), s).
Proof.
  intros Hh Hout. split.
  - eapply UpdatePriority_stale; eauto.
  - eapply Remove_stale; eauto.
Qed.

(** ** [Peek] *)

Lemma peek_n_ok n s it :
  Peek s = Some ((Value it, true), s) ->
  peek_n n s = Some (replicate n (Value it, true), s).
Proof.
  intros Hp. induction n as [|n IH]; [reflexivity|].
  simpl peek_n. rewrite (bind_Some _ _ _ _ _ Hp), (bind_Some _ _ _ _ _ IH).
  reflexivity.
Qed.

(** C9 (peek idempotence).  On a non-empty queue every one of any number
    of consecutive [Peek] calls returns the value of the root item with a
    true flag, and the state after them is the state before them. *)
Theorem peek_idempotent s n :
  built s -> (0 < length (items (queue s)))%nat ->
  exists it, elem s 0 = Some it /\
             Peek s = Some ((Value it, true), s) /\
             peek_n n s = Some (replicate n (Value it, true), s).
Proof.
  intros Hb Hlen.
  destruct (Peek_ok s (built_positions_ok s Hb) Hlen) as (it & Hel & Hp).
  exists it. split; [exact Hel|]. split; [exact Hp|].
  apply peek_n_ok, Hp.
Qed.

(** ** [UpdatePriority] on a handle within bounds *)

Lemma prio_values s h it p :
  store s !! h = Some it -> values (prio_state s h it p) = values s.
Proof.
  intros Hh. unfold values, keys. simpl. rewrite !map_map.
  apply map_ext. intros q. destruct (decide (q = h)) as [->|Hne].
  - rewrite list_lookup_insert_eq by (eapply lookup_lt_Some; eauto).
    rewrite Hh. reflexivity.
  - rewrite list_lookup_insert_ne by congruence. reflexivity.
Qed.

(** C10 (frame of UpdatePriority).  For a handle whose [Index] is within
    bounds, [UpdatePriority] returns; the slice keeps its length and holds
    the same pointers, hence the same multiset of values; the store keeps
    its size and the policy is unchanged; the handle's item keeps its
    value and gets the new priority; every other item keeps its value and
    its priority, and an item outside the slice is not touched at all. *)
Theorem UpdatePriority_frame s h it p :
  built s -> store s !! h = Some it ->
  0 <= Index it < Z.of_nat (length (items (queue s))) ->
  exists s', UpdatePriority h p s = Some (tt, s') /\
    length (items (queue s')) = length (items (queue s)) /\
    Permutation (items (queue s')) (items (queue s)) /\
    Permutation (values s') (values s) /\
    length (store s') = length (store s) /\
    comparator (queue s') = comparator (queue s) /\
    isMaxHeap (queue s') = isMaxHeap (queue s) /\
    (exists it', store s' !! h = Some it' /\ Value it' = Value it /\ Priority it' = p) /\
    (forall q itq, q <> h -> store s !! q = Some itq ->
       exists itq', store s' !! q = Some itq' /\
                    Value itq' = Value itq /\ Priority itq' = Priority itq) /\
    (forall q, q ∉ items (queue s) -> q <> h -> store s' !! q = store s !! q).
Proof.
  intros Hb Hh Hin.
  pose proof (built_positions_ok s Hb) as Hpos.
  destruct (UpdatePriority_ok s h it p Hpos Hh Hin) as (s' & Hu & Hre & _).
  pose proof (lookup_lt_Some _ _ _ Hh) as Lh.
  exists s'. split; [exact Hu|].
  split; [apply (rearr_length _ _ _ Hre)|].
  split; [apply (rearr_perm _ _ _ Hre)|].
  split.
  { rewrite <- (prio_values s h it p Hh). unfold values.
    apply Permutation_map, (rearr_keys _ _ _ Hre). }
  split; [rewrite (rearr_store_len _ _ _ Hre); simpl; apply length_insert|].
  split; [apply (rearr_cmp _ _ _ Hre)|].
  split; [apply (rearr_max _ _ _ Hre)|].
  split.
  - assert (H1 : store (prio_state s h it p) !! h = Some (mkItem (Value it) p (Index it))).
    { simpl. apply list_lookup_insert_eq, Lh. }
    destruct (rearr_key _ _ _ Hre _ _ H1) as (it' & Hit' & Hv & Hp).
    exists it'. auto.
  - split.
    + intros q itq Hne Hq.
      assert (H1 : store (prio_state s h it p) !! q = Some itq).
      { simpl. rewrite list_lookup_insert_ne by congruence. exact Hq. }
      apply (rearr_key _ _ _ Hre _ _ H1).
    + intros q Hq Hne.
      rewrite (rearr_frame _ _ _ Hre) by (simpl; exact Hq).
      simpl. apply list_lookup_insert_ne. congruence.
Qed.

(** ** Custom comparators *)

Lemma Less_eq s (i j : nat) x y :
  elem s i = Some x -> elem s j = Some y ->
  Less (Z.of_nat i) (Z.of_nat j) s = Some (ord s x y, s).
Proof.
  unfold elem. intros Hx Hy.
  destruct (items (queue s) !! i) as [a|] eqn:Ea; [|discriminate].
  destruct (items (queue s) !! j) as [b|] eqn:Eb; [|discriminate].
  unfold Less.
  rewrite (bind_Some _ _ _ _ _ (item_at_ok _ _ _ Ea)).
  rewrite (bind_Some _ _ _ _ _ (load_ok _ _ _ Hx)).
  rewrite (bind_Some _ _ _ _ _ (item_at_ok _ _ _ Eb)).
  rewrite (bind_Some _ _ _ _ _ (load_ok _ _ _ Hy)).
  reflexivity.
Qed.

(** The operations keep the ordering policy chosen at construction. *)
Lemma reach_keeps_policy s s' :
  positions_ok s -> reach s s' ->
  positions_ok s' /\
  comparator (queue s') = comparator (queue s) /\
  isMaxHeap (queue s') = isMaxHeap (queue s).
Proof.
  intros Hpos H. induction H as [s|s o r s1 s2 Hok Hrun _ IH]; [auto|].
  destruct (run_op_ok s o Hpos Hok) as (r' & s1' & Hrun' & Hpos1 & Hc & Hm & _).
  assert (s1' = s1) by congruence. subst s1'.
  destruct (IH Hpos1) as (Hp2 & Hc2 & Hm2).
  split; [exact Hp2|]. split; congruence.
Qed.

(** C7 (custom comparator).  [NewWithComparator(cmp, mx)] returns a
    queue, and in every state that any sequence of Enqueue, Dequeue,
    UpdatePriority, Remove and Clear reaches from it the queue still
    carries [cmp] and the flag [mx], and [Less], the only comparison the
    heap makes, says that the item at slot [i] outranks the item at slot
    [j] exactly when [cmp] applied to their values is negative
    (ascending, [mx = false]) or positive (descending, [mx = true]).  The
    answer is the same in any state with this policy whose slots hold the
    same values, whatever the priorities.  The priority is nevertheless
    stored by [Enqueue] and set by [UpdatePriority]. *)
Theorem comparator_ordering (st : list Item) (cmp : Comparator) (mx : bool) :
  exists s0,
    NewWithComparator st cmp mx = Some (tt, s0) /\
    forall s, reach s0 s ->
      comparator (queue s) = Some cmp /\
      isMaxHeap (queue s) = mx /\
      (forall (i j : nat) x y,
         elem s i = Some x -> elem s j = Some y ->
         exists b, Less (Z.of_nat i) (Z.of_nat j) s = Some (b, s) /\
           (mx = false -> (b = true <-> cmp (Value x) (Value y) < 0)) /\
           (mx = true -> (b = true <-> cmp (Value x) (Value y) > 0)) /\
           (forall s2 x2 y2,
              comparator (queue s2) = Some cmp ->
              isMaxHeap (queue s2) = mx ->
              elem s2 i = Some x2 -> elem s2 j = Some y2 ->
              Value x2 = Value x -> Value y2 = Value y ->
              Less (Z.of_nat i) (Z.of_nat j) s2 = Some (b, s2))) /\
      (forall v p,
         exists h s' it, Enqueue v p s = Some (h, s') /\
                         store s' !! h = Some it /\ Value it = v /\ Priority it = p) /\
      (forall h it p,
         store s !! h = Some it ->
         0 <= Index it < Z.of_nat (length (items (queue s))) ->
         exists s' it', UpdatePriority h p s = Some (tt, s') /\
                        store s' !! h = Some it' /\ Priority it' = p).
Proof.
  exists (fresh st (Some cmp) mx).
  split; [apply heap_Init_empty; reflexivity|].
  intros s Hreach.
  assert (Hpos0 : positions_ok (fresh st (Some cmp) mx)).
  { intros i q Hi. simpl in Hi. discriminate. }
  destruct (reach_keeps_policy _ _ Hpos0 Hreach) as (Hpos & Hc & Hm).
  simpl in Hc, Hm.
  split; [exact Hc|]. split; [exact Hm|].
  split; [|split].
  - intros i j x y Hx Hy. exists (ord s x y).
    split; [apply Less_eq; assumption|].
    unfold ord, outranks. rewrite Hc, Hm.
    split; [intros ->; apply Z.ltb_lt|].
    split; [intros ->; rewrite Z.gtb_ltb, Z.ltb_lt; lia|].
    intros s2 x2 y2 Hc2 Hm2 Hx2 Hy2 Hvx Hvy.
    rewrite (Less_eq s2 i j x2 y2 Hx2 Hy2).
    unfold ord, outranks. rewrite Hc2, Hm2, Hvx, Hvy. reflexivity.
  - intros v p.
    destruct (Enqueue_ok s v p Hpos) as (s' & He & Hins & _).
    assert (Hh : store (alloc_state s v p) !! length (store s) = Some (mkItem v p 0)).
    { simpl. rewrite lookup_app_r by lia. rewrite Nat.sub_diag. reflexivity. }
    destruct (ins_key _ _ _ Hins _ _ Hh) as (it & Hit & Hv & Hp).
    exists (length (store s)), s', it. auto.
  - intros h it p Hh Hin.
    destruct (UpdatePriority_ok s h it p Hpos Hh Hin) as (s' & Hu & Hre & _).
    assert (H1 : store (prio_state s h it p) !! h = Some (mkItem (Value it) p (Index it))).
    { simpl. apply list_lookup_insert_eq. eapply lookup_lt_Some; eauto. }
    destruct (rearr_key _ _ _ Hre _ _ H1) as (it' & Hit' & _ & Hp).
    exists s', it'. auto.
Qed.

(** ** Handles that [Pop] has marked *)

Lemma marked_not_in_slice s h it :
  positions_ok s -> store s !! h = Some it -> Index it < 0 ->
  h ∉ items (queue s).
Proof.
  intros Hpos Hh Hneg Hin. apply list_elem_of_lookup in Hin as [i Hi].
  destruct (Hpos _ _ Hi) as (a & Ha & Hidx).
  assert (a = it) by congruence. subst a. lia.
Qed.

(** [Dequeue] and [Remove] leave the item they take out with [Index]
    [-1]. *)
Lemma Dequeue_marks s :
  positions_ok s -> (0 < length (items (queue s)))%nat ->
  exists h v s' it', Dequeue s = Some ((v, true), s') /\
                     items (queue s) !! 0%nat = Some h /\
                     store s' !! h = Some it' /\ Index it' = -1.
Proof.
  intros Hpos Hlen.
  destruct (Dequeue_ok s Hpos Hlen) as (x & it & s' & Hd & Hx & _ & Hrem & _).
  destruct (rem_index _ _ _ Hrem) as (it' & Hit' & Hidx).
  exists x, (Value it), s', it'. auto.
Qed.

Lemma Remove_marks s h it :
  positions_ok s -> items (queue s) !! Z.to_nat (Index it) = Some h ->
  store s !! h = Some it -> 0 <= Index it ->
  exists v s' it', Remove h s = Some ((v, true), s') /\
                   store s' !! h = Some it' /\ Index it' = -1.
Proof.
  intros Hpos Hslot Hh Hnn.
  pose proof (lookup_lt_Some _ _ _ Hslot) as Hlt.
  destruct (Remove_ok s h it Hpos Hh ltac:(lia))
    as (x & itx & s' & Hr & Hx & _ & Hrem & _).
  assert (x = h) by congruence. subst x.
  destruct (rem_index _ _ _ Hrem) as (it' & Hit' & Hidx).
  exists (Value itx), s', it'. auto.
Qed.

(** A handle marked [-1] is left alone by every later operation, so it
    stays out of range for good. *)
Lemma marked_handle_kept s o h it :
  positions_ok s -> store s !! h = Some it -> Index it = -1 ->
  handles_ok s o ->
  exists r s', run_op o s = Some (r, s') /\ store s' !! h = Some it.
Proof.
  intros Hpos Hh Hidx Hok.
  pose proof (marked_not_in_slice s h it Hpos Hh ltac:(lia)) as Hnin.
  pose proof (lookup_lt_Some _ _ _ Hh) as Lh.
  destruct o as [v p| |h' p|h'|]; simpl in *.
  - destruct (Enqueue_ok s v p Hpos) as (s' & He & Hins & _).
    rewrite (bind_Some _ _ _ _ _ He).
    eexists _, s'. split; [reflexivity|].
    rewrite (ins_frame _ _ _ Hins) by (simpl; (assumption || lia)).
    simpl. rewrite lookup_app_l by assumption. exact Hh.
  - destruct (decide (length (items (queue s)) = 0%nat)) as [E|E].
    + apply length_zero_iff_nil in E.
      rewrite (bind_Some _ _ _ _ _ (Dequeue_empty s E)).
      eexists _, s. split; [reflexivity|exact Hh].
    + destruct (Dequeue_ok s Hpos ltac:(lia)) as (x & a & s' & Hd & _ & _ & Hrem & _).
      rewrite (bind_Some _ _ _ _ _ Hd).
      eexists _, s'. split; [reflexivity|].
      rewrite (rem_frame _ _ _ Hrem) by assumption. exact Hh.
  - destruct (valid_handle_lookup s h' Hok) as (a & Ha).
    destruct (decide (0 <= Index a < Z.of_nat (length (items (queue s))))) as [Hin|Hout].
    + destruct (UpdatePriority_ok s h' a p Hpos Ha Hin) as (s' & Hu & Hre & _).
      rewrite (bind_Some _ _ _ _ _ Hu).
      eexists _, s'. split; [reflexivity|].
      rewrite (rearr_frame _ _ _ Hre) by (simpl; assumption).
      simpl. rewrite list_lookup_insert_ne; [exact Hh|].
      intros ->. assert (a = it) by congruence. subst a. lia.
    + rewrite (bind_Some _ _ _ _ _ (UpdatePriority_stale s h' a p Ha ltac:(lia))).
      eexists _, s. split; [reflexivity|exact Hh].
  - destruct (valid_handle_lookup s h' Hok) as (a & Ha).
    destruct (decide (0 <= Index a < Z.of_nat (length (items (queue s))))) as [Hin|Hout].
    + destruct (Remove_ok s h' a Hpos Ha Hin) as (x & itx & s' & Hr & _ & _ & Hrem & _).
      rewrite (bind_Some _ _ _ _ _ Hr).
      eexists _, s'. split; [reflexivity|].
      rewrite (rem_frame _ _ _ Hrem) by assumption. exact Hh.
    + rewrite (bind_Some _ _ _ _ _ (Remove_stale s h' a Ha ltac:(lia))).
      eexists _, s. split; [reflexivity|exact Hh].
  - rewrite (bind_Some _ _ _ _ _ (Clear_eq s)).
    eexists _, (cleared_state s). split; [reflexivity|exact Hh].
Qed.

(** Once [Pop] has marked a handle, whatever operations follow, the
    handle's item is as [Pop] left it, [UpdatePriority] on it changes
    nothing and [Remove] on it reports that nothing was found. *)
Lemma marked_handle_safe s s' h it p :
  positions_ok s -> store s !! h = Some it -> Index it = -1 ->
  reach s s' ->
  store s' !! h = Some it /\
  UpdatePriority h p s' = Some (tt, s') /\
  Remove h s' = Some ((zero, false), s').
Proof.
  intros Hpos Hh Hidx Hreach. revert Hpos Hh.
  induction Hreach as [s | s o r s1 s2 Hok Hrun _ IH]; intros Hpos Hh.
  - split; [exact Hh|].
    split; [eapply UpdatePriority_stale|eapply Remove_stale]; eauto; lia.
  - destruct (marked_handle_kept s o h it Hpos Hh Hidx Hok) as (r' & s1' & Hrun' & Hh1).
    destruct (run_op_ok s o Hpos Hok) as (r'' & s1'' & Hrun'' & Hpos1 & _).
    assert (s1' = s1) by congruence. assert (s1'' = s1) by congruence.
    subst s1' s1''. apply IH; assumption.
Qed.

(** * Further properties of the operations *)

(** ** Sizes *)

Lemma Size_eq s : Size s = Some (Z.of_nat (length (items (queue s))), s).
Proof. reflexivity. Qed.

(** X1 (size accounting).  In a built queue every operation returns, and
    [Size] afterwards is [Size] before plus one for [Enqueue], minus one
    for a [Dequeue] or [Remove] that reports success, zero for [Clear],
    and unchanged otherwise; it is never negative. *)
Theorem size_accounting s o :
  built s -> handles_ok s o ->
  exists r s' n,
    Size s = Some (n, s) /\
    run_op o s = Some (r, s') /\
    Size s' = Some (size_after o r n, s') /\
    0 <= size_after o r n.
Proof.
  intros Hb Hok. pose proof (built_positions_ok s Hb) as Hpos.
  assert (Hgoal : exists r s', run_op o s = Some (r, s') /\
            Z.of_nat (length (items (queue s'))) =
            size_after o r (Z.of_nat (length (items (queue s))))).
  { destruct o as [v p| |h p|h|]; simpl in *.
    - destruct (Enqueue_ok s v p Hpos) as (s' & He & Hins & _).
      rewrite (bind_Some _ _ _ _ _ He).
      eexists _, s'. split; [reflexivity|].
      rewrite (inserted_length _ _ _ Hins). simpl. lia.
    - destruct (decide (length (items (queue s)) = 0%nat)) as [E|E].
      + apply length_zero_iff_nil in E.
        rewrite (bind_Some _ _ _ _ _ (Dequeue_empty s E)).
        eexists _, s. split; [reflexivity|]. reflexivity.
      + destruct (Dequeue_ok s Hpos ltac:(lia)) as (x & it & s' & Hd & _ & _ & Hrem & _).
        rewrite (bind_Some _ _ _ _ _ Hd).
        eexists _, s'. split; [reflexivity|]. simpl.
        rewrite (removed_length _ _ _ Hrem). lia.
    - destruct (valid_handle_lookup s h Hok) as (it & Hh).
      destruct (decide (0 <= Index it < Z.of_nat (length (items (queue s))))) as [Hin|Hout].
      + destruct (UpdatePriority_ok s h it p Hpos Hh Hin) as (s' & Hu & Hre & _).
        rewrite (bind_Some _ _ _ _ _ Hu).
        eexists _, s'. split; [reflexivity|]. simpl.
        rewrite (rearr_length _ _ _ Hre). reflexivity.
      + rewrite (bind_Some _ _ _ _ _ (UpdatePriority_stale s h it p Hh ltac:(lia))).
        eexists _, s. split; [reflexivity|]. reflexivity.
    - destruct (valid_handle_lookup s h Hok) as (it & Hh).
      destruct (decide (0 <= Index it < Z.of_nat (length (items (queue s))))) as [Hin|Hout].
      + destruct (Remove_ok s h it Hpos Hh Hin) as (x & itx & s' & Hr & _ & _ & Hrem & _).
        rewrite (bind_Some _ _ _ _ _ Hr).
        eexists _, s'. split; [reflexivity|]. simpl.
        rewrite (removed_length _ _ _ Hrem). lia.
      + rewrite (bind_Some _ _ _ _ _ (Remove_stale s h it Hh ltac:(lia))).
        eexists _, s. split; [reflexivity|]. reflexivity.
    - rewrite (bind_Some _ _ _ _ _ (Clear_eq s)).
      eexists _, (cleared_state s). split; [reflexivity|]. reflexivity. }
  destruct Hgoal as (r & s' & Hrun & Hlen).
  exists r, s', (Z.of_nat (length (items (queue s)))).
  split; [apply Size_eq|]. split; [exact Hrun|].
  rewrite <- Hlen. split; [apply Size_eq|lia].
Qed.

(** ** The head of the queue *)

(** X2 (Peek announces Dequeue).  In a built queue [Peek] and [Dequeue]
    return the same pair; the flag is true exactly when the queue is not
    empty, which is also what [IsEmpty] reports; [Peek] and [IsEmpty]
    leave the state as it was. *)
Theorem Peek_announces_Dequeue s :
  built s ->
  exists v ok s',
    Peek s = Some ((v, ok), s) /\
    Dequeue s = Some ((v, ok), s') /\
    IsEmpty s = Some (negb ok, s) /\
    (ok = true <-> items (queue s) <> []).
Proof.
  intros Hb. pose proof (built_positions_ok s Hb) as Hpos.
  assert (HE : IsEmpty s = Some (Z.of_nat (length (items (queue s))) =? 0, s))
    by reflexivity.
  destruct (items (queue s)) as [|p l] eqn:E.
  - exists zero, false, s.
    split; [apply Peek_empty, E|]. split; [apply Dequeue_empty, E|].
    split; [exact HE|]. split; [discriminate|congruence].
  - assert (Hlen : (0 < length (items (queue s)))%nat) by (rewrite E; simpl; lia).
    destruct (Peek_ok s Hpos Hlen) as (it & Hel & Hp).
    destruct (Dequeue_ok s Hpos Hlen) as (x & it' & s' & Hd & Hx & Hit' & _).
    assert (it' = it).
    { rewrite (elem_ptr _ _ _ Hx) in Hel. congruence. }
    subst it'. exists (Value it), true, s'.
    split; [exact Hp|]. split; [exact Hd|].
    split; [rewrite HE; simpl; reflexivity|].
    split; [discriminate|reflexivity].
Qed.

Lemma keys_elem s k :
  k ∈ keys s -> exists m, (m < length (items (queue s)))%nat /\ k = kat s m.
Proof.
  intros Hk. apply list_elem_of_lookup in Hk as [m Hm].
  pose proof (lookup_lt_Some _ _ _ Hm) as Hml. rewrite keys_length in Hml.
  rewrite (keys_lookup s m Hml) in Hm. exists m. split; [exact Hml|congruence].
Qed.

(** X3 (Dequeue takes a best element).  In a non-empty built queue whose
    policy is numeric or consistent, [Dequeue] returns the value of an
    element that no element of the queue outranks, and takes exactly that
    element out: the pairs of value and priority before are those after
    plus the one returned.  Under the numeric policy its priority is the
    least (ascending) or the greatest (descending) of all. *)
Theorem Dequeue_takes_best s :
  built s -> comparator (queue s) = None \/ consistent s ->
  items (queue s) <> [] ->
  exists v pr s',
    Dequeue s = Some ((v, true), s') /\
    Permutation (keys s) ((v, pr) :: keys s') /\
    Forall (fun k => lt_of s k (v, pr) = false) (keys s) /\
    (comparator (queue s) = None ->
     Forall (fun k => if isMaxHeap (queue s) then snd k <= pr else pr <= snd k)
            (keys s)).
Proof.
  intros Hb Hc Hne.
  assert (Hcons : consistent s).
  { destruct Hc as [Hn|Hc]; [apply numeric_consistent, Hn|exact Hc]. }
  pose proof (consistent_lt_of s Hcons) as SW.
  destruct (built_inv s Hb) as [Hpos Hheap]. specialize (Hheap SW).
  assert (Hlen : (0 < length (items (queue s)))%nat).
  { destruct (items (queue s)); [congruence|simpl; lia]. }
  destruct (Dequeue_ok s Hpos Hlen) as (x & it & s' & Hd & Hx & Hit & Hrem & _).
  exists (Value it), (Priority it), s'.
  split; [exact Hd|].
  split; [apply (removed_keys s x it s' Hpos Hrem Hit)|].
  assert (Hbest : Forall (fun k => lt_of s k (Value it, Priority it) = false) (keys s)).
  { apply Forall_forall. intros k Hk.
    destruct (keys_elem s k Hk) as (m & Hm & ->).
    change (Value it, Priority it) with (key_of it).
    rewrite <- (kat_ptr s 0 x it Hx Hit).
    apply heap_ok_root with (n := length (items (queue s))); assumption. }
  split; [exact Hbest|].
  intros Hnone. eapply Forall_impl; [exact Hbest|].
  intros k. unfold lt_of, klt, outranks. rewrite Hnone. simpl.
  destruct (isMaxHeap (queue s)); lia.
Qed.

(** ** Handles *)

Lemma slot_of_member s h :
  positions_ok s -> h ∈ items (queue s) ->
  exists i it, items (queue s) !! i = Some h /\ store s !! h = Some it /\
               Index it = Z.of_nat i.
Proof.
  intros Hpos Hin. apply list_elem_of_lookup in Hin as [i Hi].
  destruct (Hpos _ _ Hi) as (it & Hit & Hidx). eauto.
Qed.

Lemma Enqueue_member s v p :
  positions_ok s ->
  exists s' it,
    Enqueue v p s = Some (length (store s), s') /\
    inserted (alloc_state s v p) (length (store s)) s' /\
    store s' !! length (store s) = Some it /\ Value it = v /\ Priority it = p.
Proof.
  intros Hpos.
  destruct (Enqueue_ok s v p Hpos) as (s' & He & Hins & _).
  assert (Hh : store (alloc_state s v p) !! length (store s) = Some (mkItem v p 0)).
  { simpl. rewrite lookup_app_r by lia. rewrite Nat.sub_diag. reflexivity. }
  destruct (ins_key _ _ _ Hins _ _ Hh) as (it & Hit & Hv & Hp).
  exists s', it. auto.
Qed.

Lemma Remove_member s h :
  positions_ok s -> h ∈ items (queue s) ->
  exists it s',
    store s !! h = Some it /\
    Remove h s = Some ((Value it, true), s') /\
    removed s h s'.
Proof.
  intros Hpos Hin.
  destruct (slot_of_member s h Hpos Hin) as (i & it & Hi & Hit & Hidx).
  pose proof (lookup_lt_Some _ _ _ Hi) as Hlt.
  destruct (Remove_ok s h it Hpos Hit ltac:(lia))
    as (x & itx & s' & Hr & Hx & Hitx & Hrem & _).
  rewrite Hidx, Nat2Z.id in Hx.
  assert (x = h) by congruence. subst x.
  assert (itx = it) by congruence. subst itx.
  exists it, s'. auto.
Qed.

(** X4 (Enqueue adds one element and hands out a fresh, live handle).
    In a built queue [Enqueue(v, p)] returns a handle that was not
    allocated before, whose item holds [v] and [p] and records the slot at
    which the handle now sits; the queue holds the pairs it held plus
    [(v, p)]; items that were outside the slice are untouched and the
    others keep value and priority. *)
Theorem Enqueue_adds s v p :
  built s ->
  exists h s' it,
    Enqueue v p s = Some (h, s') /\
    ~ valid_handle s h /\
    store s' !! h = Some it /\ Value it = v /\ Priority it = p /\
    0 <= Index it /\ items (queue s') !! Z.to_nat (Index it) = Some h /\
    Permutation (items (queue s')) (h :: items (queue s)) /\
    Permutation (keys s') ((v, p) :: keys s) /\
    (forall q a, store s !! q = Some a ->
       exists a', store s' !! q = Some a' /\
                  Value a' = Value a /\ Priority a' = Priority a) /\
    (forall q, q ∉ items (queue s) -> valid_handle s q ->
       store s' !! q = store s !! q).
Proof.
  intros Hb. pose proof (built_positions_ok s Hb) as Hpos.
  destruct (Enqueue_ok s v p Hpos) as (s' & He & Hins & _).
  set (h := length (store s)) in *.
  assert (Hh : store (alloc_state s v p) !! h = Some (mkItem v p 0)).
  { simpl. rewrite lookup_app_r by (unfold h; lia). unfold h.
    rewrite Nat.sub_diag. reflexivity. }
  destruct (ins_key _ _ _ Hins _ _ Hh) as (it & Hit & Hv & Hp).
  assert (Hin : h ∈ items (queue s')).
  { rewrite (ins_perm _ _ _ Hins). apply elem_of_cons. auto. }
  destruct (slot_of_member s' h (ins_pos _ _ _ Hins) Hin) as (i & it0 & Hi & Hit0 & Hidx).
  assert (it0 = it) by congruence. subst it0.
  exists h, s', it. split; [exact He|].
  split; [unfold valid_handle, h; lia|].
  split; [exact Hit|]. split; [exact Hv|]. split; [exact Hp|].
  split; [lia|]. split; [rewrite Hidx, Nat2Z.id; exact Hi|].
  split; [apply (ins_perm _ _ _ Hins)|].
  split; [apply (Enqueue_keys s v p s' Hpos Hins)|].
  split.
  - intros q a Ha. apply (ins_key _ _ _ Hins). simpl.
    rewrite lookup_app_l; [exact Ha|]. eapply lookup_lt_Some; eauto.
  - intros q Hq Hvalid. unfold valid_handle in Hvalid.
    rewrite (ins_frame _ _ _ Hins) by (simpl; (assumption || (unfold h; lia))).
    simpl. apply lookup_app_l. exact Hvalid.
Qed.

(** X5 (Remove takes out the handle's own element).  In a built queue,
    [Remove] on a handle that sits in the slice returns that handle's
    value with a true flag and takes exactly that element out; every
    other item keeps value and priority; the handle's item is marked
    [-1], and in every state reached afterwards [UpdatePriority] on the
    handle changes nothing and [Remove] on it reports that nothing was
    found. *)
Theorem Remove_live_handle s h :
  built s -> h ∈ items (queue s) ->
  exists it s' it',
    store s !! h = Some it /\
    Remove h s = Some ((Value it, true), s') /\
    Permutation (items (queue s)) (h :: items (queue s')) /\
    Permutation (keys s) (key_of it :: keys s') /\
    store s' !! h = Some it' /\ Index it' = -1 /\
    (forall q a, store s !! q = Some a ->
       exists a', store s' !! q = Some a' /\
                  Value a' = Value a /\ Priority a' = Priority a) /\
    (forall s2 p, reach s' s2 ->
       UpdatePriority h p s2 = Some (tt, s2) /\
       Remove h s2 = Some ((zero, false), s2)).
Proof.
  intros Hb Hin. pose proof (built_positions_ok s Hb) as Hpos.
  destruct (slot_of_member s h Hpos Hin) as (i & it & Hi & Hit & Hidx).
  pose proof (lookup_lt_Some _ _ _ Hi) as Hlt.
  destruct (Remove_ok s h it Hpos Hit ltac:(lia))
    as (x & itx & s' & Hr & Hx & Hitx & Hrem & _).
  rewrite Hidx, Nat2Z.id in Hx.
  assert (x = h) by congruence. subst x.
  assert (itx = it) by congruence. subst itx.
  destruct (rem_index _ _ _ Hrem) as (it' & Hit' & Hidx').
  exists it, s', it'.
  split; [exact Hit|]. split; [exact Hr|].
  split; [apply (rem_perm _ _ _ Hrem)|].
  split; [apply (removed_keys s h it s' Hpos Hrem Hit)|].
  split; [exact Hit'|]. split; [exact Hidx'|].
  split; [apply (rem_key _ _ _ Hrem)|].
  intros s2 p Hreach.
  apply (marked_handle_safe s' s2 h it' p (rem_pos _ _ _ Hrem) Hit' Hidx' Hreach).
Qed.

(** X6 (a dequeued handle is retired for good).  In a non-empty built
    queue [Dequeue] returns the value of the handle at the root; that
    handle's item is marked [-1], and in every state reached afterwards
    [UpdatePriority] on it changes nothing and [Remove] on it reports that
    nothing was found. *)
Theorem Dequeue_retires_handle s :
  built s -> items (queue s) <> [] ->
  exists h it s' it',
    items (queue s) !! 0%nat = Some h /\ store s !! h = Some it /\
    Dequeue s = Some ((Value it, true), s') /\
    store s' !! h = Some it' /\ Index it' = -1 /\
    (forall s2 p, reach s' s2 ->
       UpdatePriority h p s2 = Some (tt, s2) /\
       Remove h s2 = Some ((zero, false), s2)).
Proof.
  intros Hb Hne. pose proof (built_positions_ok s Hb) as Hpos.
  assert (Hlen : (0 < length (items (queue s)))%nat).
  { destruct (items (queue s)); [congruence|simpl; lia]. }
  destruct (Dequeue_ok s Hpos Hlen) as (x & it & s' & Hd & Hx & Hit & Hrem & _).
  destruct (rem_index _ _ _ Hrem) as (it' & Hit' & Hidx').
  exists x, it, s', it'.
  split; [exact Hx|]. split; [exact Hit|]. split; [exact Hd|].
  split; [exact Hit'|]. split; [exact Hidx'|].
  intros s2 p Hreach.
  apply (marked_handle_safe s' s2 x it' p (rem_pos _ _ _ Hrem) Hit' Hidx' Hreach).
Qed.

(** X7 (Enqueue then Remove is a round trip).  In a built queue,
    removing the handle that [Enqueue(v, p)] has just returned gives back
    [v] with a true flag and leaves the queue with the pointers, the size
    and the pairs of value and priority it had before the [Enqueue]. *)
Theorem Enqueue_Remove_roundtrip s v p :
  built s ->
  exists h s1 s2,
    Enqueue v p s = Some (h, s1) /\
    Remove h s1 = Some ((v, true), s2) /\
    Permutation (items (queue s2)) (items (queue s)) /\
    Permutation (keys s2) (keys s) /\
    length (items (queue s2)) = length (items (queue s)).
Proof.
  intros Hb. pose proof (built_positions_ok s Hb) as Hpos.
  destruct (Enqueue_member s v p Hpos) as (s1 & it & He & Hins & Hit & Hv & Hp).
  set (h := length (store s)) in *.
  pose proof (ins_perm _ _ _ Hins) as Hperm. simpl in Hperm.
  pose proof (Enqueue_keys s v p s1 Hpos Hins) as Hkeys.
  assert (Hin : h ∈ items (queue s1)).
  { rewrite Hperm. apply elem_of_cons. auto. }
  destruct (Remove_member s1 h (ins_pos _ _ _ Hins) Hin) as (it1 & s2 & Hit1 & Hr & Hrem).
  assert (it1 = it) by congruence. subst it1.
  pose proof (rem_perm _ _ _ Hrem) as Hperm2.
  pose proof (removed_keys s1 h it s2 (ins_pos _ _ _ Hins) Hrem Hit) as Hkeys2.
  exists h, s1, s2. split; [exact He|].
  split; [rewrite <- Hv; exact Hr|].
  assert (Hitems : Permutation (items (queue s2)) (items (queue s))).
  { apply (Permutation_cons_inv (a := h)). rewrite <- Hperm2, Hperm. reflexivity. }
  split; [exact Hitems|].
  split; [|apply (Permutation_length Hitems)].
  apply (Permutation_cons_inv (a := (v, p))).
  rewrite <- Hkeys. rewrite Hkeys2. unfold key_of. rewrite Hv, Hp. reflexivity.
Qed.

(** X8 (raising an element to the top).  In a built queue whose policy is
    numeric or consistent, when [UpdatePriority] gives a handle of the
    slice a priority with which its item outranks every other element,
    the handle ends at the root: the next [Peek] and the next [Dequeue]
    return its value. *)
Theorem UpdatePriority_promotes s h it p :
  built s -> comparator (queue s) = None \/ consistent s ->
  h ∈ items (queue s) -> store s !! h = Some it ->
  (forall q a, q ∈ items (queue s) -> q <> h -> store s !! q = Some a ->
     ord s (mkItem (Value it) p (Index it)) a = true) ->
  exists s' s'',
    UpdatePriority h p s = Some (tt, s') /\
    items (queue s') !! 0%nat = Some h /\
    Peek s' = Some ((Value it, true), s') /\
    Dequeue s' = Some ((Value it, true), s'').
Proof.
  intros Hb Hc Hin Hit Hbest.
  assert (Hcons : consistent s).
  { destruct Hc as [Hn|Hc]; [apply numeric_consistent, Hn|exact Hc]. }
  pose proof (consistent_lt_of s Hcons) as SW.
  destruct (built_inv s Hb) as [Hpos Hheap]. specialize (Hheap SW).
  destruct (slot_of_member s h Hpos Hin) as (i & it0 & Hi & Hit0 & Hidx).
  assert (it0 = it) by congruence. subst it0.
  pose proof (lookup_lt_Some _ _ _ Hi) as Hlt.
  destruct (UpdatePriority_ok s h it p Hpos Hit ltac:(lia)) as (s' & Hu & Hre & Hheap').
  specialize (Hheap' SW Hheap).
  pose proof (rearr_pos _ _ _ Hre) as Hpos'.
  pose proof (rearr_length _ _ _ Hre) as Hlen'. simpl in Hlen'.
  assert (Hlt' : lt_of s' = lt_of s) by apply (rearr_lt_of _ _ _ Hre).
  assert (Hin' : h ∈ items (queue s')).
  { rewrite (rearr_perm _ _ _ Hre). exact Hin. }
  destruct (slot_of_member s' h Hpos' Hin') as (k & ith & Hk & Hith & _).
  assert (Hkeyh : key_of ith = (Value it, p)).
  { assert (H1 : store (prio_state s h it p) !! h = Some (mkItem (Value it) p (Index it))).
    { simpl. apply list_lookup_insert_eq. eapply lookup_lt_Some; eauto. }
    destruct (rearr_key _ _ _ Hre _ _ H1) as (x & Hx & Hv & Hp).
    assert (x = ith) by congruence. subst x. unfold key_of. simpl in *. congruence. }
  assert (Hk0 : k = 0%nat).
  { destruct (decide (k = 0%nat)) as [|Hne]; [assumption|]. exfalso.
    destruct (pos_lookup s' 0 Hpos' ltac:(lia)) as (q & aq' & Hq & Haq' & _).
    assert (Hqh : q <> h).
    { intros ->. apply Hne.
      apply (proj1 (NoDup_alt _) (pos_NoDup _ Hpos') k 0%nat h); assumption. }
    assert (Hqin : q ∈ items (queue s)).
    { rewrite <- (rearr_perm _ _ _ Hre). eapply list_elem_of_lookup_2; eauto. }
    destruct (pos_store s q Hpos Hqin) as (aq & Haq).
    assert (H1 : store (prio_state s h it p) !! q = Some aq).
    { simpl. rewrite list_lookup_insert_ne by congruence. exact Haq. }
    destruct (rearr_key _ _ _ Hre _ _ H1) as (x & Hx & Hv & Hp).
    assert (x = aq') by congruence. subst x.
    pose proof (lookup_lt_Some _ _ _ Hk) as Hkl.
    pose proof (heap_ok_root (lt_of s) SW (length (items (queue s))) (kat s') k
                  Hheap' ltac:(lia)) as Hroot.
    rewrite (kat_ptr _ _ _ _ Hk Hith), (kat_ptr _ _ _ _ Hq Haq'), Hkeyh in Hroot.
    specialize (Hbest q aq Hqin Hqh Haq).
    unfold ord in Hbest.
    replace (key_of aq') with (key_of aq) in Hroot by (unfold key_of; congruence).
    unfold lt_of, klt in Hroot. unfold outranks in Hbest, Hroot. simpl in *.
    congruence. }
  subst k.
  destruct (Peek_ok s' Hpos' ltac:(lia)) as (x & Hel & Hpk).
  rewrite (elem_ptr _ _ _ Hk) in Hel.
  assert (x = ith) by congruence. subst x.
  destruct (Dequeue_ok s' Hpos' ltac:(lia)) as (y & ity & s'' & Hd & Hy & Hity & _).
  assert (y = h) by congruence. subst y.
  assert (ity = ith) by congruence. subst ity.
  assert (Hval : Value ith = Value it) by (unfold key_of in Hkeyh; congruence).
  exists s', s''. split; [exact Hu|]. split; [exact Hk|].
  rewrite <- Hval. split; assumption.
Qed.

(** ** Enqueues and dequeues under any consistent policy *)

Lemma order_from_empty st c mx l k :
  strict_weak (klt c mx) ->
  exists s1 s2 sorted,
    enqueue_all l (fresh st c mx) = Some (tt, s1) /\
    Permutation sorted l /\
    StronglySorted (fun a b => klt c mx b a = false) sorted /\
    dequeue_n k s1 =
    Some (map (fun e => (fst e, true)) (take k sorted)
            ++ replicate (k - length l) (zero, false), s2).
Proof.
  intros SW. set (s0 := fresh st c mx).
  assert (Hpos0 : positions_ok s0) by (intros i q Hi; simpl in Hi; discriminate).
  destruct (enqueue_all_ok l s0 Hpos0) as (s1 & Hall & Hpos1 & Hc & Hm & Hperm & Hheap).
  assert (Hlt : lt_of s1 = klt c mx).
  { unfold lt_of. rewrite Hc, Hm. reflexivity. }
  assert (Hlen : length (items (queue s1)) = length l).
  { rewrite <- keys_length, Hperm. unfold keys. simpl. rewrite app_nil_r. reflexivity. }
  destruct (drain_sorted (length l) s1 Hlen Hpos1) as (sorted & Hps & Hss & Hdeq).
  { rewrite Hlt. exact SW. }
  { rewrite Hlt. apply Hheap; [exact SW|].
    intros p q Hch Hcl. simpl in Hcl. lia. }
  destruct (Hdeq k) as (s2 & Hk).
  exists s1, s2, sorted. split; [exact Hall|].
  split; [rewrite Hps, Hperm; unfold keys; simpl; rewrite app_nil_r; reflexivity|].
  split; [rewrite <- Hlt; exact Hss|exact Hk].
Qed.

Lemma three_way_strict_weak cmp mx : three_way cmp -> strict_weak (klt (Some cmp) mx).
Proof.
  intros H3.
  apply (consistent_lt_of (fresh [] (Some cmp) mx)).
  apply (three_way_consistent _ cmp); [reflexivity|exact H3].
Qed.

(** X9 (order under a custom comparator).  With a three-way comparator
    that is a consistent order, whatever pairs are enqueued into a queue
    made by [NewWithComparator], the dequeues return the values in the
    comparator's order: non-decreasing when the flag is false,
    non-increasing when it is true; further dequeues report an empty
    queue. *)
Theorem comparator_dequeue_order (st : list Item) cmp mx
    (l : list (T * Z)) (k : nat) :
  three_way cmp ->
  exists s0 s1 s2 sorted,
    NewWithComparator st cmp mx = Some (tt, s0) /\
    enqueue_all l s0 = Some (tt, s1) /\
    Permutation sorted l /\
    StronglySorted (fun a b => if mx then cmp (fst a) (fst b) >= 0
                               else cmp (fst a) (fst b) <= 0) sorted /\
    dequeue_n k s1 =
    Some (map (fun e => (fst e, true)) (take k sorted)
            ++ replicate (k - length l) (zero, false), s2).
Proof.
  intros H3.
  destruct (order_from_empty st (Some cmp) mx l k (three_way_strict_weak cmp mx H3))
    as (s1 & s2 & sorted & Hall & Hp & Hs & Hd).
  exists (fresh st (Some cmp) mx), s1, s2, sorted.
  split; [apply heap_Init_empty; reflexivity|].
  repeat split; try assumption.
  eapply StronglySorted_weaken; [|exact Hs].
  intros a b. unfold klt, outranks. simpl.
  destruct H3 as [Hflip _].
  pose proof (Hflip (fst a) (fst b)). pose proof (Hflip (fst b) (fst a)).
  destruct mx; lia.
Qed.

(** X10 (Clear makes any queue new again).  From any state, even one in
    which the slice or the items have been tampered with, [Clear] returns
    and leaves an empty slice without writing to any item; if the policy
    is numeric or consistent, enqueues and dequeues after it behave as on
    a new queue: the values come out in rank order. *)
Theorem Clear_renews s (l : list (T * Z)) (k : nat) :
  comparator (queue s) = None \/ consistent s ->
  exists s0 s1 s2 sorted,
    Clear s = Some (tt, s0) /\
    store s0 = store s /\ items (queue s0) = [] /\
    enqueue_all l s0 = Some (tt, s1) /\
    Permutation sorted l /\
    StronglySorted (fun a b => lt_of s b a = false) sorted /\
    dequeue_n k s1 =
    Some (map (fun e => (fst e, true)) (take k sorted)
            ++ replicate (k - length l) (zero, false), s2).
Proof.
  intros Hc.
  assert (Hcons : consistent s).
  { destruct Hc as [Hn|Hc]; [apply numeric_consistent, Hn|exact Hc]. }
  pose proof (consistent_lt_of s Hcons) as SW.
  destruct (order_from_empty (store s) (comparator (queue s)) (isMaxHeap (queue s)) l k SW)
    as (s1 & s2 & sorted & Hall & Hp & Hs & Hd).
  exists (cleared_state s), s1, s2, sorted.
  split; [apply Clear_eq|]. split; [reflexivity|]. split; [reflexivity|].
  split; [exact Hall|]. split; [exact Hp|]. split; [exact Hs|exact Hd].
Qed.

(** ** [ToSlice] *)

(** X11 (ToSlice is a faithful snapshot).  In a built queue [ToSlice]
    returns without changing the state; the copy has [Size] entries, the
    entry at position [i] is the item of slot [i] and so records [i] as
    its [Index], and the pairs of value and priority are those of the
    queue in slice order. *)
Theorem ToSlice_snapshot s :
  built s ->
  exists l, ToSlice s = Some (l, s) /\
            length l = length (items (queue s)) /\
            (forall i, l !! i = elem s i) /\
            (forall (i : nat) it, l !! i = Some it -> Index it = Z.of_nat i) /\
            map key_of l = keys s.
Proof.
  intros Hb. pose proof (built_positions_ok s Hb) as Hpos.
  unfold ToSlice.
  destruct (mapM (fun p => store s !! p) (items (queue s))) as [l|] eqn:E.
  - apply mapM_Some in E.
    assert (Hlook : forall i, l !! i = elem s i).
    { intros i. unfold elem.
      destruct (items (queue s) !! i) as [p|] eqn:Ep.
      - destruct (Forall2_lookup_l _ _ _ _ _ E Ep) as (y & Hy & Hp). congruence.
      - apply lookup_ge_None. apply lookup_ge_None in Ep.
        rewrite <- (Forall2_length _ _ _ E). exact Ep. }
    exists l. split; [reflexivity|].
    split; [symmetry; apply (Forall2_length _ _ _ E)|].
    split; [exact Hlook|].
    split.
    + intros i it Hi. rewrite Hlook in Hi. unfold elem in Hi.
      destruct (items (queue s) !! i) as [p|] eqn:Ep; [|discriminate].
      destruct (Hpos _ _ Ep) as (a & Ha & Hidx). congruence.
    + unfold keys. apply list_eq. intros i.
      rewrite !list_lookup_fmap, Hlook. unfold elem.
      destruct (items (queue s) !! i) as [p|] eqn:Ep; simpl; [|reflexivity].
      destruct (Hpos _ _ Ep) as (a & Ha & _). rewrite Ha. reflexivity.
  - exfalso. apply mapM_None in E. 
    apply Exists_exists in E as (p & Hin & Hnone).
    destruct (pos_store s p Hpos Hin) as (a & Ha). congruence.
Qed.

(** ** The [heap.Interface] methods, called directly *)

Lemma bind_Some_inv {A B} (m : M A) (k : A -> M B) s r :
  bind m k s = Some r -> exists a s1, m s = Some (a, s1) /\ k a s1 = Some r.
Proof.
  unfold bind. destruct (m s) as [[a s1]|]; [|discriminate].
  intros H. exists a, s1. auto.
Qed.

Lemma item_at_inv s i p s1 :
  item_at i s = Some (p, s1) ->
  0 <= i < Z.of_nat (length (items (queue s))) /\ s1 = s.
Proof.
  unfold item_at. destruct (Z.ltb_spec i 0); [discriminate|].
  destruct (items (queue s) !! Z.to_nat i) as [q|] eqn:E; [|discriminate].
  intros Heq. apply lookup_lt_Some in E. split; [lia|congruence].
Qed.

Lemma Item_eta (a : Item) i : Index a = i -> mkItem (Value a) (Priority a) i = a.
Proof. destruct a. simpl. intros ->. reflexivity. Qed.

(** X12 (bounds of the raw methods).  In a built queue [Less(i, j)] and
    [Swap(i, j)] return exactly when both indices are within the slice,
    and [Pop] returns exactly when the slice is not empty; otherwise they
    panic.  [Less] never changes the state. *)
Theorem raw_methods_bounds s i j :
  built s ->
  (is_Some (Less i j s) <->
     0 <= i < Z.of_nat (length (items (queue s))) /\
     0 <= j < Z.of_nat (length (items (queue s)))) /\
  (forall b s1, Less i j s = Some (b, s1) -> s1 = s) /\
  (is_Some (Swap i j s) <->
     0 <= i < Z.of_nat (length (items (queue s))) /\
     0 <= j < Z.of_nat (length (items (queue s)))) /\
  (is_Some (Pop s) <-> items (queue s) <> []).
Proof.
  intros Hb. pose proof (built_positions_ok s Hb) as Hpos.
  assert (HLess : forall b s1, Less i j s = Some (b, s1) ->
            (0 <= i < Z.of_nat (length (items (queue s))) /\
             0 <= j < Z.of_nat (length (items (queue s)))) /\ s1 = s).
  { intros b s1 H. unfold Less in H.
    apply bind_Some_inv in H as (a & t1 & H1 & H).
    apply item_at_inv in H1 as [Hi ->].
    apply bind_Some_inv in H as (x & t2 & H2 & H).
    unfold load in H2. destruct (store s !! a); [|discriminate].
    inversion H2; subst x t2.
    apply bind_Some_inv in H as (c & t3 & H3 & H).
    apply item_at_inv in H3 as [Hj ->].
    apply bind_Some_inv in H as (y & t4 & H4 & H).
    unfold load in H4. destruct (store s !! c); [|discriminate].
    inversion H4; subst y t4. inversion H; subst s1.
    split; [split; assumption|reflexivity]. }
  split; [split|].
  - intros [[b s1] H]. apply (HLess b s1 H).
  - intros [Hi Hj].
    replace i with (Z.of_nat (Z.to_nat i)) by lia.
    replace j with (Z.of_nat (Z.to_nat j)) by lia.
    rewrite (Less_ok s (Z.to_nat i) (Z.to_nat j) Hpos ltac:(lia) ltac:(lia)). eauto.
  - split; [intros b s1 H; apply (HLess b s1 H)|].
    split; [split|].
    + intros [[u s1] H]. unfold Swap in H.
      apply bind_Some_inv in H as (a & t1 & H1 & H).
      apply item_at_inv in H1 as [Hj ->].
      apply bind_Some_inv in H as (c & t2 & H2 & H).
      apply item_at_inv in H2 as [Hi ->]. auto.
    + intros [Hi Hj].
      replace i with (Z.of_nat (Z.to_nat i)) by lia.
      replace j with (Z.of_nat (Z.to_nat j)) by lia.
      destruct (Swap_ok s (Z.to_nat i) (Z.to_nat j) Hpos ltac:(lia) ltac:(lia))
        as (s1 & Hsw & _). rewrite Hsw. eauto.
    + split.
      * intros [[x s1] H] Hnil. unfold Pop in H.
        apply bind_Some_inv in H as (n & t1 & H1 & H).
        rewrite len_eq in H1. inversion H1; subst n t1.
        apply bind_Some_inv in H as (a & t2 & H2 & H).
        apply item_at_inv in H2 as [Hr _]. rewrite Hnil in Hr. simpl in Hr. lia.
      * intros Hne.
        assert (Hlen : (length (items (queue s)) - 1 < length (items (queue s)))%nat).
        { destruct (items (queue s)); [congruence|simpl; lia]. }
        destruct (pos_lookup s _ Hpos Hlen) as (x & a & Hx & Ha & _).
        rewrite (Pop_eq s x a Hx Ha). eauto.
Qed.

(** X13 (Swap twice is the identity).  In a built queue, exchanging two
    slots within the slice and exchanging them again restores the whole
    state, the [Index] fields included. *)
Theorem Swap_involution s i j :
  built s ->
  0 <= i < Z.of_nat (length (items (queue s))) ->
  0 <= j < Z.of_nat (length (items (queue s))) ->
  (Swap i j >> Swap i j) s = Some (tt, s).
Proof.
  intros Hb Hi Hj. pose proof (built_positions_ok s Hb) as Hpos.
  replace i with (Z.of_nat (Z.to_nat i)) by lia.
  replace j with (Z.of_nat (Z.to_nat j)) by lia.
  set (m := Z.to_nat i). set (n := Z.to_nat j).
  destruct (pos_lookup s m Hpos ltac:(lia)) as (p & a & Hp & Ha & Hia).
  destruct (pos_lookup s n Hpos ltac:(lia)) as (q & b & Hq & Hb' & Hib).
  pose proof (proj1 (NoDup_alt _) (pos_NoDup _ Hpos)) as Hinj.
  pose proof (lookup_lt_Some _ _ _ Ha) as Lp.
  pose proof (lookup_lt_Some _ _ _ Hb') as Lq.
  pose proof (lookup_lt_Some _ _ _ Hp) as Lm.
  pose proof (lookup_lt_Some _ _ _ Hq) as Ln.
  rewrite (bind_Some _ _ _ _ _ (Swap_eq s m n p q a b Hp Hq Ha Hb')).
  set (s1 := swapped_state s m n p q a b).
  assert (Hm1 : items (queue s1) !! m = Some q).
  { unfold s1. simpl. rewrite (swap_lookup _ _ _ _ _ _ Hp Hq), transp_l. exact Hq. }
  assert (Hn1 : items (queue s1) !! n = Some p).
  { unfold s1. simpl. rewrite (swap_lookup _ _ _ _ _ _ Hp Hq), transp_r. exact Hp. }
  assert (Hq1 : store s1 !! q =
                Some (mkItem (Value b) (Priority b) (if decide (q = p) then Z.of_nat n else Z.of_nat m))).
  { unfold s1. simpl. destruct (decide (q = p)) as [->|Hne].
    - rewrite list_lookup_insert_eq by (rewrite length_insert; exact Lp).
      assert (a = b) by congruence. subst b. reflexivity.
    - rewrite list_lookup_insert_ne by congruence.
      rewrite list_lookup_insert_eq by exact Lq. reflexivity. }
  assert (Hp1 : store s1 !! p = Some (mkItem (Value a) (Priority a) (Z.of_nat n))).
  { unfold s1. simpl.
    rewrite list_lookup_insert_eq by (rewrite length_insert; exact Lp). reflexivity. }
  rewrite (Swap_eq s1 m n q p _ _ Hm1 Hn1 Hq1 Hp1).
  f_equal. f_equal. unfold swapped_state. simpl.
  destruct s as [st [its c mx]]. simpl in *. f_equal.
  - apply list_eq. intros r.
    destruct (decide (r = q)) as [->|Hrq].
    + rewrite list_lookup_insert_eq by (rewrite !length_insert; exact Lq).
      rewrite Hb'. f_equal. apply Item_eta. exact Hib.
    + rewrite list_lookup_insert_ne by congruence.
      destruct (decide (r = p)) as [->|Hrp].
      * rewrite list_lookup_insert_eq by (rewrite !length_insert; exact Lp).
        rewrite Ha. f_equal. apply Item_eta. exact Hia.
      * rewrite !list_lookup_insert_ne by congruence. reflexivity.
  - f_equal. apply list_eq. intros r.
    rewrite (swap_lookup _ m n q p r); cycle 1.
    { rewrite (swap_lookup _ _ _ _ _ _ Hp Hq), transp_l. exact Hq. }
    { rewrite (swap_lookup _ _ _ _ _ _ Hp Hq), transp_r. exact Hp. }
    rewrite (swap_lookup _ _ _ _ _ _ Hp Hq), transp_invol. reflexivity.
Qed.

(** X14 (Push then Pop is a round trip).  Pushing an allocated item and
    popping at once returns that very item and restores the slice; of the
    store only the item's [Index] has changed, to [-1]. *)
Theorem Push_Pop_roundtrip s x it :
  store s !! x = Some it ->
  (Push x >> Pop) s =
  Some (x, mkState (<[x := mkItem (Value it) (Priority it) (-1)]> (store s))
                   (queue s)).
Proof.
  intros Hx. pose proof (lookup_lt_Some _ _ _ Hx) as Lx.
  rewrite (bind_Some _ _ _ _ _ (Push_eq s x it Hx)).
  set (s1 := pushed_state s x it).
  assert (Hlast : items (queue s1) !! (length (items (queue s1)) - 1)%nat = Some x).
  { unfold s1. simpl. rewrite length_app. simpl.
    rewrite lookup_app_r by lia.
    replace (length (items (queue s)) + 1 - 1 - length (items (queue s)))%nat
      with 0%nat by lia. reflexivity. }
  assert (Hx1 : store s1 !! x =
                Some (mkItem (Value it) (Priority it)
                             (Z.of_nat (length (items (queue s)))))).
  { unfold s1. simpl. apply list_lookup_insert_eq, Lx. }
  rewrite (Pop_eq s1 x _ Hlast Hx1).
  f_equal. f_equal. unfold popped_state, s1. simpl.
  destruct s as [st [its c mx]]. simpl. f_equal.
  - apply list_insert_insert_eq.
  - f_equal. rewrite length_app. simpl.
    replace (length its + 1 - 1)%nat with (length its) by lia.
    apply take_app_length.
Qed.

(** ** [heap.Fix] on a heap, and [UpdatePriority] that changes no rank *)

Lemma up_on_heap s (j n : nat) :
  positions_ok s -> heap_ok (lt_of s) n (kat s) ->
  (j < n)%nat -> (n <= length (items (queue s)))%nat ->
  up (Z.of_nat j) s = Some (tt, s).
Proof.
  intros Hpos Hheap Hj Hn. unfold up. rewrite up_loop_S, parent_quot. cbv zeta.
  destruct (Z.eqb_spec (Z.of_nat (parent j)) (Z.of_nat j)) as [Heq|Hne]; [reflexivity|].
  assert (Hj0 : j <> 0%nat) by (intros ->; apply Hne; reflexivity).
  pose proof (parent_lt j Hj0) as Hplt.
  rewrite (bind_Some _ _ _ _ _ (Less_ok s j (parent j) Hpos ltac:(lia) ltac:(lia))).
  rewrite (Hheap (parent j) j (child_parent j Hj0) Hj). reflexivity.
Qed.

Lemma down_on_heap s (i n : nat) :
  positions_ok s -> heap_ok (lt_of s) n (kat s) ->
  (n <= length (items (queue s)))%nat ->
  down (Z.of_nat i) (Z.of_nat n) s = Some (false, s).
Proof.
  intros Hpos Hheap Hn. unfold down. rewrite down_loop_S. cbv zeta.
  replace (2 * Z.of_nat i + 1) with (Z.of_nat (2 * i + 1)) by lia.
  replace (Z.of_nat (2 * i + 1) + 1) with (Z.of_nat (2 * i + 2)) by lia.
  destruct (Z.ltb_spec (Z.of_nat (2 * i + 1)) 0) as [Hneg|_]; [lia|].
  rewrite orb_false_r.
  assert (Hret : forall t : State, (let* k := ret (Z.of_nat i) in ret (k >? Z.of_nat i)) t
                                   = Some (false, t)).
  { intros t. unfold bind, ret. rewrite Z.gtb_ltb, Z.ltb_irrefl. reflexivity. }
  destruct (Z.geb_spec (Z.of_nat (2 * i + 1)) (Z.of_nat n)) as [Hge|Hlt1];
    [apply Hret|].
  destruct (pick_child s i n Hpos ltac:(lia) Hn) as (j & Hpick & Hchild & Hjn & _).
  pose proof (child_lt _ _ Hchild) as Hij.
  unfold bind at 1.
  rewrite (bind_Some _ _ _ _ _ Hpick).
  rewrite (bind_Some _ _ _ _ _ (Less_ok s j i Hpos ltac:(lia) ltac:(lia))).
  rewrite (Hheap i j Hchild Hjn). simpl.
  unfold ret. rewrite Z.gtb_ltb, Z.ltb_irrefl. reflexivity.
Qed.

Lemma heap_Fix_on_heap s (i : nat) :
  positions_ok s ->
  heap_ok (lt_of s) (length (items (queue s))) (kat s) ->
  (i < length (items (queue s)))%nat ->
  heap_Fix (Z.of_nat i) s = Some (tt, s).
Proof.
  intros Hpos Hheap Hi. unfold heap_Fix, Len.
  rewrite (bind_Some _ _ _ _ _ (len_eq s)).
  rewrite (bind_Some _ _ _ _ _ (down_on_heap s i _ Hpos Hheap ltac:(lia))).
  simpl. apply (up_on_heap s i _ Hpos Hheap Hi). lia.
Qed.

Lemma prio_kat_off s h it p m :
  h ∉ items (queue s) -> kat (prio_state s h it p) m = kat s m.
Proof.
  intros Hh. unfold kat, elem. simpl.
  destruct (items (queue s) !! m) as [q|] eqn:E; [|reflexivity].
  rewrite list_lookup_insert_ne; [reflexivity|].
  intros ->. apply Hh. eapply list_elem_of_lookup_2; eauto.
Qed.

(** X15 (UpdatePriority through a handle that is not in the queue).  In a
    built queue whose policy is numeric or consistent, [UpdatePriority]
    on an allocated handle that does not sit in the slice, whatever its
    [Index] says, leaves the queue and every other item exactly as they
    were; at most the handle's own [Priority] is written. *)
Theorem UpdatePriority_off_slice s h it p :
  built s -> comparator (queue s) = None \/ consistent s ->
  store s !! h = Some it -> h ∉ items (queue s) ->
  exists s' it',
    UpdatePriority h p s = Some (tt, s') /\
    queue s' = queue s /\
    (forall q, q <> h -> store s' !! q = store s !! q) /\
    store s' !! h = Some it' /\ Value it' = Value it /\ Index it' = Index it.
Proof.
  intros Hb Hc Hh Hoff.
  assert (Hcons : consistent s).
  { destruct Hc as [Hn|Hc]; [apply numeric_consistent, Hn|exact Hc]. }
  pose proof (consistent_lt_of s Hcons) as SW.
  destruct (built_inv s Hb) as [Hpos Hheap]. specialize (Hheap SW).
  destruct (decide (0 <= Index it < Z.of_nat (length (items (queue s))))) as [Hin|Hout].
  - exists (prio_state s h it p), (mkItem (Value it) p (Index it)).
    split.
    + unfold UpdatePriority.
      rewrite (bind_Some _ _ _ _ _ (load_ok _ _ _ Hh)).
      rewrite (bind_Some _ _ _ _ _ (len_eq s)).
      destruct (Z.ltb_spec (Index it) 0); [lia|].
      destruct (Z.geb_spec (Index it) (Z.of_nat (length (items (queue s))))); [lia|].
      simpl.
      rewrite (bind_Some _ _ _ _ _ (set_Priority_ok _ _ _ p Hh)).
      fold (prio_state s h it p).
      assert (Hh1 : store (prio_state s h it p) !! h
                    = Some (mkItem (Value it) p (Index it))).
      { simpl. apply list_lookup_insert_eq. eapply lookup_lt_Some; eauto. }
      rewrite (bind_Some _ _ _ _ _ (load_ok _ _ _ Hh1)). simpl.
      assert (Hfix := heap_Fix_on_heap (prio_state s h it p) (Z.to_nat (Index it))).
      rewrite Z2Nat.id in Hfix by lia. apply Hfix.
      * apply prio_pos; assumption.
      * eapply heap_ok_ext; [|exact Hheap]. intros m _. apply prio_kat_off, Hoff.
      * simpl. lia.
    + split; [reflexivity|]. split.
      * intros q Hq. simpl. apply list_lookup_insert_ne. congruence.
      * split; [simpl; apply list_lookup_insert_eq; eapply lookup_lt_Some; eauto|].
        split; reflexivity.
  - exists s, it. split; [apply (UpdatePriority_stale s h it p Hh); lia|].
    repeat split; auto.
Qed.

(** X16 (UpdatePriority with the priority the item already has).  In a
    built queue whose policy is numeric or consistent, [UpdatePriority]
    with a handle's current priority changes nothing at all. *)
Theorem UpdatePriority_same s h it :
  built s -> comparator (queue s) = None \/ consistent s ->
  store s !! h = Some it ->
  UpdatePriority h (Priority it) s = Some (tt, s).
Proof.
  intros Hb Hc Hh.
  assert (Hcons : consistent s).
  { destruct Hc as [Hn|Hc]; [apply numeric_consistent, Hn|exact Hc]. }
  pose proof (consistent_lt_of s Hcons) as SW.
  destruct (built_inv s Hb) as [Hpos Hheap]. specialize (Hheap SW).
  destruct (decide (0 <= Index it < Z.of_nat (length (items (queue s))))) as [Hin|Hout];
    [|apply (UpdatePriority_stale s h it _ Hh); lia].
  assert (Hsame : prio_state s h it (Priority it) = s).
  { unfold prio_state. destruct s as [st qu]. simpl in *. f_equal.
    rewrite (Item_eta it (Index it) eq_refl). apply list_insert_id. exact Hh. }
  unfold UpdatePriority.
  rewrite (bind_Some _ _ _ _ _ (load_ok _ _ _ Hh)).
  rewrite (bind_Some _ _ _ _ _ (len_eq s)).
  destruct (Z.ltb_spec (Index it) 0); [lia|].
  destruct (Z.geb_spec (Index it) (Z.of_nat (length (items (queue s))))); [lia|].
  simpl.
  rewrite (bind_Some _ _ _ _ _ (set_Priority_ok _ _ _ (Priority it) Hh)).
  fold (prio_state s h it (Priority it)). rewrite Hsame.
  rewrite (bind_Some _ _ _ _ _ (load_ok _ _ _ Hh)).
  assert (Hfix := heap_Fix_on_heap s (Z.to_nat (Index it))).
  rewrite Z2Nat.id in Hfix by lia.
  apply Hfix; [assumption|assumption|lia].
Qed.

(** ** The drain loop *)

Lemma IsEmpty_eq s :
  IsEmpty s = Some (Z.of_nat (length (items (queue s))) =? 0, s).
Proof. reflexivity. Qed.

Lemma drain_loop_ok n : forall s fuel,
  length (items (queue s)) = n ->
  positions_ok s -> strict_weak (lt_of s) ->
  heap_ok (lt_of s) (length (items (queue s))) (kat s) ->
  (n < fuel)%nat ->
  exists sorted s',
    drain_loop fuel s = Some (map fst sorted, s') /\
    Permutation sorted (keys s) /\
    StronglySorted (fun a b => lt_of s b a = false) sorted /\
    items (queue s') = [] /\
    comparator (queue s') = comparator (queue s) /\
    isMaxHeap (queue s') = isMaxHeap (queue s).
Proof.
  induction n as [|n IH]; intros s fuel Hlen Hpos SW Hheap Hf;
    (destruct fuel as [|fuel]; [lia|]); simpl drain_loop;
    rewrite (bind_Some _ _ _ _ _ (IsEmpty_eq s)), Hlen.
  - exists [], s. apply length_zero_iff_nil in Hlen.
    split; [reflexivity|]. split; [unfold keys; rewrite Hlen; reflexivity|].
    split; [constructor|]. auto.
  - change (Z.of_nat (S n) =? 0) with false. cbv iota.
    destruct (Dequeue_ok s Hpos ltac:(lia))
      as (x & it & s1 & Hd & Hx & Hit & Hrem & Hheap1).
    pose proof (removed_length _ _ _ Hrem) as Hl.
    assert (Hlt : lt_of s1 = lt_of s).
    { unfold lt_of. rewrite (rem_cmp _ _ _ Hrem), (rem_max _ _ _ Hrem). reflexivity. }
    destruct (IH s1 fuel ltac:(lia) (rem_pos _ _ _ Hrem) ltac:(rewrite Hlt; exact SW))
      as (sorted' & s' & Hdr & Hperm' & Hsorted' & Hnil & Hc & Hm); [|lia|].
    { rewrite Hlt. replace (length (items (queue s1)))
        with (length (items (queue s)) - 1)%nat by lia.
      apply Hheap1; assumption. }
    pose proof (removed_keys s x it s1 Hpos Hrem Hit) as Hkeys.
    exists (key_of it :: sorted'), s'.
    rewrite (bind_Some _ _ _ _ _ Hd), (bind_Some _ _ _ _ _ Hdr).
    split; [reflexivity|].
    split; [rewrite Hkeys, Hperm'; reflexivity|].
    split.
    + constructor; [rewrite <- Hlt; exact Hsorted'|].
      apply List.Forall_forall. intros b Hb.
      assert (Hbs : b ∈ keys s).
      { rewrite Hkeys. apply elem_of_cons. right.
        rewrite <- Hperm'. apply list_elem_of_In. exact Hb. }
      destruct (keys_elem s b Hbs) as (m & Hm' & ->).
      rewrite <- (kat_ptr s 0 x it Hx Hit).
      apply heap_ok_root with (n := length (items (queue s))); assumption.
    + split; [exact Hnil|].
      rewrite Hc, Hm. split; apply Hrem.
Qed.

(** X17 (the drain loop of the examples).  On a built queue whose policy
    is numeric or consistent, the loop that dequeues while [IsEmpty] is
    false stops after as many rounds as the queue has elements: with more
    fuel than elements it returns, every [Dequeue] in it succeeds, the
    values it sees are those of the queue in rank order, and the queue is
    empty afterwards. *)
Theorem drain_loop_processes_all s fuel :
  built s -> comparator (queue s) = None \/ consistent s ->
  (length (items (queue s)) < fuel)%nat ->
  exists sorted s',
    drain_loop fuel s = Some (map fst sorted, s') /\
    Permutation sorted (keys s) /\
    StronglySorted (fun a b => lt_of s b a = false) sorted /\
    items (queue s') = [].
Proof.
  intros Hb Hc Hf.
  assert (Hcons : consistent s).
  { destruct Hc as [Hn|Hc]; [apply numeric_consistent, Hn|exact Hc]. }
  pose proof (consistent_lt_of s Hcons) as SW.
  destruct (built_inv s Hb) as [Hpos Hheap]. specialize (Hheap SW).
  destruct (drain_loop_ok _ s fuel eq_refl Hpos SW Hheap Hf)
    as (sorted & s' & H1 & H2 & H3 & H4 & _).
  eauto 10.
Qed.

(** ** Handles when [Clear] is not used *)

Lemma bwc_built n0 s : built_without_Clear n0 s -> built s.
Proof.
  induction 1 as [st s _ H|st s _ H|st cmp mx s _ H|s o r s' _ IH Hok _ Hrun].
  - eapply built_New; eauto.
  - eapply built_NewMax; eauto.
  - eapply built_NewWithComparator; eauto.
  - eapply built_step; eauto.
Qed.

Lemma tracked_step n0 s o r s' :
  positions_ok s -> handles_tracked n0 s -> handles_ok s o ->
  is_Clear o = false -> run_op o s = Some (r, s') ->
  handles_tracked n0 s'.
Proof.
  intros Hpos [Hn0 Htr] Hok Hnc Hrun.
  (* an item that was marked stays marked *)
  assert (Hmarked : forall h it it', store s !! h = Some it -> Index it = -1 ->
                      store s' !! h = Some it' -> Index it' = -1).
  { intros h it it' Hit Hidx Hit'.
    destruct (marked_handle_kept s o h it Hpos Hit Hidx Hok) as (r1 & s1 & Hrun1 & Hkept).
    assert (s1 = s') by congruence. subst s1. congruence. }
  destruct o as [v p| |h0 p|h0|]; simpl in *; try discriminate.
  - destruct (Enqueue_ok s v p Hpos) as (s1 & He & Hins & _).
    rewrite (bind_Some _ _ _ _ _ He) in Hrun. inversion Hrun; subst r s1.
    pose proof (ins_store_len _ _ _ Hins) as Hlen. simpl in Hlen.
    rewrite length_app in Hlen. simpl in Hlen.
    split; [lia|]. intros h it' Hge Hit'.
    pose proof (lookup_lt_Some _ _ _ Hit') as Lh'.
    destruct (decide (h = length (store s))) as [->|Hne].
    + right. rewrite (ins_perm _ _ _ Hins). apply elem_of_cons. auto.
    + destruct (lookup_lt_is_Some_2 (store s) h ltac:(lia)) as [it Hit].
      destruct (Htr h it Hge Hit) as [Hidx|Hin]; [left; eauto|].
      right. rewrite (ins_perm _ _ _ Hins). apply elem_of_cons. auto.
  - destruct (decide (length (items (queue s)) = 0%nat)) as [E|E].
    + apply length_zero_iff_nil in E.
      rewrite (bind_Some _ _ _ _ _ (Dequeue_empty s E)) in Hrun.
      inversion Hrun; subst r s'. split; assumption.
    + destruct (Dequeue_ok s Hpos ltac:(lia)) as (x & a & s1 & Hd & _ & _ & Hrem & _).
      rewrite (bind_Some _ _ _ _ _ Hd) in Hrun. inversion Hrun; subst r s1.
      pose proof (rem_store_len _ _ _ Hrem) as Hlen.
      split; [lia|]. intros h it' Hge Hit'.
      pose proof (lookup_lt_Some _ _ _ Hit') as Lh'.
      destruct (lookup_lt_is_Some_2 (store s) h ltac:(lia)) as [it Hit].
      destruct (Htr h it Hge Hit) as [Hidx|Hin]; [left; eauto|].
      rewrite (rem_perm _ _ _ Hrem) in Hin. apply elem_of_cons in Hin as [->|Hin].
      * left. destruct (rem_index _ _ _ Hrem) as (b & Hb & Hib). congruence.
      * right. exact Hin.
  - destruct (valid_handle_lookup s h0 Hok) as (a & Ha).
    destruct (decide (0 <= Index a < Z.of_nat (length (items (queue s))))) as [Hin0|Hout].
    + destruct (UpdatePriority_ok s h0 a p Hpos Ha Hin0) as (s1 & Hu & Hre & _).
      rewrite (bind_Some _ _ _ _ _ Hu) in Hrun. inversion Hrun; subst r s1.
      pose proof (rearr_store_len _ _ _ Hre) as Hlen. simpl in Hlen.
      rewrite length_insert in Hlen.
      split; [lia|]. intros h it' Hge Hit'.
      pose proof (lookup_lt_Some _ _ _ Hit') as Lh'.
      destruct (lookup_lt_is_Some_2 (store s) h ltac:(lia)) as [it Hit].
      destruct (Htr h it Hge Hit) as [Hidx|Hin]; [left; eauto|].
      right. rewrite (rearr_perm _ _ _ Hre). exact Hin.
    + rewrite (bind_Some _ _ _ _ _ (UpdatePriority_stale s h0 a p Ha ltac:(lia))) in Hrun.
      inversion Hrun; subst r s'. split; assumption.
  - destruct (valid_handle_lookup s h0 Hok) as (a & Ha).
    destruct (decide (0 <= Index a < Z.of_nat (length (items (queue s))))) as [Hin0|Hout].
    + destruct (Remove_ok s h0 a Hpos Ha Hin0) as (x & ax & s1 & Hr & _ & _ & Hrem & _).
      rewrite (bind_Some _ _ _ _ _ Hr) in Hrun. inversion Hrun; subst r s1.
      pose proof (rem_store_len _ _ _ Hrem) as Hlen.
      split; [lia|]. intros h it' Hge Hit'.
      pose proof (lookup_lt_Some _ _ _ Hit') as Lh'.
      destruct (lookup_lt_is_Some_2 (store s) h ltac:(lia)) as [it Hit].
      destruct (Htr h it Hge Hit) as [Hidx|Hin]; [left; eauto|].
      rewrite (rem_perm _ _ _ Hrem) in Hin. apply elem_of_cons in Hin as [->|Hin].
      * left. destruct (rem_index _ _ _ Hrem) as (b & Hb & Hib). congruence.
      * right. exact Hin.
    + rewrite (bind_Some _ _ _ _ _ (Remove_stale s h0 a Ha ltac:(lia))) in Hrun.
      inversion Hrun; subst r s'. split; assumption.
Qed.

Lemma fresh_tracked st c mx : handles_tracked (length st) (fresh st c mx).
Proof.
  split; [simpl; lia|]. intros h it Hge Hh. simpl in Hh.
  apply lookup_lt_Some in Hh. lia.
Qed.

Lemma bwc_tracked n0 s : built_without_Clear n0 s -> handles_tracked n0 s.
Proof.
  induction 1 as [st s <- H|st s <- H|st cmp mx s <- H|s o r s' Hb IH Hok Hnc Hrun].
  - apply fresh_built in H. subst s. apply fresh_tracked.
  - apply fresh_built in H. subst s. apply fresh_tracked.
  - apply fresh_built in H. subst s. apply fresh_tracked.
  - eapply tracked_step; eauto. eapply built_positions_ok, bwc_built, Hb.
Qed.

(** X18 (handles are exact when Clear is not used).  Take a queue made
    by a constructor, run when the program had allocated [n0] items, and
    operations other than [Clear], with any allocated items as handles.
    Every handle that [Enqueue] has returned (the addresses from [n0] on)
    either sits in the slice at the slot its [Index] records, and then
    [Remove] on it returns its own value and takes out that very handle,
    or it is marked [-1] and is not in the slice, and then [Remove]
    reports that nothing was found and [UpdatePriority] changes nothing:
    a call on a handle of the queue's own never acts on another handle's
    element. *)
Theorem handles_exact_without_Clear n0 s h :
  built_without_Clear n0 s -> (n0 <= h)%nat -> valid_handle s h ->
  exists it, store s !! h = Some it /\
    ((h ∈ items (queue s) /\ 0 <= Index it /\
      items (queue s) !! Z.to_nat (Index it) = Some h /\
      exists s', Remove h s = Some ((Value it, true), s') /\
                 Permutation (items (queue s)) (h :: items (queue s'))) \/
     ((h ∉ items (queue s)) /\ Index it = -1 /\
      Remove h s = Some ((zero, false), s) /\
      forall p, UpdatePriority h p s = Some (tt, s))).
Proof.
  intros Hb Hge Hv. pose proof (bwc_built n0 s Hb) as Hbuilt.
  pose proof (built_positions_ok s Hbuilt) as Hpos.
  destruct (valid_handle_lookup s h Hv) as (it & Hit).
  exists it. split; [exact Hit|].
  destruct (bwc_tracked n0 s Hb) as [_ Htr].
  destruct (Htr h it Hge Hit) as [Hidx|Hin].
  - right. split; [apply (marked_not_in_slice s h it Hpos Hit); lia|].
    split; [exact Hidx|].
    split; [apply (Remove_stale s h it Hit); lia|].
    intros p. apply (UpdatePriority_stale s h it p Hit). lia.
  - left. split; [exact Hin|].
    destruct (slot_of_member s h Hpos Hin) as (i & it0 & Hi & Hit0 & Hidx).
    assert (it0 = it) by congruence. subst it0.
    split; [lia|]. split; [rewrite Hidx, Nat2Z.id; exact Hi|].
    destruct (Remove_member s h Hpos Hin) as (it1 & s' & Hit1 & Hr & Hrem).
    assert (it1 = it) by congruence. subst it1.
    exists s'. split; [exact Hr|apply (rem_perm _ _ _ Hrem)].
Qed.

(** ** [String] *)

Lemma string_app_cons x (a b : string) :
  (String x a +:+ b)%string = String x (a +:+ b).
Proof. reflexivity. Qed.

Lemma string_app_nil_r (a : string) : (a +:+ EmptyString)%string = a.
Proof.
  induction a as [|c a IH]; [reflexivity|].
  rewrite string_app_cons, IH. reflexivity.
Qed.

Lemma string_app_assoc (a b c : string) :
  ((a +:+ b) +:+ c)%string = (a +:+ (b +:+ c))%string.
Proof.
  induction a as [|x a IH]; [reflexivity|].
  rewrite !string_app_cons, IH. reflexivity.
Qed.

Lemma string_prefix_app (a b : string) : String.prefix a (a +:+ b) = true.
Proof.
  induction a as [|x a IH]; [destruct b; reflexivity|].
  rewrite string_app_cons. simpl.
  destruct (Ascii.ascii_dec x x); [exact IH|congruence].
Qed.

Lemma fold_append_prefix {A} (f : A -> string) (l : list A) : forall acc,
  exists rest, fold_left (fun a e => (a +:+ f e)%string) l acc = (acc +:+ rest)%string.
Proof.
  induction l as [|e l IH]; intros acc; simpl.
  - exists EmptyString. symmetry. apply string_app_nil_r.
  - destruct (IH (acc +:+ f e)%string) as (rest & Hr).
    exists (f e +:+ rest)%string. rewrite Hr. apply string_app_assoc.
Qed.

(** X19 (the rendering tells an empty queue from a non-empty one).  In a
    built queue [String] returns without changing the state; the result
    is ["PriorityQueue[]"] exactly when the queue is empty; otherwise it
    starts with the header that names the heap mode and the size. *)
Theorem String_empty_iff (show : T -> string) s :
  built s ->
  exists r, String_ show s = Some (r, s) /\
    (r = "PriorityQueue[]"%string <-> items (queue s) = []) /\
    (items (queue s) <> [] ->
     String.prefix (render_header (isMaxHeap (queue s))
                                  (Z.of_nat (length (items (queue s))))) r = true).
Proof.
  intros Hb. pose proof (built_positions_ok s Hb) as Hpos.
  unfold String_. rewrite (bind_Some _ _ _ _ _ (len_eq s)).
  destruct (items (queue s)) as [|p0 l0] eqn:E.
  - exists "PriorityQueue[]"%string. split; [reflexivity|].
    split; [tauto|congruence].
  - rewrite <- E.
    assert (Hn : (Z.of_nat (length (items (queue s))) =? 0) = false).
    { rewrite E. reflexivity. }
    rewrite Hn.
    destruct (mapM (fun p => store s !! p) (items (queue s))) as [l|] eqn:EM.
    + destruct (fold_append_prefix
                  (fun e : nat * Item => render_line show (fst e) (snd e))
                  (imap pair l)
                  (render_header (isMaxHeap (queue s))
                                 (Z.of_nat (length (items (queue s))))))
        as (rest & Hrest).
      eexists. split; [reflexivity|]. rewrite Hrest.
      split; [|intros _; apply string_prefix_app].
      split; [|rewrite E; discriminate].
      unfold render_header. intros Heq.
      destruct (isMaxHeap (queue s));
        rewrite !string_app_assoc, !string_app_cons in Heq; discriminate Heq.
    + exfalso. apply mapM_None in EM.
      apply Exists_exists in EM as (p & Hin & Hnone).
      destruct (pos_store s p Hpos Hin) as (a & Ha). congruence.
Qed.

End PrioQueue.

(** * Concrete queues of integers *)

(** [New]; [Enqueue(10, 3)]; [Enqueue(20, 1)]; [Enqueue(30, 2)]. *)
Definition three_state : State (T := Z) :=
  mkState [mkItem 10 3 1; mkItem 20 1 0; mkItem 30 2 2]
          (mkPQ [1; 0; 2]%nat None false).

Lemma three_built : built 0 three_state.
Proof.
  eapply built_step with (o := OpEnqueue 30 2);
    [eapply built_step with (o := OpEnqueue 20 1);
       [eapply built_step with (o := OpEnqueue 10 3);
          [eapply built_New with (st := []); reflexivity
          |exact I|reflexivity]
       |exact I|reflexivity]
    |exact I|reflexivity].
Qed.

(** [New]; [h := Enqueue(7, 1)]; [Dequeue]: the handle [h] is address [0]. *)
Definition drained_state : State (T := Z) :=
  mkState [mkItem 7 1 (-1)] (mkPQ [] None false).

(** A comparator by difference, and
    [NewWithComparator(by_difference, false)]; [Enqueue(5, 0)];
    [Enqueue(2, 0)]. *)
Definition by_difference : Comparator (T := Z) := fun a b => a - b.

Definition compared_state : State (T := Z) :=
  mkState [mkItem 5 0 1; mkItem 2 0 0]
          (mkPQ [1; 0]%nat (Some by_difference) false).

(** A comparator that ranks every value before every other, and
    [NewWithComparator(always_before, false)]; [Enqueue(1, 0)];
    [Enqueue(2, 0)]. *)
Definition always_before : Comparator (T := Z) := fun _ _ => -1.

Definition unordered_state : State (T := Z) :=
  mkState [mkItem 1 0 1; mkItem 2 0 0]
          (mkPQ [1; 0]%nat (Some always_before) false).

Lemma unordered_built : built 0 unordered_state.
Proof.
  eapply built_step with (o := OpEnqueue 2 0);
    [eapply built_step with (o := OpEnqueue 1 0);
       [eapply built_NewWithComparator
          with (st := []) (cmp := always_before) (mx := false);
        reflexivity
       |exact I|reflexivity]
    |exact I|reflexivity].
Qed.

(** [New]; [h := Enqueue(7, 1)]: the handle [h] is address [0]. *)
Definition one_state : State (T := Z) :=
  mkState [mkItem 7 1 0] (mkPQ [0]%nat None false).

Lemma one_built : built 0 one_state.
Proof.
  eapply built_step with (o := OpEnqueue 7 1);
    [eapply built_New with (st := []); reflexivity
    |exact I|reflexivity].
Qed.

(** [one_state]; [Clear]; [Enqueue(8, 2)]. *)
Definition reused_state : State (T := Z) :=
  mkState [mkItem 7 1 0; mkItem 8 2 0] (mkPQ [1]%nat None false).

Lemma reused_built : built 0 reused_state.
Proof.
  eapply built_step with (o := OpEnqueue 8 2);
    [eapply built_step with (o := OpClear);
       [exact one_built|exact I|reflexivity]
    |exact I|reflexivity].
Qed.

Lemma compared_built : built 0 compared_state.
Proof.
  eapply built_step with (o := OpEnqueue 2 0);
    [eapply built_step with (o := OpEnqueue 5 0);
       [eapply built_NewWithComparator
          with (st := []) (cmp := by_difference) (mx := false);
        reflexivity
       |exact I|reflexivity]
    |exact I|reflexivity].
Qed.

Lemma by_difference_three_way : three_way by_difference.
Proof. unfold three_way, by_difference. split; intros; lia. Qed.

Lemma heap_invariant_built_witness : heap_invariant compared_state.
Proof.
  apply (heap_invariant_built 0 compared_state compared_built).
  right. apply (three_way_consistent compared_state by_difference).
  - reflexivity.
  - exact by_difference_three_way.
Defined.

(** The premise on the comparator is used: with a comparator that is no
    order at all, which ranks every value before every other, two
    enqueues leave a child that outranks its parent. *)
Lemma heap_invariant_needs_consistency :
  built 0 unordered_state /\ ~ heap_invariant unordered_state.
Proof.
  split; [exact unordered_built|].
  intros H.
  specialize (H 0%nat 1%nat (mkItem 2 0 0) (mkItem 1 0 1)
                (or_introl eq_refl) eq_refl eq_refl).
  discriminate H.
Qed.

Lemma position_tracking_witness :
  positions_ok three_state /\
  forall o, handles_ok three_state o ->
    exists r s', run_op 0 o three_state = Some (r, s') /\ positions_ok s'.
Proof. exact (position_tracking 0 three_state three_built). Defined.

Lemma empty_queue_not_found_witness :
  Dequeue 0 drained_state = Some ((0, false), drained_state) /\
  Peek 0 drained_state = Some ((0, false), drained_state).
Proof. apply (empty_queue_not_found 0 drained_state). reflexivity. Defined.

Lemma out_of_range_handle_witness :
  UpdatePriority 0%nat 5 drained_state = Some (tt, drained_state) /\
  Remove 0 0%nat drained_state = Some ((0, false), drained_state).
Proof.
  apply (out_of_range_handle 0 drained_state 0%nat (mkItem 7 1 (-1)) 5).
  - reflexivity.
  - left. simpl. lia.
Defined.

Lemma peek_idempotent_witness :
  exists it, elem three_state 0 = Some it /\
             Peek 0 three_state = Some ((Value it, true), three_state) /\
             peek_n 0 3 three_state = Some (replicate 3 (Value it, true), three_state).
Proof.
  apply (peek_idempotent 0 three_state 3 three_built). simpl. lia.
Defined.

Lemma UpdatePriority_frame_witness :
  exists s', UpdatePriority 0%nat 0 three_state = Some (tt, s') /\
    length (items (queue s')) = length (items (queue three_state)) /\
    Permutation (items (queue s')) (items (queue three_state)) /\
    Permutation (values 0 s') (values 0 three_state) /\
    length (store s') = length (store three_state) /\
    comparator (queue s') = comparator (queue three_state) /\
    isMaxHeap (queue s') = isMaxHeap (queue three_state) /\
    (exists it', store s' !! 0%nat = Some it' /\ Value it' = 10 /\ Priority it' = 0) /\
    (forall q itq, q <> 0%nat -> store three_state !! q = Some itq ->
       exists itq', store s' !! q = Some itq' /\
                    Value itq' = Value itq /\ Priority itq' = Priority itq) /\
    (forall q, q ∉ items (queue three_state) -> q <> 0%nat ->
       store s' !! q = store three_state !! q).
Proof.
  apply (UpdatePriority_frame 0 three_state 0%nat (mkItem 10 3 1) 0 three_built).
  - reflexivity.
  - simpl. lia.
Defined.

Lemma compared_reached :
  reach 0 (fresh [] (Some by_difference) false) compared_state.
Proof.
  eapply reach_step with (o := OpEnqueue 5 0); [exact I|reflexivity|].
  eapply reach_step with (o := OpEnqueue 2 0); [exact I|reflexivity|].
  apply reach_refl.
Qed.

Lemma comparator_ordering_witness :
  comparator (queue compared_state) = Some by_difference /\
  isMaxHeap (queue compared_state) = false /\
  exists b, Less 0 1 compared_state = Some (b, compared_state) /\
            (b = true <-> by_difference 2 5 < 0).
Proof.
  destruct (comparator_ordering 0 [] by_difference false) as (s0 & Hnew & H).
  assert (E : s0 = fresh [] (Some by_difference) false).
  { vm_compute in Hnew. inversion Hnew. reflexivity. }
  subst s0.
  destruct (H compared_state compared_reached) as (Hc & Hm & HLess & _).
  split; [exact Hc|]. split; [exact Hm|].
  destruct (HLess 0%nat 1%nat (mkItem 2 0 0) (mkItem 5 0 1) eq_refl eq_refl)
    as (b & Hb & Hasc & _).
  exists b. split; [exact Hb|exact (Hasc eq_refl)].
Defined.

(** C4 at a failing input: after [Clear] the queue is empty, but the
    handle that was live keeps the slot number it had. *)
Theorem Clear_keeps_Index :
  built 0 one_state /\
  exists s', Clear one_state = Some (tt, s') /\
             Size s' = Some (0, s') /\
             store s' !! 0%nat = Some (mkItem 7 1 0).
Proof.
  split; [exact one_built|].
  eexists. split; [reflexivity|]. split; reflexivity.
Qed.

(** C3 at a failing input: a handle that [Clear] consumed still records
    slot [0]; once another element is enqueued, [Remove] on the handle
    takes that element out and reports success. *)
Theorem Remove_after_Clear_takes_live_element :
  built 0 reused_state /\
  store reused_state !! 0%nat = Some (mkItem 7 1 0) /\
  (0%nat ∉ items (queue reused_state)) /\
  exists s', Remove 0 0%nat reused_state = Some ((8, true), s') /\
             items (queue s') = [].
Proof.
  split; [exact reused_built|]. split; [reflexivity|].
  split; [intros H; apply list_elem_of_In in H; simpl in H; intuition discriminate|].
  eexists. split; reflexivity.
Qed.

(** ** The repository's tests, replayed on the model *)

Open Scope string_scope.

(** [lengthComparator] of [TestCustomComparator]. *)
Definition by_length : Comparator (T := string) :=
  fun a b =>
    if (String.length a <? String.length b)%nat then -1
    else if (String.length b <? String.length a)%nat then 1
    else 0.

Example TestEnqueueDequeue :
  fst <$> (bind (Enqueue "low" 3) (fun _ =>
           bind (Enqueue "high" 1) (fun _ =>
           bind (Enqueue "medium" 2) (fun _ =>
           dequeue_n "" 4))) (fresh [] None false))
  = Some [("high", true); ("medium", true); ("low", true); ("", false)].
Proof. vm_compute. reflexivity. Qed.

Example TestMaxHeapBehavior :
  fst <$> (bind (Enqueue 1 1) (fun _ =>
           bind (Enqueue 2 2) (fun _ =>
           bind (Enqueue 3 3) (fun _ =>
           dequeue_n 0 2))) (fresh [] None true))
  = Some [(3, true); (2, true)].
Proof. vm_compute. reflexivity. Qed.

Example TestPeek :
  fst <$> (bind (Peek "") (fun r0 =>
           bind (Enqueue "first" 1) (fun _ =>
           bind (Enqueue "second" 2) (fun _ =>
           bind (Peek "") (fun r1 =>
           bind Size (fun n => ret (r0, r1, n)))))) (fresh [] None false))
  = Some (("", false), ("first", true), 2).
Proof. vm_compute. reflexivity. Qed.

Example TestUpdatePriority :
  fst <$> (bind (Enqueue "item1" 3) (fun item1 =>
           bind (Enqueue "item2" 1) (fun item2 =>
           bind (Enqueue "item3" 2) (fun _ =>
           bind (UpdatePriority item1 0) (fun _ =>
           bind (Dequeue "") (fun r1 =>
           bind (UpdatePriority item2 5) (fun _ =>
           bind (Dequeue "") (fun r2 =>
           bind (Dequeue "") (fun r3 => ret [r1; r2; r3]))))))))
             (fresh [] None false))
  = Some [("item1", true); ("item3", true); ("item2", true)].
Proof. vm_compute. reflexivity. Qed.

Example TestRemove :
  fst <$> (bind (Enqueue "item1" 1) (fun item1 =>
           bind (Enqueue "item2" 2) (fun _ =>
           bind (Enqueue "item3" 3) (fun _ =>
           bind (Remove "" item1) (fun r1 =>
           bind Size (fun n =>
           bind (Dequeue "") (fun r2 => ret (r1, n, r2)))))))
             (fresh [] None false))
  = Some (("item1", true), 2, ("item2", true)).
Proof. vm_compute. reflexivity. Qed.

Example TestClear :
  fst <$> (bind (Enqueue 1 1) (fun _ =>
           bind (Enqueue 2 2) (fun _ =>
           bind (Enqueue 3 3) (fun _ =>
           bind Size (fun n1 =>
           bind Clear (fun _ =>
           bind IsEmpty (fun e =>
           bind Size (fun n2 =>
           bind ToSlice (fun l => ret (n1, e, n2, l)))))))))
             (fresh (T := Z) [] None false))
  = Some (3, true, 0, []).
Proof. vm_compute. reflexivity. Qed.

Example TestCustomComparator :
  fst <$> (bind (Enqueue "hello" 0) (fun _ =>
           bind (Enqueue "hi" 0) (fun _ =>
           bind (Enqueue "goodbye" 0) (fun _ =>
           dequeue_n "" 3))) (fresh [] (Some by_length) false))
  = Some [("hi", true); ("hello", true); ("goodbye", true)].
Proof. vm_compute. reflexivity. Qed.

(** ** Further properties on concrete queues *)

Close Scope string_scope.

(** The program makes [&Item{Value: 9, Priority: 9}] itself, at address
    [0], then [New]; [h := Enqueue(8, 2)]: the handle [h] is address [1]. *)
Definition guest_state : State (T := Z) :=
  mkState [mkItem 9 9 0; mkItem 8 2 0] (mkPQ [1]%nat None false).

Lemma guest_built_without_Clear : built_without_Clear 0 1 guest_state.
Proof.
  eapply bwc_step with (o := OpEnqueue 8 2);
    [eapply bwc_New with (st := [mkItem 9 9 0]); reflexivity
    |exact I|reflexivity|reflexivity].
Qed.

(** The item the program made itself is no handle of the queue: [Remove]
    on it takes out the element [8]. *)
Example Remove_guest :
  fst <$> Remove 0 0%nat guest_state = Some (8, true).
Proof. reflexivity. Qed.

Lemma three_not_empty : items (queue three_state) <> [].
Proof. discriminate. Qed.

Lemma size_accounting_witness :
  exists r s' n,
    Size three_state = Some (n, three_state) /\
    run_op 0 OpDequeue three_state = Some (r, s') /\
    Size s' = Some (size_after OpDequeue r n, s') /\
    0 <= size_after OpDequeue r n.
Proof. exact (size_accounting 0 three_state OpDequeue three_built I). Defined.

Lemma Peek_announces_Dequeue_witness :
  exists v ok s',
    Peek 0 three_state = Some ((v, ok), three_state) /\
    Dequeue 0 three_state = Some ((v, ok), s') /\
    IsEmpty three_state = Some (negb ok, three_state) /\
    (ok = true <-> items (queue three_state) <> []).
Proof. exact (Peek_announces_Dequeue 0 three_state three_built). Defined.

Lemma Dequeue_takes_best_witness :
  exists v pr s',
    Dequeue 0 three_state = Some ((v, true), s') /\
    Permutation (keys 0 three_state) ((v, pr) :: keys 0 s') /\
    Forall (fun k => lt_of three_state k (v, pr) = false) (keys 0 three_state) /\
    (comparator (queue three_state) = None ->
     Forall (fun k => if isMaxHeap (queue three_state)
                      then snd k <= pr else pr <= snd k)
            (keys 0 three_state)).
Proof.
  apply (Dequeue_takes_best 0 three_state three_built).
  - left. reflexivity.
  - exact three_not_empty.
Defined.

Lemma Enqueue_adds_witness :
  exists h s' it,
    Enqueue 40 0 three_state = Some (h, s') /\
    ~ valid_handle three_state h /\
    store s' !! h = Some it /\ Value it = 40 /\ Priority it = 0 /\
    0 <= Index it /\ items (queue s') !! Z.to_nat (Index it) = Some h /\
    Permutation (items (queue s')) (h :: items (queue three_state)) /\
    Permutation (keys 0 s') ((40, 0) :: keys 0 three_state) /\
    (forall q a, store three_state !! q = Some a ->
       exists a', store s' !! q = Some a' /\
                  Value a' = Value a /\ Priority a' = Priority a) /\
    (forall q, q ∉ items (queue three_state) -> valid_handle three_state q ->
       store s' !! q = store three_state !! q).
Proof. exact (Enqueue_adds 0 three_state 40 0 three_built). Defined.

Lemma two_in_three : 2%nat ∈ items (queue three_state).
Proof. apply list_elem_of_In. simpl. auto. Qed.

Lemma Remove_live_handle_witness :
  exists it s' it',
    store three_state !! 2%nat = Some it /\
    Remove 0 2%nat three_state = Some ((Value it, true), s') /\
    Permutation (items (queue three_state)) (2%nat :: items (queue s')) /\
    Permutation (keys 0 three_state) (key_of it :: keys 0 s') /\
    store s' !! 2%nat = Some it' /\ Index it' = -1 /\
    (forall q a, store three_state !! q = Some a ->
       exists a', store s' !! q = Some a' /\
                  Value a' = Value a /\ Priority a' = Priority a) /\
    (forall s2 p, reach 0 s' s2 ->
       UpdatePriority 2%nat p s2 = Some (tt, s2) /\
       Remove 0 2%nat s2 = Some ((0, false), s2)).
Proof. exact (Remove_live_handle 0 three_state 2%nat three_built two_in_three). Defined.

Lemma Dequeue_retires_handle_witness :
  exists h it s' it',
    items (queue three_state) !! 0%nat = Some h /\
    store three_state !! h = Some it /\
    Dequeue 0 three_state = Some ((Value it, true), s') /\
    store s' !! h = Some it' /\ Index it' = -1 /\
    (forall s2 p, reach 0 s' s2 ->
       UpdatePriority h p s2 = Some (tt, s2) /\
       Remove 0 h s2 = Some ((0, false), s2)).
Proof. exact (Dequeue_retires_handle 0 three_state three_built three_not_empty). Defined.

Lemma Enqueue_Remove_roundtrip_witness :
  exists h s1 s2,
    Enqueue 40 0 three_state = Some (h, s1) /\
    Remove 0 h s1 = Some ((40, true), s2) /\
    Permutation (items (queue s2)) (items (queue three_state)) /\
    Permutation (keys 0 s2) (keys 0 three_state) /\
    length (items (queue s2)) = length (items (queue three_state)).
Proof. exact (Enqueue_Remove_roundtrip 0 three_state 40 0 three_built). Defined.

Lemma UpdatePriority_promotes_witness :
  exists s' s'',
    UpdatePriority 0%nat 0 three_state = Some (tt, s') /\
    items (queue s') !! 0%nat = Some 0%nat /\
    Peek 0 s' = Some ((10, true), s') /\
    Dequeue 0 s' = Some ((10, true), s'').
Proof.
  apply (UpdatePriority_promotes 0 three_state 0%nat (mkItem 10 3 1) 0 three_built).
  - left. reflexivity.
  - apply list_elem_of_In. simpl. auto.
  - reflexivity.
  - intros q a _ Hq Ha.
    destruct q as [|[|[|q]]]; simpl in Ha; try congruence;
      inversion Ha; reflexivity.
Defined.

Lemma comparator_dequeue_order_witness :
  exists s0 s1 s2 sorted,
    NewWithComparator [] by_difference false = Some (tt, s0) /\
    enqueue_all [(5, 0); (2, 0)] s0 = Some (tt, s1) /\
    Permutation sorted [(5, 0); (2, 0)] /\
    StronglySorted (fun a b => if false then by_difference (fst a) (fst b) >= 0
                               else by_difference (fst a) (fst b) <= 0) sorted /\
    dequeue_n 0 2 s1 =
    Some (map (fun e => (fst e, true)) (take 2 sorted)
            ++ replicate (2 - length [(5, 0); (2, 0)]) (0, false), s2).
Proof.
  exact (comparator_dequeue_order 0 [] by_difference false [(5, 0); (2, 0)] 2
           by_difference_three_way).
Defined.

Lemma Clear_renews_witness :
  exists s0 s1 s2 sorted,
    Clear three_state = Some (tt, s0) /\
    store s0 = store three_state /\ items (queue s0) = [] /\
    enqueue_all [(5, 9); (2, 4)] s0 = Some (tt, s1) /\
    Permutation sorted [(5, 9); (2, 4)] /\
    StronglySorted (fun a b => lt_of three_state b a = false) sorted /\
    dequeue_n 0 3 s1 =
    Some (map (fun e => (fst e, true)) (take 3 sorted)
            ++ replicate (3 - length [(5, 9); (2, 4)]) (0, false), s2).
Proof.
  apply (Clear_renews 0 three_state [(5, 9); (2, 4)] 3). left. reflexivity.
Defined.

Lemma ToSlice_snapshot_witness :
  exists l, ToSlice three_state = Some (l, three_state) /\
            length l = length (items (queue three_state)) /\
            (forall i, l !! i = elem three_state i) /\
            (forall (i : nat) it, l !! i = Some it -> Index it = Z.of_nat i) /\
            map key_of l = keys 0 three_state.
Proof. exact (ToSlice_snapshot 0 three_state three_built). Defined.

Lemma raw_methods_bounds_witness :
  (is_Some (Less 0 1 three_state) <->
     0 <= 0 < Z.of_nat (length (items (queue three_state))) /\
     0 <= 1 < Z.of_nat (length (items (queue three_state)))) /\
  (forall b s1, Less 0 1 three_state = Some (b, s1) -> s1 = three_state) /\
  (is_Some (Swap 0 1 three_state) <->
     0 <= 0 < Z.of_nat (length (items (queue three_state))) /\
     0 <= 1 < Z.of_nat (length (items (queue three_state)))) /\
  (is_Some (Pop three_state) <-> items (queue three_state) <> []).
Proof. exact (raw_methods_bounds 0 three_state 0 1 three_built). Defined.

Lemma Swap_involution_witness :
  bind (Swap 0 2) (fun _ => Swap 0 2) three_state = Some (tt, three_state).
Proof.
  apply (Swap_involution 0 three_state 0 2 three_built); simpl; lia.
Defined.

Lemma Push_Pop_roundtrip_witness :
  bind (Push 0%nat) (fun _ => Pop) drained_state =
  Some (0%nat, mkState (<[0%nat := mkItem 7 1 (-1)]> (store drained_state))
                       (queue drained_state)).
Proof.
  apply (Push_Pop_roundtrip drained_state 0%nat (mkItem 7 1 (-1))). reflexivity.
Defined.

Lemma zero_off_reused : 0%nat ∉ items (queue reused_state).
Proof. intros H. apply list_elem_of_In in H. simpl in H. intuition discriminate. Qed.

Lemma UpdatePriority_off_slice_witness :
  exists s' it',
    UpdatePriority 0%nat 5 reused_state = Some (tt, s') /\
    queue s' = queue reused_state /\
    (forall q, q <> 0%nat -> store s' !! q = store reused_state !! q) /\
    store s' !! 0%nat = Some it' /\ Value it' = 7 /\ Index it' = 0.
Proof.
  apply (UpdatePriority_off_slice 0 reused_state 0%nat (mkItem 7 1 0) 5 reused_built).
  - left. reflexivity.
  - reflexivity.
  - exact zero_off_reused.
Defined.

Lemma UpdatePriority_same_witness :
  UpdatePriority 0%nat 3 three_state = Some (tt, three_state).
Proof.
  apply (UpdatePriority_same 0 three_state 0%nat (mkItem 10 3 1) three_built).
  - left. reflexivity.
  - reflexivity.
Defined.

Lemma drain_loop_processes_all_witness :
  exists sorted s',
    drain_loop 0 4 three_state = Some (map fst sorted, s') /\
    Permutation sorted (keys 0 three_state) /\
    StronglySorted (fun a b => lt_of three_state b a = false) sorted /\
    items (queue s') = [].
Proof.
  apply (drain_loop_processes_all 0 three_state 4 three_built).
  - left. reflexivity.
  - simpl. lia.
Defined.

Lemma handles_exact_without_Clear_witness :
  exists it, store guest_state !! 1%nat = Some it /\
    ((1%nat ∈ items (queue guest_state) /\ 0 <= Index it /\
      items (queue guest_state) !! Z.to_nat (Index it) = Some 1%nat /\
      exists s', Remove 0 1%nat guest_state = Some ((Value it, true), s') /\
                 Permutation (items (queue guest_state)) (1%nat :: items (queue s'))) \/
     ((1%nat ∉ items (queue guest_state)) /\ Index it = -1 /\
      Remove 0 1%nat guest_state = Some ((0, false), guest_state) /\
      forall p, UpdatePriority 1%nat p guest_state = Some (tt, guest_state))).
Proof.
  apply (handles_exact_without_Clear 0 1%nat guest_state 1%nat guest_built_without_Clear).
  - lia.
  - unfold valid_handle. simpl. lia.
Defined.

Lemma String_empty_iff_witness :
  exists r, String_ (pretty : Z -> string) three_state = Some (r, three_state) /\
    (r = "PriorityQueue[]"%string <-> items (queue three_state) = []) /\
    (items (queue three_state) <> [] ->
     String.prefix (render_header (isMaxHeap (queue three_state))
                      (Z.of_nat (length (items (queue three_state))))) r = true).
Proof. exact (String_empty_iff 0 (pretty : Z -> string) three_state three_built). Defined.

(** [TestString], and what the rendering of a queue of three looks like. *)
Example TestString :
  fst <$> String_ (pretty : Z -> string) (fresh [] None false) = Some "PriorityQueue[]"%string /\
  fst <$> String_ (pretty : Z -> string) three_state =
  Some ("PriorityQueue[min-heap, size=3]:" +:+ newline
        +:+ "  [0] Value: 20, Priority: 1" +:+ newline
        +:+ "  [1] Value: 10, Priority: 3" +:+ newline
        +:+ "  [2] Value: 30, Priority: 2")%string.
Proof. split; vm_compute; reflexivity. Qed.
